(** * jean: the command/event transport layer (src/lib/transport.ts)

    A shallow embedding of the browser-mode transport of the application:
    the [WsTransport] class (request/response correlation, event fan-out,
    token validation, reconnection with backoff, the pre-connection send
    queue), the HTTP preloader of the same file, and the cache seeding and
    invalidation of [App].

    The class mutates its fields from event-loop callbacks.  Here every
    method and every callback is a function from the state before the call
    to the state after it; the browser objects the class talks to (timers,
    the socket, [localStorage], the location bar, promises) are part of the
    state, so that what the code does to them can be stated.

    The first half of the file is the embedding: the modules [WsTransport],
    [Preload] and [App], each with the properties its statements are
    written in and the runs they are tried on.  The second half proves the
    statements, in [WsTransportFacts], [PreloadFacts] and [AppFacts]. *)

From stdpp Require Import base option list strings gmap pretty.
From Stdlib Require Import ZArith.

Local Open Scope string_scope.
Local Open Scope list_scope.
Local Open Scope Z_scope.

(** ** Values shared by the three parts *)

(** A JSON value that the transport only passes along (command arguments,
    response data, event payloads, the parts of the preloaded snapshot):
    its serialised text. *)
Abbreviation JsonValue := string.

(** JavaScript truthiness of a value that is a string, [null] or
    [undefined]: only a non-empty string is truthy. *)
Definition truthy (v : option string) : bool :=
  match v with
  | Some s => negb (String.eqb s "")
  | None => false
  end.

Module WsTransport.

(** ** Data *)

(** [WebSocket.readyState]. *)
Inductive ReadyState := CONNECTING | OPEN | CLOSING | CLOSED.

#[global] Instance ReadyState_eq_dec : EqDecision ReadyState.
Proof. solve_decision. Defined.

(** The outbound message of [invoke]:
    [JSON.stringify({ type: 'invoke', id, command, args: args || {} })]. *)
Record InvokeFrame := mkFrame {
  frame_id : string;
  frame_command : string;
  frame_args : JsonValue
}.

(** The socket object held in [this.ws]: the token of its URL, its ready
    state, and what has been written to it, oldest first. *)
Record WebSocket := mkWebSocket {
  ws_token : string;
  readyState : ReadyState;
  sent : list InvokeFrame
}.

(** How a promise returned by [invoke] is settled. *)
Inductive Outcome :=
| Resolved (data : option JsonValue)
| Rejected (message : string).

(** [interface PendingRequest { resolve, reject, timeout }].  [resolve] and
    [reject] are the two capabilities of one promise, named here by the
    promise; [timeout] is the handle returned by [setTimeout]. *)
Record PendingRequest := mkPending {
  promise : nat;
  timeout : positive
}.

(** An element of [this.queue].  Its [resolve] field is [() => {}] at the
    only place that builds one, so calling it does nothing. *)
Record QueuedSend := mkQueued { data : InvokeFrame }.

(** The two closures handed to [setTimeout]: the expiry of a request (it
    captures [id], [command] and [reject]) and the reconnect timer. *)
Inductive TimerCallback :=
| RequestTimeout (id command : string) (p : nat)
| ReconnectFire.

Record Timer := mkTimer {
  deadline : Z;
  callback : TimerCallback
}.

(** [interface WsMessage], after [JSON.parse].  A field that is absent, or
    that is not a string where the code uses it as one, is [None]. *)
Record WsMessage := mkMsg {
  msg_type : string;
  msg_id : option string;
  msg_data : option JsonValue;
  msg_error : option string;
  msg_event : option string;
  msg_payload : option JsonValue
}.

(** Event handlers are compared by identity ([Set.add], [Set.delete]). *)
Abbreviation Handler := nat.

(** The fields of [WsTransport], then the browser state they act on. *)
#[projections(primitive)] Record State := mkState {
  ws : option WebSocket;
  pending : gmap string PendingRequest;
  listeners : gmap string (list Handler);
  reconnectAttempt : nat;
  reconnectTimer : option positive;
  queue : list QueuedSend;
  _connected : bool;
  _connecting : bool;
  _authError : option string;
  _subscribers : list nat;
  (* environment.ts: the [_wsConnected] flag behind [setWsConnected] *)
  env_wsConnected : bool;
  (* [?token=] of the location bar and [localStorage['jean-http-token']] *)
  location_token : option string;
  storage_token : option string;
  (* the token of the [validateAndConnect] call suspended at [await fetch] *)
  validating : option string;
  (* the clock and the timers of [setTimeout] *)
  now : Z;
  timers : gmap positive Timer;
  next_timer : positive;
  (* promises created by [invoke], and every call of a [resolve]/[reject] *)
  next_promise : nat;
  settled : list (nat * Outcome);
  (* calls of event handlers, [console.error] lines, subscriber callbacks *)
  delivered : list (Handler * option JsonValue);
  console : list string;
  notified : list nat
}.

Definition set_ws (v : option WebSocket) (s : State) : State :=
  let 'mkState a b c d e f g h i j k l m n o p q r t u w x := s in
  mkState v b c d e f g h i j k l m n o p q r t u w x.
Definition set_pending (v : gmap string PendingRequest) (s : State) : State :=
  let 'mkState a b c d e f g h i j k l m n o p q r t u w x := s in
  mkState a v c d e f g h i j k l m n o p q r t u w x.
Definition set_listeners (v : gmap string (list Handler)) (s : State) : State :=
  let 'mkState a b c d e f g h i j k l m n o p q r t u w x := s in
  mkState a b v d e f g h i j k l m n o p q r t u w x.
Definition set_reconnectAttempt (v : nat) (s : State) : State :=
  let 'mkState a b c d e f g h i j k l m n o p q r t u w x := s in
  mkState a b c v e f g h i j k l m n o p q r t u w x.
Definition set_reconnectTimer (v : option positive) (s : State) : State :=
  let 'mkState a b c d e f g h i j k l m n o p q r t u w x := s in
  mkState a b c d v f g h i j k l m n o p q r t u w x.
Definition set_queue (v : list QueuedSend) (s : State) : State :=
  let 'mkState a b c d e f g h i j k l m n o p q r t u w x := s in
  mkState a b c d e v g h i j k l m n o p q r t u w x.
Definition set_connected (v : bool) (s : State) : State :=
  let 'mkState a b c d e f g h i j k l m n o p q r t u w x := s in
  mkState a b c d e f v h i j k l m n o p q r t u w x.
Definition set_connecting (v : bool) (s : State) : State :=
  let 'mkState a b c d e f g h i j k l m n o p q r t u w x := s in
  mkState a b c d e f g v i j k l m n o p q r t u w x.
Definition set_authError (v : option string) (s : State) : State :=
  let 'mkState a b c d e f g h i j k l m n o p q r t u w x := s in
  mkState a b c d e f g h v j k l m n o p q r t u w x.
Definition set_subscribers (v : list nat) (s : State) : State :=
  let 'mkState a b c d e f g h i j k l m n o p q r t u w x := s in
  mkState a b c d e f g h i v k l m n o p q r t u w x.
Definition set_env_wsConnected (v : bool) (s : State) : State :=
  let 'mkState a b c d e f g h i j k l m n o p q r t u w x := s in
  mkState a b c d e f g h i j v l m n o p q r t u w x.
Definition set_location_token (v : option string) (s : State) : State :=
  let 'mkState a b c d e f g h i j k l m n o p q r t u w x := s in
  mkState a b c d e f g h i j k v m n o p q r t u w x.
Definition set_storage_token (v : option string) (s : State) : State :=
  let 'mkState a b c d e f g h i j k l m n o p q r t u w x := s in
  mkState a b c d e f g h i j k l v n o p q r t u w x.
Definition set_validating (v : option string) (s : State) : State :=
  let 'mkState a b c d e f g h i j k l m n o p q r t u w x := s in
  mkState a b c d e f g h i j k l m v o p q r t u w x.
Definition set_now (v : Z) (s : State) : State :=
  let 'mkState a b c d e f g h i j k l m n o p q r t u w x := s in
  mkState a b c d e f g h i j k l m n v p q r t u w x.
Definition set_timers (v : gmap positive Timer) (s : State) : State :=
  let 'mkState a b c d e f g h i j k l m n o p q r t u w x := s in
  mkState a b c d e f g h i j k l m n o v q r t u w x.
Definition set_next_timer (v : positive) (s : State) : State :=
  let 'mkState a b c d e f g h i j k l m n o p q r t u w x := s in
  mkState a b c d e f g h i j k l m n o p v r t u w x.
Definition set_next_promise (v : nat) (s : State) : State :=
  let 'mkState a b c d e f g h i j k l m n o p q r t u w x := s in
  mkState a b c d e f g h i j k l m n o p q v t u w x.
Definition set_settled (v : list (nat * Outcome)) (s : State) : State :=
  let 'mkState a b c d e f g h i j k l m n o p q r t u w x := s in
  mkState a b c d e f g h i j k l m n o p q r v u w x.
Definition set_delivered (v : list (Handler * option JsonValue)) (s : State)
  : State :=
  let 'mkState a b c d e f g h i j k l m n o p q r t u w x := s in
  mkState a b c d e f g h i j k l m n o p q r t v w x.
Definition set_console (v : list string) (s : State) : State :=
  let 'mkState a b c d e f g h i j k l m n o p q r t u w x := s in
  mkState a b c d e f g h i j k l m n o p q r t u v x.
Definition set_notified (v : list nat) (s : State) : State :=
  let 'mkState a b c d e f g h i j k l m n o p q r t u w x := s in
  mkState a b c d e f g h i j k l m n o p q r t u w v.

(** ** Browser primitives *)

(** [setTimeout(cb, delay)]: a fresh positive handle; the timer is due
    [delay] milliseconds from now. *)
Definition setTimeout (cb : TimerCallback) (delay : Z) (s : State)
  : positive * State :=
  let t := next_timer s in
  (t, set_next_timer (Pos.succ t)
        (set_timers (<[t := mkTimer (now s + delay) cb]> (timers s)) s)).

Definition clearTimeout (t : positive) (s : State) : State :=
  set_timers (delete t (timers s)) s.

(** A call of the [resolve] or [reject] of promise [p]. *)
Definition settle (p : nat) (o : Outcome) (s : State) : State :=
  set_settled (settled s ++ [(p, o)]) s.

(** [this.ws?.send(data)].  On an open socket the frame is written; on a
    closing or closed one it is discarded; on a connecting one [send]
    throws ([None]); without a socket the optional chain does nothing. *)
Definition ws_send (d : InvokeFrame) (s : State) : option State :=
  match ws s with
  | None => Some s
  | Some w =>
      match readyState w with
      | OPEN =>
          Some (set_ws (Some (mkWebSocket (ws_token w) OPEN (sent w ++ [d]))) s)
      | CONNECTING => None
      | CLOSING | CLOSED => Some s
      end
  end.

Definition ws_readyState_is (r : ReadyState) (s : State) : bool :=
  match ws s with
  | Some w => bool_decide (readyState w = r)
  | None => false
  end.

(** ** The methods of [WsTransport] *)

Definition notifySubscribers (s : State) : State :=
  set_notified (notified s ++ _subscribers s) s.

Definition setConnected (value : bool) (s : State) : State :=
  notifySubscribers (set_env_wsConnected value (set_connected value s)).

Definition setAuthError (error : option string) (s : State) : State :=
  notifySubscribers (set_authError error s).

Definition subscribe (cb : nat) (s : State) : State :=
  set_subscribers
    (if decide (cb ∈ _subscribers s) then _subscribers s
     else _subscribers s ++ [cb]) s.

Definition unsubscribe (cb : nat) (s : State) : State :=
  set_subscribers (filter (λ c, c ≠ cb) (_subscribers s)) s.

Definition no_token_message : string :=
  "No access token provided. Use the URL from Jean's Web Access settings.".

Definition invalid_token_message : string :=
  "Invalid access token. Check the URL in Jean's Web Access settings.".

(** [Math.min(1000 * 2 ** this.reconnectAttempt, 30_000)].  The JavaScript
    power overflows to [Infinity] from attempt 1024 on, where the minimum
    is 30000 as it is here. *)
Definition backoff_delay (attempt : nat) : Z :=
  Z.min (1000 * 2 ^ Z.of_nat attempt) 30000.

Definition scheduleReconnect (s : State) : State :=
  match reconnectTimer s with
  | Some _ => s
  | None =>
      if truthy (_authError s) then s
      else
        let delay := backoff_delay (reconnectAttempt s) in
        let s := set_reconnectAttempt (S (reconnectAttempt s)) s in
        let '(t, s) := setTimeout ReconnectFire delay s in
        set_reconnectTimer (Some t) s
  end.

(** [connect()], up to the point where [validateAndConnect] is suspended at
    its [await fetch(authUrl)]. *)
Definition connect (s : State) : State :=
  if _connecting s || ws_readyState_is OPEN s || ws_readyState_is CONNECTING s
  then s
  else
    let urlToken := location_token s in
    let token :=
      if truthy urlToken then default "" urlToken
      else if truthy (storage_token s) then default "" (storage_token s)
      else "" in
    let s :=
      if truthy urlToken
      then set_location_token None (set_storage_token urlToken s)
      else s in
    if String.eqb token "" then setAuthError (Some no_token_message) s
    else set_validating (Some token) (set_connecting true s).

(** [connectWs(token)]: a new socket, connecting; the four callbacks it
    installs are [onopen], [onmessage], [onclose] and [onerror] below. *)
Definition connectWs (token : string) (s : State) : State :=
  set_ws (Some (mkWebSocket token CONNECTING [])) s.

(** The outcome of the [fetch] of the token check: a response that is
    [ok], a response that is not, or a rejected [fetch]. *)
Inductive FetchResult := FetchOk | FetchNotOk | FetchFailed.

(** [validateAndConnect(token)] from the [await] on. *)
Definition validateAndConnect (token : string) (r : FetchResult) (s : State)
  : State :=
  match r with
  | FetchNotOk =>
      setAuthError (Some invalid_token_message) (set_storage_token None s)
  | FetchFailed => scheduleReconnect (setAuthError None s)
  | FetchOk => connectWs token (setAuthError None s)
  end.

(** The loop of [onopen]; the flag is [false] when a [send] threw. *)
Fixpoint flush (items : list QueuedSend) (s : State) : State * bool :=
  match items with
  | [] => (s, true)
  | item :: rest =>
      match ws_send (data item) s with
      | Some s' => flush rest s'
      | None => (s, false)
      end
  end.

Definition onopen (s : State) : State :=
  let s := setConnected true s in
  let s := set_reconnectAttempt 0%nat s in
  let '(s, completed) := flush (queue s) s in
  if completed then set_queue [] s else s.

Definition onclose (s : State) : State :=
  scheduleReconnect (setConnected false s).

Definition onerror (s : State) : State := s.

Definition timed_out_message (command : string) : string :=
  "Command '" +:+ command +:+ "' timed out after 60s".

(** [invoke(command, args)]; [id] is the value of [crypto.randomUUID()]
    and [args] the text of [args || {}]. *)
Definition invoke (id command : string) (args : JsonValue) (s : State)
  : nat * State :=
  let d := mkFrame id command args in
  let p := next_promise s in
  let s := set_next_promise (S p) s in
  let '(t, s) := setTimeout (RequestTimeout id command p) 60000 s in
  let s := set_pending (<[id := mkPending p t]> (pending s)) s in
  if ws_readyState_is OPEN s
  then (p, default s (ws_send d s))
  else (p, connect (set_queue (queue s ++ [mkQueued d]) s)).

(** What a timer does when it fires. *)
Definition run_callback (cb : TimerCallback) (s : State) : State :=
  match cb with
  | RequestTimeout id command p =>
      settle p (Rejected (timed_out_message command))
        (set_pending (delete id (pending s)) s)
  | ReconnectFire => connect (set_reconnectTimer None s)
  end.

(** [Set.add] and [Set.delete] on a set kept in insertion order. *)
Definition set_add (h : Handler) (hs : list Handler) : list Handler :=
  if decide (h ∈ hs) then hs else hs ++ [h].

Definition set_delete (h : Handler) (hs : list Handler) : list Handler :=
  filter (λ h', h' ≠ h) hs.

Definition listen (event : string) (handler : Handler) (s : State) : State :=
  let s :=
    match listeners s !! event with
    | Some _ => s
    | None => set_listeners (<[event := []]> (listeners s)) s
    end in
  let s :=
    match listeners s !! event with
    | Some hs => set_listeners (<[event := set_add handler hs]> (listeners s)) s
    | None => s
    end in
  connect s.

(** The closure returned by [listen(event, handler)]. *)
Definition unlisten (event : string) (handler : Handler) (s : State) : State :=
  let s :=
    match listeners s !! event with
    | Some hs =>
        set_listeners (<[event := set_delete handler hs]> (listeners s)) s
    | None => s
    end in
  match listeners s !! event with
  | Some [] => set_listeners (delete event (listeners s)) s
  | _ => s
  end.

Section Handlers.

(** What a registered handler does with a payload is outside the
    transport; all [handleMessage] can observe is whether the call throws.
    Handlers do not call back into the transport while they run. *)
Variable handler_throws : Handler → option JsonValue → bool.

Definition handler_error_line (event : string) : string :=
  "[WsTransport] Error in '" +:+ event +:+ "' handler:".

(** The body of the [for] loop of the event branch, [try]/[catch] included. *)
Definition call_handler (event : string) (payload : option JsonValue)
    (s : State) (h : Handler) : State :=
  let s := set_delivered (delivered s ++ [(h, payload)]) s in
  if handler_throws h payload
  then set_console (console s ++ [handler_error_line event]) s
  else s.

Definition handleMessage (msg : WsMessage) (s : State) : State :=
  if String.eqb (msg_type msg) "response" && truthy (msg_id msg) then
    match pending s !! default "" (msg_id msg) with
    | Some pr =>
        let s := clearTimeout (timeout pr) s in
        let s := set_pending (delete (default "" (msg_id msg)) (pending s)) s in
        settle (promise pr) (Resolved (msg_data msg)) s
    | None => s
    end
  else if String.eqb (msg_type msg) "error" && truthy (msg_id msg) then
    match pending s !! default "" (msg_id msg) with
    | Some pr =>
        let s := clearTimeout (timeout pr) s in
        let s := set_pending (delete (default "" (msg_id msg)) (pending s)) s in
        settle (promise pr)
          (Rejected (if truthy (msg_error msg) then default "" (msg_error msg)
                     else "Unknown error")) s
    | None => s
    end
  else if String.eqb (msg_type msg) "event" && truthy (msg_event msg) then
    match listeners s !! default "" (msg_event msg) with
    | Some handlers =>
        foldl (call_handler (default "" (msg_event msg)) (msg_payload msg))
          s handlers
    | None => s
    end
  else s.

(** [onmessage]: [None] is a frame on which [JSON.parse] throws, or whose
    value is not an object; the [catch] drops it. *)
Definition onmessage (parsed : option WsMessage) (s : State) : State :=
  match parsed with
  | Some msg => handleMessage msg s
  | None => s
  end.

(** ** The event loop

    One [Event] is one turn of the event loop that reaches the transport: a
    call from the application, a socket callback, the answer of the token
    check, a timer that fires, or time that passes. *)
Inductive Event :=
| EvInvoke (id command : string) (args : JsonValue)
| EvListen (event : string) (h : Handler)
| EvUnlisten (event : string) (h : Handler)
| EvSubscribe (cb : nat)
| EvUnsubscribe (cb : nat)
| EvConnect
| EvFetch (r : FetchResult)
| EvOpen
| EvMessage (parsed : option WsMessage)
| EvClosing
| EvClose
| EvStaleClose
| EvError
| EvTimer (t : positive)
| EvTick (dt : Z).

Definition set_readyState (r : ReadyState) (s : State) : State :=
  match ws s with
  | Some w => set_ws (Some (mkWebSocket (ws_token w) r (sent w))) s
  | None => s
  end.

(** The browser's side of each turn, then the callback of the class.
    - [EvFetch] resumes the suspended [validateAndConnect], then runs the
      [.finally] of [connect] that clears [_connecting].
    - [open] fires on a connecting socket, which is open when [onopen] runs;
      [close] fires once per socket, which is then closed.  [EvStaleClose]
      is the [close] of a socket that [this.ws] no longer points to.
    - A timer fires no earlier than its deadline and is retired when it
      does; the clock does not pass the deadline of a live timer. *)
Definition step (s : State) (ev : Event) : State :=
  match ev with
  | EvInvoke id command args => (invoke id command args s).2
  | EvListen event h => listen event h s
  | EvUnlisten event h => unlisten event h s
  | EvSubscribe cb => subscribe cb s
  | EvUnsubscribe cb => unsubscribe cb s
  | EvConnect => connect s
  | EvFetch r =>
      match validating s with
      | Some token =>
          set_connecting false
            (validateAndConnect token r (set_validating None s))
      | None => s
      end
  | EvOpen =>
      if ws_readyState_is CONNECTING s then onopen (set_readyState OPEN s)
      else s
  | EvMessage parsed => onmessage parsed s
  | EvClosing =>
      if ws_readyState_is OPEN s then set_readyState CLOSING s else s
  | EvClose =>
      match ws s with
      | Some w =>
          if decide (readyState w = CLOSED) then s
          else onclose (set_readyState CLOSED s)
      | None => s
      end
  | EvStaleClose => onclose s
  | EvError => onerror s
  | EvTimer t =>
      match timers s !! t with
      | Some tm =>
          if bool_decide (deadline tm ≤ now s)
          then run_callback (callback tm) (clearTimeout t s)
          else s
      | None => s
      end
  | EvTick dt =>
      if bool_decide (0 ≤ dt)
         && bool_decide
              (map_Forall (λ _ tm, now s + dt ≤ deadline tm) (timers s))
      then set_now (now s + dt) s
      else s
  end.

Definition run (s : State) (evs : list Event) : State := foldl step s evs.

(** The module has just been evaluated: [new WsTransport()], with whatever
    token the page URL and [localStorage] hold. *)
Definition init (urlToken stored : option string) : State :=
  mkState None ∅ ∅ 0%nat None [] false false None [] false urlToken stored
    None 0 ∅ 1%positive 0%nat [] [] [] [].

End Handlers.

(** ** Properties

    What the statements about the transport are written in.

    *** The correlation invariant

    The fields that take part in request/response correlation: the pending
    table, the timers, the two allocation counters, the log of settlements
    and the clock. *)
Definition core (s : State)
  : gmap string PendingRequest * gmap positive Timer * positive * nat
    * list (nat * Outcome) * Z :=
  (pending s, timers s, next_timer s, next_promise s, settled s, now s).

Record WF (pend : gmap string PendingRequest) (tms : gmap positive Timer)
    (nt : positive) (np : nat) (st : list (nat * Outcome)) (clock : Z)
  : Prop := {
  (* handles of live timers have been handed out *)
  wf_timer_fresh : ∀ t tm, tms !! t = Some tm → (t < nt)%positive;
  (* no live timer is overdue by more than the current instant *)
  wf_deadline : ∀ t tm, tms !! t = Some tm → clock ≤ deadline tm;
  (* a pending entry holds the handle of its own live expiry timer *)
  wf_pending_timer : ∀ id pr, pend !! id = Some pr →
    ∃ cmd D, tms !! timeout pr
             = Some (mkTimer D (RequestTimeout id cmd (promise pr)));
  (* a promise with a live expiry timer exists and is not settled *)
  wf_timer_promise : ∀ t D id cmd p,
    tms !! t = Some (mkTimer D (RequestTimeout id cmd p)) →
    (p < np)%nat ∧ p ∉ st.*1;
  (* a promise has one expiry timer *)
  wf_timer_inj : ∀ t1 t2 D1 D2 id1 id2 c1 c2 p,
    tms !! t1 = Some (mkTimer D1 (RequestTimeout id1 c1 p)) →
    tms !! t2 = Some (mkTimer D2 (RequestTimeout id2 c2 p)) → t1 = t2;
  (* settled promises exist, and each was settled by one call *)
  wf_settled_fresh : ∀ p, p ∈ st.*1 → (p < np)%nat;
  wf_settled_nodup : NoDup st.*1
}.

Definition wf (s : State) : Prop :=
  WF (pending s) (timers s) (next_timer s) (next_promise s) (settled s) (now s).

(** *** Request/response correlation *)

(** The outcome a response or error message gives to the request it names. *)
Definition message_outcome (msg : WsMessage) : Outcome :=
  if String.eqb (msg_type msg) "response" then Resolved (msg_data msg)
  else Rejected (if truthy (msg_error msg) then default "" (msg_error msg)
                 else "Unknown error").

(** The promises that a [resolve] or [reject] call has reached, one entry
    per call. *)
Definition settled_promises (s : State) : list nat := (settled s).*1.

Definition is_reply (msg : WsMessage) : Prop :=
  msg_type msg = "response" ∨ msg_type msg = "error".

(** A response or error message for request [id]. *)
Definition replies_to (id : string) (ev : Event) : Prop :=
  match ev with
  | EvMessage (Some msg) => is_reply msg ∧ msg_id msg = Some id
  | _ => False
  end.

(** *** Token validation and reconnection *)

(** The fields that decide whether a token check can start. *)
Definition auth (s : State)
  : option string * option string * option string * option string :=
  (_authError s, location_token s, storage_token s, validating s).

(** The state after the backend has rejected the token: an auth error is
    set, no token is left in the location bar or in storage, and no token
    check is in flight. *)
Definition auth_failed (s : State) : Prop :=
  truthy (_authError s) = true
  ∧ truthy (location_token s) = false
  ∧ storage_token s = None
  ∧ validating s = None.

(** While a token check is in flight, no usable token is left in the
    location bar: [connect] has moved it to storage. *)
Definition stripped (s : State) : Prop :=
  validating s = None ∨ truthy (location_token s) = false.

(** *** Backoff *)

(** [scheduleReconnect] has scheduled a reconnect between [s] and [s']: a
    new timer that is due after the backoff delay of the attempt counter of
    [s], held in [reconnectTimer], and the counter is one higher. *)
Definition schedules_backoff (s s' : State) : Prop :=
  timers s !! next_timer s = None
  ∧ timers s' !! next_timer s
    = Some (mkTimer (now s + backoff_delay (reconnectAttempt s)) ReconnectFire)
  ∧ reconnectTimer s' = Some (next_timer s)
  ∧ reconnectAttempt s' = S (reconnectAttempt s).

(** *** The listener map *)

Definition no_empty_sets (s : State) : Prop :=
  ∀ event hs, listeners s !! event = Some hs → hs ≠ [].

(** ** Runs

    Concrete runs on which the statements are tried.  [quiet] is a world
    in which no handler throws; in [first_throws] handler 1 always does. *)

Definition quiet : Handler → option JsonValue → bool := λ _ _, false.

Definition first_throws : Handler → option JsonValue → bool :=
  λ h _, Nat.eqb h 1.

Definition response_for (id : string) (d : JsonValue) : WsMessage :=
  mkMsg "response" (Some id) (Some d) None None None.

Definition error_for (id : string) (e : string) : WsMessage :=
  mkMsg "error" (Some id) None (Some e) None None.

Definition event_named (event : string) (payload : JsonValue) : WsMessage :=
  mkMsg "event" None None None (Some event) (Some payload).

(** A page that holds a stored token calls [invoke] once before anything
    else has happened. *)
Definition one_request : list Event := [EvInvoke "r1" "get_data" "{}"].

(** A page without any token: the request is queued, [connect] sets the
    auth error, and nothing will ever answer.  Sixty seconds pass, the
    timer fires, one more millisecond passes. *)
Definition sixty_seconds : list Event :=
  [EvTick 60000; EvTimer 1; EvTick 1].

(** Two requests are made while the token check is in flight; the check
    succeeds and the socket is connecting. *)
Definition two_queued : list Event :=
  [EvInvoke "r1" "get_data" "{}"; EvInvoke "r2" "get_data" "{}";
   EvFetch FetchOk].

(** The page starts its token check with the stored token. *)
Definition checking : list Event := [EvConnect].

(** The socket was open and has closed, which scheduled a reconnect one
    second ahead; before that second is over the application calls
    [invoke], which starts a token check of its own. *)
Definition dropped_then_invoked : list Event :=
  [EvConnect; EvFetch FetchOk; EvOpen; EvClose;
   EvInvoke "r1" "get_data" "{}"].

(** ** The environment probe and the snapshots

    environment.ts: [isNativeApp()] reads a global that does not change
    while the page lives and is an input here; [hasBackend()] also reads
    the flag that [setConnected] writes through [setWsConnected]. *)
Definition hasBackend (native : bool) (s : State) : bool :=
  if native then true else env_wsConnected s.

(** [getSnapshot()] and [getAuthErrorSnapshot()], what the two React hooks
    of the module show. *)
Definition getSnapshot (s : State) : bool := _connected s.

Definition getAuthErrorSnapshot (s : State) : option string := _authError s.

(** An event message. *)
Definition is_event (event : string) (msg : WsMessage) : Prop :=
  msg_type msg = "event" ∧ msg_event msg = Some event.

(** ** The writes of one turn

    What the methods do to the state, cut into the pieces between which a
    property of the state can be checked: each constructor is one such
    piece, with the condition under which the code runs it.  Every turn of
    the event loop is a sequence of them, or a change of the subscriber
    set and nothing else (proved below as [step_turns]). *)

(** [invoke] up to [this.pending.set]: the promise, the timer, the entry. *)
Definition register (id command : string) (s : State) : State :=
  set_pending (<[id := mkPending (next_promise s) (next_timer s)]> (pending s))
    (set_next_timer (Pos.succ (next_timer s))
       (set_timers
          (<[next_timer s
            := mkTimer (now s + 60000)
                 (RequestTimeout id command (next_promise s))]> (timers s))
          (set_next_promise (S (next_promise s)) s))).

(** [scheduleReconnect] past its two guards. *)
Definition schedule (s : State) : State :=
  set_reconnectTimer (Some (next_timer s))
    (set_next_timer (Pos.succ (next_timer s))
       (set_timers
          (<[next_timer s
            := mkTimer (now s + backoff_delay (reconnectAttempt s))
                 ReconnectFire]> (timers s))
          (set_reconnectAttempt (S (reconnectAttempt s)) s))).

(** The guard of [connect] lets the call through. *)
Definition may_connect (s : State) : Prop :=
  _connecting s = false ∧ ws_readyState_is OPEN s = false
  ∧ ws_readyState_is CONNECTING s = false.

Inductive turn (s : State) : State → Prop :=
| turn_register id command :
    turn s (register id command s)
| turn_send d w :
    ws s = Some w → readyState w = OPEN →
    turn s (set_ws (Some (mkWebSocket (ws_token w) OPEN (sent w ++ [d]))) s)
| turn_enqueue d :
    ws_readyState_is OPEN s = false →
    turn s (set_queue (queue s ++ [mkQueued d]) s)
| turn_no_token :
    may_connect s →
    truthy (location_token s) = false → truthy (storage_token s) = false →
    turn s (setAuthError (Some no_token_message) s)
| turn_check_url token :
    may_connect s → location_token s = Some token → token ≠ "" →
    turn s (set_validating (Some token)
              (set_connecting true
                 (set_location_token None
                    (set_storage_token (Some token) s))))
| turn_check_stored token :
    may_connect s → truthy (location_token s) = false →
    storage_token s = Some token → token ≠ "" →
    turn s (set_validating (Some token) (set_connecting true s))
| turn_listeners m :
    turn s (set_listeners m s)
| turn_rejected token :
    validating s = Some token →
    turn s (set_connecting false
              (setAuthError (Some invalid_token_message)
                 (set_storage_token None (set_validating None s))))
| turn_unreachable token :
    validating s = Some token →
    turn s (set_connecting false (setAuthError None (set_validating None s)))
| turn_validated token :
    validating s = Some token →
    turn s (set_connecting false
              (connectWs token (setAuthError None (set_validating None s))))
| turn_schedule :
    reconnectTimer s = None → truthy (_authError s) = false →
    turn s (schedule s)
| turn_open w :
    ws s = Some w → readyState w = CONNECTING →
    turn s (set_queue []
              (set_ws (Some (mkWebSocket (ws_token w) OPEN
                               (sent w ++ (data <$> queue s))))
                 (set_reconnectAttempt 0%nat (setConnected true s))))
| turn_reply id pr o :
    pending s !! id = Some pr →
    turn s (settle (promise pr) o
              (set_pending (delete id (pending s))
                 (clearTimeout (timeout pr) s)))
| turn_fan_out dl cl :
    turn s (set_console cl (set_delivered dl s))
| turn_closing w :
    ws s = Some w → readyState w = OPEN →
    turn s (set_ws (Some (mkWebSocket (ws_token w) CLOSING (sent w))) s)
| turn_closed w :
    ws s = Some w → readyState w ≠ CLOSED →
    turn s (setConnected false
              (set_ws (Some (mkWebSocket (ws_token w) CLOSED (sent w))) s))
| turn_stale_close :
    turn s (setConnected false s)
| turn_expire t D id command p :
    timers s !! t = Some (mkTimer D (RequestTimeout id command p)) →
    D ≤ now s →
    turn s (settle p (Rejected (timed_out_message command))
              (set_pending (delete id (pending s)) (clearTimeout t s)))
| turn_reconnect t D :
    timers s !! t = Some (mkTimer D ReconnectFire) → D ≤ now s →
    turn s (set_reconnectTimer None (clearTimeout t s))
| turn_tick dt :
    0 ≤ dt → map_Forall (λ _ tm, now s + dt ≤ deadline tm) (timers s) →
    turn s (set_now (now s + dt) s).

(** ** What the further statements are written in *)

(** Timer [t] is a scheduled reconnect that has not fired yet. *)
Definition reconnect_pending (s : State) (t : positive) : Prop :=
  ∃ D, timers s !! t = Some (mkTimer D ReconnectFire).

(** How far ahead a timer of each kind is set at most: the request timeout
    and the cap of the backoff. *)
Definition horizon (cb : TimerCallback) : Z :=
  match cb with
  | RequestTimeout _ _ _ => 60000
  | ReconnectFire => 30000
  end.

(** The socket in [this.ws] is open or connecting: the guard of
    [connect]. *)
Definition live (s : State) : bool :=
  ws_readyState_is OPEN s || ws_readyState_is CONNECTING s.

(** A JavaScript [Set] holds a value once. *)
Definition sets_nodup (s : State) : Prop :=
  ∀ event hs, listeners s !! event = Some hs → NoDup hs.

(** Handler [h] is not registered for [event]. *)
Definition unregistered (event : string) (h : Handler) (s : State) : Prop :=
  h ∉ default [] (listeners s !! event).

(** What the two hooks of the module show, and what announcing a change
    to the subscribers means: between [s] and [s'] they have all been
    called [n] times over, and at least once if what a hook shows has
    changed. *)
Definition snapshots (s : State) : bool * option string :=
  (getSnapshot s, getAuthErrorSnapshot s).

Definition announced (s s' : State) : Prop :=
  ∃ n : nat,
    notified s' = notified s ++ mjoin (replicate n (_subscribers s))
    ∧ (snapshots s' ≠ snapshots s → n ≠ 0%nat).

(** What holds of the token fields of the states the transport reaches. *)
Record token_inv (s : State) : Prop := {
  inv_connecting : _connecting s = true ↔ is_Some (validating s);
  inv_checked : ∀ token, validating s = Some token →
    token ≠ "" ∧ storage_token s = Some token ∧ live s = false;
  inv_socket : ∀ w, ws s = Some w → ws_token w ≠ "";
  inv_live : ∀ w, ws s = Some w → live s = true →
    storage_token s = Some (ws_token w)
}.

End WsTransport.

(** * The HTTP preloader (transport.ts, [preloadInitialData] and its
      accessors) *)

Module Preload.

(** [interface InitialData].  A field that is absent or [null] is [None];
    the three records are kept as their entries. *)
Record InitialData := mkInitialData {
  projects : option JsonValue;
  worktreesByProject : option (list (string * JsonValue));
  sessionsByWorktree : option (list (string * JsonValue));
  activeSessions : option (list (string * JsonValue));
  preferences : option JsonValue;
  uiState : option JsonValue
}.

(** The closure [data => { result = data }] of one call of
    [getPreloadedData]; it captures the variable [result] of that call,
    named here by the number of the call. *)
Inductive Reaction := AssignResult (var : nat).

(** A [Promise<InitialData | null>]: not yet fulfilled, or fulfilled with a
    value ([None] is [null]); and the reactions registered on it by [then]
    that wait for the value.  The promise of the preloader is never
    rejected: its [catch] returns [null]. *)
Record Promise := mkPromise {
  fulfilled : option (option InitialData);
  reactions : list Reaction
}.

(** The two module variables, then the browser state around them. *)
#[projections(primitive)] Record State := mkState {
  initialDataPromise : option Promise;
  initialDataResolved : bool;
  (* environment *)
  isNativeApp : bool;
  location_token : option string;
  storage_token : option string;
  (* the async arrow function is suspended at [await fetch] *)
  fetching : bool;
  (* the variable [result] of each call of [getPreloadedData] so far *)
  results : list (option InitialData);
  (* the microtask queue: reactions whose value is known, oldest first *)
  microtasks : list (Reaction * option InitialData)
}.

Definition set_promise (v : option Promise) (s : State) : State :=
  let 'mkState a b c d e f g h := s in mkState v b c d e f g h.
Definition set_resolved (v : bool) (s : State) : State :=
  let 'mkState a b c d e f g h := s in mkState a v c d e f g h.
Definition set_fetching (v : bool) (s : State) : State :=
  let 'mkState a b c d e f g h := s in mkState a b c d e v g h.
Definition set_results (v : list (option InitialData)) (s : State) : State :=
  let 'mkState a b c d e f g h := s in mkState a b c d e f v h.
Definition set_microtasks (v : list (Reaction * option InitialData))
    (s : State) : State :=
  let 'mkState a b c d e f g h := s in mkState a b c d e f g v.

Definition init (native : bool) (urlToken stored : option string) : State :=
  mkState None false native urlToken stored false [] [].

(** ** Promises *)

(** [p.then(r)]: when [p] is fulfilled the reaction becomes a microtask,
    otherwise it waits on [p].  In neither case does it run now. *)
Definition promise_then (r : Reaction) (s : State) : State :=
  match initialDataPromise s with
  | Some p =>
      match fulfilled p with
      | Some v => set_microtasks (microtasks s ++ [(r, v)]) s
      | None => set_promise (Some (mkPromise None (reactions p ++ [r]))) s
      end
  | None => s
  end.

(** The async arrow function returns [v]: its promise is fulfilled and the
    reactions that waited become microtasks. *)
Definition fulfil (v : option InitialData) (s : State) : State :=
  match initialDataPromise s with
  | Some p =>
      set_microtasks (microtasks s ++ ((λ r, (r, v)) <$> reactions p))
        (set_promise (Some (mkPromise (Some v) [])) s)
  | None => s
  end.

(** One microtask: the reaction assigns the value to its variable. *)
Definition run_reaction (s : State) (job : Reaction * option InitialData)
  : State :=
  match job with
  | (AssignResult var, v) => set_results (<[var := v]> (results s)) s
  end.

(** The event loop runs the queue to its end before the next task. *)
Definition drain (s : State) : State :=
  foldl run_reaction (set_microtasks [] s) (microtasks s).

(** ** The functions of the module *)

(** [preloadInitialData()], up to the [await fetch] of the arrow function
    (or to its [return null] when there is no token). *)
Definition preloadInitialData (s : State) : State :=
  if isNativeApp s then s
  else
    match initialDataPromise s with
    | Some _ => s
    | None =>
        let token :=
          if truthy (location_token s) then default "" (location_token s)
          else if truthy (storage_token s) then default "" (storage_token s)
          else "" in
        if String.eqb token ""
        then set_promise (Some (mkPromise (Some None) [])) s
        else set_fetching true (set_promise (Some (mkPromise None [])) s)
    end.

(** How the two awaits end: a response that is [ok] with its parsed body,
    a response that is not [ok], or a [fetch] or [json()] that rejects. *)
Inductive InitResult :=
| InitOk (body : option InitialData)
| InitNotOk
| InitFailed.

(** The arrow function from its [await] on. *)
Definition resume (r : InitResult) (s : State) : State :=
  if fetching s then
    match r with
    | InitOk body => fulfil body (set_resolved true (set_fetching false s))
    | InitNotOk | InitFailed => fulfil None (set_fetching false s)
    end
  else s.

Definition hasPreloadedData (s : State) : bool := initialDataResolved s.

(** [getPreloadedData()]: the value it returns, and the state it leaves. *)
Definition getPreloadedData (s : State) : option InitialData * State :=
  if negb (initialDataResolved s)
     || negb (bool_decide (is_Some (initialDataPromise s)))
  then (None, s)
  else
    (* let result = null *)
    let var := length (results s) in
    let s := set_results (results s ++ [None]) s in
    (* initialDataPromise.then(data => { result = data }) *)
    let s := promise_then (AssignResult var) s in
    (* return result *)
    (mjoin (results s !! var), s).

(** ** A run *)

(** The page has a stored token, the preload is started, and the backend
    answers with a snapshot that holds the preferences. *)
Definition snapshot : InitialData :=
  mkInitialData None None None None (Some "{}") None.

Definition preloaded : State :=
  resume (InitOk (Some snapshot))
    (preloadInitialData (init false None (Some "tok"))).

(** ** The event loop

    The turns of the event loop that reach the preloader: a call of
    [preloadInitialData], the end of its two awaits, a call of
    [getPreloadedData], and the microtask checkpoint that follows a turn. *)
Inductive Event :=
| EvPreload
| EvResume (r : InitResult)
| EvGet
| EvDrain.

Definition step (s : State) (ev : Event) : State :=
  match ev with
  | EvPreload => preloadInitialData s
  | EvResume r => resume r s
  | EvGet => (getPreloadedData s).2
  | EvDrain => drain s
  end.

Definition run (s : State) (evs : list Event) : State := foldl step s evs.


(** No token in the URL or in storage: [preloadInitialData] has nothing to
    send. *)
Definition no_token (s : State) : Prop :=
  truthy (location_token s) = false ∧ truthy (storage_token s) = false.

(** What holds between the two module variables and the suspended fetch
    in the states the preloader reaches. *)
Record consistent (s : State) : Prop := {
  fetch_pending :
    fetching s = true →
    initialDataPromise s = Some (mkPromise None [])
    ∧ initialDataResolved s = false ∧ isNativeApp s = false
    ∧ ¬ no_token s;
  fetch_over :
    fetching s = false →
    (initialDataPromise s = None ∧ initialDataResolved s = false)
    ∨ (∃ v, initialDataPromise s = Some (mkPromise (Some v) [])
            ∧ (initialDataResolved s = true → isNativeApp s = false
                                              ∧ ¬ no_token s))
}.

(** ** The requests

    [preloadInitialData] with the call of [fetch] made explicit: the state
    after the call, and the tokens with which it has asked for
    [/api/init]. *)
Definition preloadInitialData_fetch (s : State) : State * list string :=
  if isNativeApp s then (s, [])
  else
    match initialDataPromise s with
    | Some _ => (s, [])
    | None =>
        let token :=
          if truthy (location_token s) then default "" (location_token s)
          else if truthy (storage_token s) then default "" (storage_token s)
          else "" in
        if String.eqb token ""
        then (set_promise (Some (mkPromise (Some None) [])) s, [])
        else (set_fetching true (set_promise (Some (mkPromise None [])) s),
              [token])
    end.

(** No other turn calls [fetch]. *)
Definition step_fetch (s : State) (ev : Event) : State * list string :=
  match ev with
  | EvPreload => preloadInitialData_fetch s
  | EvResume _ | EvGet | EvDrain => (step s ev, [])
  end.

(** A run, with the requests sent during it, oldest first. *)
Definition run_fetch (s : State) (evs : list Event) : State * list string :=
  foldl (λ sl ev, ((step_fetch sl.1 ev).1, sl.2 ++ (step_fetch sl.1 ev).2))
    (s, []) evs.

(** The token that a page has: the one of the URL, or else the stored
    one. *)
Definition page_token (urlToken stored : option string) : string :=
  if truthy urlToken then default "" urlToken
  else if truthy stored then default "" stored
  else "".
End Preload.

(** * Seeding and invalidating the query cache ([App]) *)

Module App.

(** ** JSON values

    What [response.json()] hands to the shell is whatever the body parses
    to; the interface [InitialData] is not checked when the page runs, and
    [seedCache] tests and takes apart what it is given.  So the answer is
    kept here as a parsed value.  A number is a fraction, as every finite
    number of JavaScript is; the shell asks of a number only whether it is
    zero.  A string is its code units, one character each, which covers
    the strings whose characters are below U+0100.  The members of an
    object are in the order in which [Object.entries] lists them; an
    object has one member of a name. *)
Unset Elimination Schemes.
Inductive Json :=
| JNull
| JBool (b : bool)
| JNumber (numerator : Z) (denominator : positive)
| JString (s : string)
| JArray (items : list Json)
| JObject (members : list (string * Json)).
Set Elimination Schemes.

(** JavaScript truthiness; [None] is [undefined]. *)
Definition truthy_value (v : option Json) : bool :=
  match v with
  | None | Some JNull => false
  | Some (JBool b) => b
  | Some (JNumber n _) => negb (n =? 0)
  | Some (JString s) => negb (String.eqb s "")
  | Some (JArray _) | Some (JObject _) => true
  end.

(** ** The query cache

    The "single source-of-truth keyed store" of the spec is the query
    cache of @tanstack/react-query.  The library is not under src/; the
    definitions of this section are models of the calls that [App] makes
    to it, with the part of a cache entry that these calls read or
    write. *)

(** A query key is an array; every key of the application is an array of
    strings. *)
Abbreviation QueryKey := (list string).

(** Modelled from the spec: an entry of the keyed store.  Its data;
    whether it has been marked invalid since the data was written;
    whether a mounted and enabled observer is using it ([isActive()]);
    whether a fetch of it is in flight. *)
Record Query := mkQuery {
  query_data : option Json;
  isInvalidated : bool;
  isActive : bool;
  isFetching : bool
}.

(** Modelled from the spec: a write to the keyed store, where the last
    write wins.  [queryClient.setQueryData(key, value)] with a value that
    is not [undefined]: the entry holds the value and is no longer marked;
    its observers and a fetch in flight are as before.  An entry that did
    not exist has neither. *)
Definition setQueryData (key : QueryKey) (value : Json)
    (cache : gmap (list string) Query) : gmap (list string) Query :=
  <[key := match cache !! key with
           | Some q => mkQuery (Some value) false (isActive q) (isFetching q)
           | None => mkQuery (Some value) false false false
           end]> cache.

(** Modelled from the spec: the invalidation pass.
    [queryClient.invalidateQueries({ predicate })]: every query that the
    predicate accepts is marked invalid, and those of them that are active
    are fetched again; where a fetch was in flight it is replaced by the
    new one.  The call returns when the fetches have been started. *)
Definition invalidateQueries (accepts : QueryKey → bool)
    (cache : gmap (list string) Query) : gmap (list string) Query :=
  map_imap
    (λ key q,
       Some (if accepts key
             then mkQuery (query_data q) true (isActive q)
                    (isActive q || isFetching q)
             else q))
    cache.

(** Modelled from the spec: the socket path delivers the data again.  A
    fetch of [key] that was in flight ends: with new data, which are then
    the data of the entry, unmarked; or with an error, which leaves data
    and mark as they are. *)
Definition fetched (key : QueryKey) (result : option Json)
    (cache : gmap (list string) Query) : gmap (list string) Query :=
  match cache !! key with
  | Some q =>
      if isFetching q then
        <[key := match result with
                 | Some value => mkQuery (Some value) false (isActive q) false
                 | None =>
                     mkQuery (query_data q) (isInvalidated q) (isActive q)
                       false
                 end]> cache
      else cache
  | None => cache
  end.

(** ** The effect on [wsConnected] *)

(** The predicate of the effect that runs when the socket connects:
    [key !== 'projects' && key !== 'preferences' && key !== 'ui-state' &&
    key !== 'chat'] with [key = query.queryKey[0]], which is [undefined]
    for an empty key. *)
Definition predicate (queryKey : QueryKey) : bool :=
  let key := head queryKey in
  negb (bool_decide (key = Some "projects"))
  && negb (bool_decide (key = Some "preferences"))
  && negb (bool_decide (key = Some "ui-state"))
  && negb (bool_decide (key = Some "chat")).

(** [if (!isNativeApp() && wsConnected) queryClient.invalidateQueries(...)]. *)
Definition on_ws_connected (native wsConnected : bool)
    (cache : gmap (list string) Query) : gmap (list string) Query :=
  if negb native && wsConnected then invalidateQueries predicate cache
  else cache.

(** ** Code that calls [setQueryData] and may throw

    [seedCache] reads its argument, calls [queryClient.setQueryData], and
    throws a [TypeError] where it reads a property of [null] or iterates
    over a value that is not iterable.  What it reads does not depend on
    the cache.  A run of such code is the calls it has made, oldest first,
    and its value, or [None] when an exception has ended it. *)
Definition Run (A : Type) : Type := (list (QueryKey * Json) * option A)%type.

#[global] Instance Run_ret : MRet Run := λ A a, ([], Some a).

#[global] Instance Run_bind : MBind Run := λ A B f m,
  match m.2 with
  | Some a => (m.1 ++ (f a).1, (f a).2)
  | None => (m.1, None)
  end.

Definition throw {A : Type} : Run A := ([], None).

(** The call [queryClient.setQueryData(key, value)]. *)
Definition call_setQueryData (key : QueryKey) (value : Json) : Run unit :=
  ([(key, value)], Some tt).

(** The calls carried out on a cache. *)
Definition perform (calls : list (QueryKey * Json))
    (cache : gmap (list string) Query) : gmap (list string) Query :=
  foldl (λ c kv, setQueryData kv.1 kv.2 c) cache calls.

(** The member of an object with a given name. *)
Fixpoint lookup_member (name : string) (members : list (string * Json))
  : option Json :=
  match members with
  | [] => None
  | (k, v) :: rest =>
      if decide (k = name) then Some v else lookup_member name rest
  end.

(** [v.name] for one of the names that [seedCache] reads ([projects],
    [sessions], [id], ...), none of which a string, an array, a number or
    a boolean has: reading from [null] throws. *)
Definition member (name : string) (v : Json) : Run (option Json) :=
  match v with
  | JNull => throw
  | JObject members => mret (lookup_member name members)
  | _ => mret None
  end.

(** A character of a string, as the string it is when it is iterated
    over. *)
Definition characters (s : string) : list Json :=
  (λ c, JString (String c "")) <$> String.list_ascii_of_string s.

(** [Object.entries(v)]: the members of an object; the elements of an
    array or the characters of a string under their indices; nothing for a
    number or a boolean; [null] throws. *)
Definition entries (v : Json) : Run (list (string * Json)) :=
  match v with
  | JNull => throw
  | JObject members => mret members
  | JArray items => mret (imap (λ i x, (pretty i, x)) items)
  | JString s => mret (imap (λ i x, (pretty i, x)) (characters s))
  | JBool _ | JNumber _ _ => mret []
  end.

(** [Object.values(v)]. *)
Definition values (v : Json) : Run (list Json) :=
  es ← entries v; mret (es.*2).

(** What [for (const x of v)] runs over: the elements of an array, the
    characters of a string; any other value, [undefined] too, is not
    iterable. *)
Definition iterate (v : option Json) : Run (list Json) :=
  match v with
  | Some (JArray items) => mret items
  | Some (JString s) => mret (characters s)
  | _ => throw
  end.

(** The body of a loop, run for each element in turn until one throws. *)
Fixpoint for_each {A : Type} (xs : list A) (body : A → Run unit)
  : Run unit :=
  match xs with
  | [] => mret tt
  | x :: rest => body x ;; for_each rest body
  end.

(** [if (v) { ... v ... }]. *)
Definition if_truthy (v : option Json) (body : Json → Run unit) : Run unit :=
  match v with
  | Some x => if truthy_value (Some x) then body x else mret tt
  | None => mret tt
  end.

Section KeyBuilders.

(** [projectsQueryKeys] and [chatQueryKeys] are imported from
    [@/services/projects] and [@/services/chat], which are not part of the
    sources at hand; the four builders that [seedCache] calls are taken as
    parameters. *)
Variable projects_list : QueryKey.
Variable projects_worktrees : string → QueryKey.
Variable chat_sessions : string → QueryKey.
Variable chat_session : string → QueryKey.

(** The loop over [wts.sessions]: it fills the records that go to the chat
    store, and reads three properties of each session. *)
Definition session_flags (session : Json) : Run unit :=
  _ ← member "id" session;
  _ ← member "is_reviewing" session;
  _ ← member "waiting_for_input" session;
  mret tt.

(** The loop over the worktrees of a project: [if (wt.id && wt.path)]. *)
Definition worktree_path (wt : Json) : Run unit :=
  id ← member "id" wt;
  if truthy_value id then (_ ← member "path" wt; mret tt) else mret tt.

(** [seedCache(data)], statement by statement.  The records that the
    two inner loops fill are written to the chat store, which is not a
    query cache, by statements that cannot throw: they are left out, the
    reads that can throw are not. *)
Definition seedCache (data : Json) : Run unit :=
  projects ← member "projects" data;
  if_truthy projects (λ projects,
    call_setQueryData projects_list projects) ;;
  worktreesByProject ← member "worktreesByProject" data;
  if_truthy worktreesByProject (λ worktreesByProject,
    es ← entries worktreesByProject;
    for_each es (λ '(projectId, worktrees),
      call_setQueryData (projects_worktrees projectId) worktrees)) ;;
  sessionsByWorktree ← member "sessionsByWorktree" data;
  if_truthy sessionsByWorktree (λ sessionsByWorktree,
    es ← entries sessionsByWorktree;
    for_each es (λ '(worktreeId, sessionsData),
      call_setQueryData (chat_sessions worktreeId) sessionsData ;;
      sessions ← member "sessions" sessionsData;
      sessions ← iterate sessions;
      for_each sessions session_flags) ;;
    worktreesByProject ← member "worktreesByProject" data;
    if_truthy worktreesByProject (λ worktreesByProject,
      vs ← values worktreesByProject;
      for_each vs (λ worktrees,
        worktrees ← iterate (Some worktrees);
        for_each worktrees worktree_path))) ;;
  activeSessions ← member "activeSessions" data;
  if_truthy activeSessions (λ activeSessions,
    es ← entries activeSessions;
    for_each es (λ '(sessionId, session),
      call_setQueryData (chat_session sessionId) session)) ;;
  preferences ← member "preferences" data;
  if_truthy preferences (λ preferences,
    call_setQueryData ["preferences"] preferences) ;;
  uiState ← member "uiState" data;
  if_truthy uiState (λ uiState,
    call_setQueryData ["ui-state"] uiState).

(** The calls of [setQueryData] that the preload effect makes:
    [if (isNativeApp()) return] and then
    [preloadInitialData().then(data => { if (data) seedCache(data) })];
    [None] is the [null] of a preload that has failed.  An exception of
    [seedCache] goes to the [catch] of the chain, which logs it; the calls
    made before it have been made. *)
Definition seed_calls (native : bool) (data : option Json)
  : list (QueryKey * Json) :=
  if native then []
  else
    match data with
    | Some d => if truthy_value (Some d) then (seedCache d).1 else []
    | None => []
    end.

Definition on_preloaded (native : bool) (data : option Json)
    (cache : gmap (list string) Query) : gmap (list string) Query :=
  perform (seed_calls native data) cache.

(** The keys that the preloader writes for a given answer. *)
Definition seeded_keys (native : bool) (data : option Json)
  : list QueryKey :=
  (seed_calls native data).*1.

(** The keys of the calls that [seedCache] makes up to the end of its
    block for [sessionsByWorktree]. *)
Definition early_key (k : QueryKey) : Prop :=
  k = projects_list
  ∨ (∃ projectId, k = projects_worktrees projectId)
  ∨ (∃ worktreeId, k = chat_sessions worktreeId).

End KeyBuilders.

(** ** Properties and runs *)

(** An entry as [setQueryData] leaves it: it has data and is not marked. *)
Definition fresh (cache : gmap (list string) Query) (k : QueryKey) : Prop :=
  ∃ q, cache !! k = Some q ∧ is_Some (query_data q) ∧ isInvalidated q = false.

Definition preloaded_roots : list (option string) :=
  [Some "projects"; Some "preferences"; Some "ui-state"; Some "chat"].

(** What the pass does to an entry that the predicate accepts. *)
Definition invalidated (q : Query) : Query :=
  mkQuery (query_data q) true (isActive q) (isActive q || isFetching q).

(** Every call is for a key that [P] holds of. *)
Definition calls_all {A : Type} (P : QueryKey → Prop) (m : Run A) : Prop :=
  Forall (λ kv, P kv.1) m.1.

(** Whether an entry is observed, and whether it is being fetched, for a
    key that may have no entry. *)
Definition observed (cache : gmap (list string) Query) (k : QueryKey)
  : bool :=
  from_option isActive false (cache !! k).

Definition in_flight (cache : gmap (list string) Query) (k : QueryKey)
  : bool :=
  from_option isFetching false (cache !! k).

(** The value of the last call for key [k], if there is one. *)
Definition last_call (k : QueryKey) (calls : list (QueryKey * Json))
  : option Json :=
  foldl (λ acc kv, if decide (kv.1 = k) then Some kv.2 else acc) None calls.

(** The settings dialog of a project caches the sessions of a worktree
    with their message counts under
    [[...chatQueryKeys.sessions(wt.id), 'with-counts']].  The preloader
    answers with the sessions of worktree [w1]. *)
Definition with_counts (chat_sessions : string → QueryKey) : QueryKey :=
  chat_sessions "w1" ++ ["with-counts"].

Definition no_sessions : Json := JObject [("sessions", JArray [])].

Definition sessions_of_w1 : Json :=
  JObject [("sessionsByWorktree", JObject [("w1", no_sessions)])].

(** Keys of the shape the two visible key tables have: a root segment,
    then what tells the entries of the root apart. *)
Definition sample_projects_list : QueryKey := ["projects"; "list"].
Definition sample_projects_worktrees (projectId : string) : QueryKey :=
  ["projects"; projectId; "worktrees"].
Definition sample_chat_sessions (worktreeId : string) : QueryKey :=
  ["chat"; "sessions"; worktreeId].
Definition sample_chat_session (sessionId : string) : QueryKey :=
  ["chat"; "session"; sessionId].

Definition sample_snapshot : Json :=
  JObject [("projects", JArray []);
           ("worktreesByProject", JObject [("p1", JArray [])]);
           ("sessionsByWorktree", JObject [("w1", no_sessions)]);
           ("preferences", JObject [("theme", JString "dark")]);
           ("uiState", JNull)].

(** An answer in which the entry of worktree [w1] has no [sessions]. *)
Definition broken_snapshot : Json :=
  JObject [("projects", JArray []);
           ("sessionsByWorktree",
            JObject [("w1", JObject []); ("w2", no_sessions)]);
           ("preferences", JObject [("theme", JString "dark")])].

End App.

(** * Keybindings of the preferences (types/keybindings.ts and the
      preferences service) *)

Module Preferences.

(** A [KeybindingsMap]: a record from action names to shortcut strings. *)
Definition DEFAULT_KEYBINDINGS : gmap string string :=
  list_to_map
    [("focus_chat_input", "mod+l");
     ("toggle_left_sidebar", "mod+b");
     ("open_preferences", "mod+comma");
     ("open_commit_modal", "mod+shift+c");
     ("open_pull_request", "mod+shift+p");
     ("open_git_diff", "mod+g");
     ("execute_run", "mod+r");
     ("open_in_modal", "mod+o");
     ("open_magic_modal", "mod+m");
     ("new_session", "mod+t");
     ("next_session", "mod+alt+arrowright");
     ("previous_session", "mod+alt+arrowleft");
     ("close_session_or_worktree", "mod+w");
     ("new_worktree", "mod+n");
     ("next_worktree", "mod+alt+arrowdown");
     ("previous_worktree", "mod+alt+arrowup");
     ("cycle_execution_mode", "shift+tab");
     ("approve_plan", "mod+enter");
     ("restore_last_archived", "mod+shift+t")].

(** The old defaults that have been changed, as [Object.entries] lists
    them. *)
Definition MIGRATED_KEYBINDINGS : list (string * string) :=
  [("toggle_left_sidebar", "mod+1")].

(** The body of the loop of [migrateKeybindings] for one entry of the
    table. *)
Definition migrate_entry (stored migrated : gmap string string)
    (entry : string * string) : gmap string string :=
  let '(action, oldDefault) := entry in
  if decide (stored !! action = Some oldDefault) then
    match DEFAULT_KEYBINDINGS !! action with
    | Some newDefault =>
        if truthy (Some newDefault) then <[action := newDefault]> migrated
        else migrated
    | None => migrated
    end
  else migrated.

(** [migrateKeybindings(stored)]; [None] is [undefined]. *)
Definition migrateKeybindings (stored : option (gmap string string))
  : gmap string string :=
  match stored with
  | None => DEFAULT_KEYBINDINGS
  | Some stored => foldl (migrate_entry stored) stored MIGRATED_KEYBINDINGS
  end.

(** The keybindings of the preferences that [usePreferences] returns when
    the backend has answered:
    [{ ...DEFAULT_KEYBINDINGS, ...migrateKeybindings(preferences.keybindings) }]. *)
Definition loaded_keybindings (stored : option (gmap string string))
  : gmap string string :=
  migrateKeybindings stored ∪ DEFAULT_KEYBINDINGS.

End Preferences.

(** * File source URLs (transport.ts, [convertFileSrc]) *)

Module FileSrc.

Import Stdlib.Strings.Ascii.

(** A JavaScript string is taken as the bytes of its UTF-8 text, which is
    what [encodeURIComponent] works on for a well-formed string. *)

(** The characters [encodeURIComponent] leaves as they are: letters,
    digits and [- _ . ! ~ * ' ( )]. *)
Definition unreserved (c : ascii) : bool :=
  let n := N_of_ascii c in
  ((65 <=? n) && (n <=? 90))%N || ((97 <=? n) && (n <=? 122))%N
  || ((48 <=? n) && (n <=? 57))%N
  || bool_decide (c ∈ ["-"; "_"; "."; "!"; "~"; "*"; "'"; "("; ")"]%char).

Definition hex_digit (n : N) : ascii :=
  if (n <? 10)%N then ascii_of_N (48 + n) else ascii_of_N (55 + n).

(** One byte that is escaped: [%] and two upper-case hexadecimal digits. *)
Definition escape (c : ascii) : string :=
  String.String "%"
    (String.String (hex_digit (N_of_ascii c / 16))
       (String.String (hex_digit (N_of_ascii c mod 16)) "")).

Fixpoint encodeURIComponent (s : string) : string :=
  match s with
  | String.EmptyString => ""
  | String.String c rest =>
      (if unreserved c then String.String c "" else escape c)
      +:+ encodeURIComponent rest
  end.

(** [convertFileSrc(filePath, protocol = 'asset')]; [windows] is
    [navigator.userAgent.includes('Windows')], and a [protocol] that is
    [None] has been left out by the caller. *)
Definition convertFileSrc (native windows : bool) (filePath : string)
    (protocol : option string) : string :=
  let protocol := default "asset" protocol in
  if negb native then filePath
  else
    let path := encodeURIComponent filePath in
    if windows then "https://" +:+ protocol +:+ ".localhost/" +:+ path
    else protocol +:+ "://localhost/" +:+ path.

End FileSrc.

(** * The transport: proofs *)

Module WsTransportFacts.

Import WsTransport.

Section Handlers.

Variable handler_throws : Handler → option JsonValue → bool.

#[local] Abbreviation call_handler :=
  (WsTransport.call_handler handler_throws).
#[local] Abbreviation handleMessage :=
  (WsTransport.handleMessage handler_throws).
#[local] Abbreviation onmessage := (WsTransport.onmessage handler_throws).
#[local] Abbreviation step := (WsTransport.step handler_throws).
#[local] Abbreviation run := (WsTransport.run handler_throws).

(** ** The correlation invariant *)

Lemma WF_init : WF ∅ ∅ 1%positive 0%nat [] 0.
Proof.
  split; try (intros; simplify_map_eq; fail).
  - intros p Hp. by apply elem_of_nil in Hp.
  - constructor.
Qed.

Lemma WF_setTimeout_reconnect pend tms nt np st clock delay :
  WF pend tms nt np st clock → 0 ≤ delay →
  WF pend (<[nt := mkTimer (clock + delay) ReconnectFire]> tms)
     (Pos.succ nt) np st clock.
Proof.
  intros [Hfresh Hdl Hpt Htp Hinj Hsf Hnd] Hdelay.
  assert (Hnt : tms !! nt = None).
  { destruct (tms !! nt) eqn:E; [|done]. apply Hfresh in E. lia. }
  split; try done.
  - intros t tm. rewrite lookup_insert. case_decide; [intros; lia|].
    intros Ht. apply Hfresh in Ht. lia.
  - intros t tm. rewrite lookup_insert. case_decide.
    + intros [= <-]. simpl. lia.
    + apply Hdl.
  - intros id pr Hpr. destruct (Hpt _ _ Hpr) as (cmd & D & Ht).
    exists cmd, D. rewrite lookup_insert_ne; [done|]. congruence.
  - intros t D id cmd p. rewrite lookup_insert. case_decide; [done|]. apply Htp.
  - intros t1 t2 D1 D2 id1 id2 c1 c2 p. rewrite !lookup_insert.
    repeat case_decide; try done. apply Hinj.
Qed.

Lemma WF_invoke pend tms nt np st clock id cmd :
  WF pend tms nt np st clock →
  WF (<[id := mkPending np nt]> pend)
     (<[nt := mkTimer (clock + 60000) (RequestTimeout id cmd np)]> tms)
     (Pos.succ nt) (S np) st clock.
Proof.
  intros [Hfresh Hdl Hpt Htp Hinj Hsf Hnd].
  assert (Hnt : tms !! nt = None).
  { destruct (tms !! nt) eqn:E; [|done]. apply Hfresh in E. lia. }
  split; try done.
  - intros t tm. rewrite lookup_insert. case_decide; [intros; lia|].
    intros Ht. apply Hfresh in Ht. lia.
  - intros t tm. rewrite lookup_insert. case_decide.
    + intros [= <-]. simpl. lia.
    + apply Hdl.
  - intros id' pr. rewrite lookup_insert. case_decide as Hid.
    + intros [= <-]. subst id'. simpl. exists cmd, (clock + 60000).
      by rewrite lookup_insert_eq.
    + intros Hpr. destruct (Hpt _ _ Hpr) as (cmd' & D & Ht).
      exists cmd', D. rewrite lookup_insert_ne; [done|]. congruence.
  - intros t D id' cmd' p. rewrite lookup_insert. case_decide.
    + intros [= <- <- <- <-]. split; [lia|]. intros Hin. apply Hsf in Hin. lia.
    + intros Ht. destruct (Htp _ _ _ _ _ Ht). split; [lia|done].
  - intros t1 t2 D1 D2 id1 id2 c1 c2 p. rewrite !lookup_insert.
    repeat case_decide; try congruence.
    + intros [= <- <- <- <-] Ht. apply Htp in Ht. lia.
    + intros Ht [= <- <- <- <-]. apply Htp in Ht. lia.
    + apply Hinj.
  - intros p Hp. apply Hsf in Hp. lia.
Qed.

(** Settling promise [p] while retiring its expiry timer [t] and dropping
    the entry of [id]: what a matching message and a firing expiry timer
    both do. *)
Lemma WF_settle pend tms nt np st clock t D id cmd p o :
  WF pend tms nt np st clock →
  tms !! t = Some (mkTimer D (RequestTimeout id cmd p)) →
  WF (delete id pend) (delete t tms) nt np (st ++ [(p, o)]) clock.
Proof.
  intros [Hfresh Hdl Hpt Htp Hinj Hsf Hnd] Ht.
  destruct (Htp _ _ _ _ _ Ht) as [Hp Hnew].
  split.
  - intros t' tm [_ H]%lookup_delete_Some. eauto.
  - intros t' tm [_ H]%lookup_delete_Some. eauto.
  - intros id' pr [Hid Hpr]%lookup_delete_Some.
    destruct (Hpt _ _ Hpr) as (cmd' & D' & Ht').
    exists cmd', D'. rewrite lookup_delete_ne; [done|].
    intros Heq. rewrite <- Heq, Ht in Ht'. congruence.
  - intros t' D' id' cmd' p' [Hne H]%lookup_delete_Some.
    destruct (Htp _ _ _ _ _ H) as [Hlt Hnotin]. split; [done|].
    rewrite fmap_app. intros [Hin | Hin%list_elem_of_singleton]%elem_of_app;
      [done|]. simpl in Hin. subst p'.
    by specialize (Hinj _ _ _ _ _ _ _ _ _ Ht H).
  - intros t1 t2 D1 D2 id1 id2 c1 c2 p' [_ H1]%lookup_delete_Some
      [_ H2]%lookup_delete_Some. eauto.
  - intros p'. rewrite fmap_app.
    intros [Hin | Hin%list_elem_of_singleton]%elem_of_app; [eauto|].
    simpl in Hin. by subst.
  - rewrite fmap_app. apply NoDup_app. split; [done|]. split.
    + intros p' Hin Hin'%list_elem_of_singleton. simpl in Hin'. by subst.
    + apply NoDup_singleton.
Qed.

Lemma WF_retire_reconnect pend tms nt np st clock t D :
  WF pend tms nt np st clock →
  tms !! t = Some (mkTimer D ReconnectFire) →
  WF pend (delete t tms) nt np st clock.
Proof.
  intros [Hfresh Hdl Hpt Htp Hinj Hsf Hnd] Ht.
  split; try done.
  - intros t' tm [_ H]%lookup_delete_Some. eauto.
  - intros t' tm [_ H]%lookup_delete_Some. eauto.
  - intros id pr Hpr. destruct (Hpt _ _ Hpr) as (cmd & D' & Ht').
    exists cmd, D'. rewrite lookup_delete_ne; [done|].
    intros Heq. rewrite <- Heq, Ht in Ht'. congruence.
  - intros t' D' id' cmd' p' [_ H]%lookup_delete_Some. eauto.
  - intros t1 t2 D1 D2 id1 id2 c1 c2 p' [_ H1]%lookup_delete_Some
      [_ H2]%lookup_delete_Some. eauto.
Qed.

Lemma WF_tick pend tms nt np st clock dt :
  WF pend tms nt np st clock →
  map_Forall (λ _ tm, clock + dt ≤ deadline tm) tms →
  WF pend tms nt np st (clock + dt).
Proof.
  intros [Hfresh Hdl Hpt Htp Hinj Hsf Hnd] Hall.
  split; try done.
Qed.

(** Methods that leave the correlation fields alone. *)
Lemma wf_frame s s' : core s' = core s → wf s → wf s'.
Proof. unfold wf, core. intros [= -> -> -> -> -> ->]. done. Qed.

Lemma notifySubscribers_core s : core (notifySubscribers s) = core s.
Proof. done. Qed.

Lemma setConnected_core v s : core (setConnected v s) = core s.
Proof. done. Qed.

Lemma setAuthError_core e s : core (setAuthError e s) = core s.
Proof. done. Qed.

Lemma connect_core s : core (connect s) = core s.
Proof. unfold connect. repeat case_match; done. Qed.

Lemma connectWs_core token s : core (connectWs token s) = core s.
Proof. done. Qed.

Lemma listen_core event h s : core (listen event h s) = core s.
Proof.
  unfold listen. rewrite connect_core. repeat case_match; done.
Qed.

Lemma unlisten_core event h s : core (unlisten event h s) = core s.
Proof. unfold unlisten. repeat case_match; done. Qed.

Lemma set_readyState_core r s : core (set_readyState r s) = core s.
Proof. unfold set_readyState. case_match; done. Qed.

Lemma ws_send_core d s s' : ws_send d s = Some s' → core s' = core s.
Proof.
  unfold ws_send. repeat case_match; intros [= <-]; done.
Qed.

Lemma flush_core items s : core (flush items s).1 = core s.
Proof.
  revert s. induction items as [|item rest IH]; intros s; simpl; [done|].
  destruct (ws_send (data item) s) as [s'|] eqn:E; [|done].
  rewrite IH. by eapply ws_send_core.
Qed.

Lemma onopen_core s : core (onopen s) = core s.
Proof.
  unfold onopen.
  destruct (flush _ _) as [s' completed] eqn:E.
  assert (Hc : core s' = core (set_reconnectAttempt 0%nat (setConnected true s))).
  { change s' with (s', completed).1. rewrite <- E. apply flush_core. }
  destruct completed; rewrite <- (setConnected_core true s); done.
Qed.

Lemma call_handler_core event payload s h :
  core (call_handler event payload s h) = core s.
Proof. unfold call_handler. case_match; done. Qed.

Lemma fan_out_core event payload hs s :
  core (foldl (call_handler event payload) s hs) = core s.
Proof.
  revert s. induction hs as [|h hs IH]; intros s; simpl; [done|].
  by rewrite IH, call_handler_core.
Qed.

Lemma backoff_delay_nonneg attempt : 0 ≤ backoff_delay attempt.
Proof.
  unfold backoff_delay. apply Z.min_glb; [|lia].
  assert (0 < 2 ^ Z.of_nat attempt) by (apply Z.pow_pos_nonneg; lia). lia.
Qed.

Lemma wf_scheduleReconnect s : wf s → wf (scheduleReconnect s).
Proof.
  unfold scheduleReconnect. intros Hwf.
  destruct (reconnectTimer s); [done|]. destruct (truthy _); [done|].
  apply WF_setTimeout_reconnect; [done|apply backoff_delay_nonneg].
Qed.

Lemma wf_invoke id command args s : wf s → wf (invoke id command args s).2.
Proof.
  intros Hwf. unfold invoke. cbn [setTimeout].
  match goal with |- context [if ?b then _ else _] => destruct b eqn:Hopen end;
    cbn [snd].
  - match goal with |- context [ws_send ?d ?x] =>
      destruct (ws_send d x) as [s'|] eqn:E end; cbn [from_option Datatypes.id].
    + eapply wf_frame; [by eapply ws_send_core|]. by apply WF_invoke.
    + by apply WF_invoke.
  - eapply wf_frame; [apply connect_core|]. by apply WF_invoke.
Qed.

Lemma wf_handleMessage msg s : wf s → wf (handleMessage msg s).
Proof.
  intros Hwf. unfold handleMessage.
  repeat case_match; try done;
    try (eapply wf_frame; [apply fan_out_core|done]);
    destruct (wf_pending_timer _ _ _ _ _ _ Hwf _ _ ltac:(eassumption))
      as (cmd & D & Ht);
    (eapply WF_settle; [exact Hwf|exact Ht]).
Qed.

Lemma wf_run_callback t tm s :
  wf s → timers s !! t = Some tm →
  wf (run_callback (callback tm) (clearTimeout t s)).
Proof.
  intros Hwf Ht. destruct tm as [D [id command p|]]; cbn [run_callback callback].
  - eapply WF_settle; [exact Hwf|exact Ht].
  - eapply wf_frame; [apply connect_core|].
    eapply WF_retire_reconnect; [exact Hwf|exact Ht].
Qed.

Lemma wf_init urlToken stored : wf (init urlToken stored).
Proof. apply WF_init. Qed.

Lemma wf_step s ev : wf s → wf (step s ev).
Proof.
  intros Hwf. destruct ev; cbn [WsTransport.step].
  - by apply wf_invoke.
  - eapply wf_frame; [apply listen_core|done].
  - eapply wf_frame; [apply unlisten_core|done].
  - done.
  - done.
  - eapply wf_frame; [apply connect_core|done].
  - destruct (validating s) as [token|]; [|done].
    destruct r; cbn [validateAndConnect].
    + done.
    + done.
    + apply (wf_scheduleReconnect (setAuthError None (set_validating None s))).
      done.
  - case_match; [|done].
    eapply wf_frame; [apply onopen_core|].
    eapply wf_frame; [apply set_readyState_core|done].
  - destruct parsed; [by apply wf_handleMessage|done].
  - case_match; [|done]. eapply wf_frame; [apply set_readyState_core|done].
  - destruct (ws s) as [w|] eqn:E; [|done]. case_decide; [done|].
    apply wf_scheduleReconnect.
    eapply wf_frame; [apply setConnected_core|].
    eapply wf_frame; [apply set_readyState_core|done].
  - by apply wf_scheduleReconnect.
  - done.
  - destruct (timers s !! t) as [tm|] eqn:E; [|done].
    case_bool_decide; [|done]. by apply wf_run_callback.
  - repeat case_bool_decide; cbn [andb]; try done. by apply WF_tick.
Qed.

Lemma wf_run s evs : wf s → wf (run s evs).
Proof.
  revert s. induction evs as [|ev evs IH]; intros s Hwf; simpl; [done|].
  apply IH. by apply wf_step.
Qed.

(** ** Request/response correlation *)

Lemma truthy_Some id : id ≠ "" → truthy (Some id) = true.
Proof. intros H. simpl. by apply negb_true_iff, String.eqb_neq. Qed.

Lemma handleMessage_reply msg id pr s :
  is_reply msg → msg_id msg = Some id → id ≠ "" →
  pending s !! id = Some pr →
  handleMessage msg s
  = settle (promise pr) (message_outcome msg)
      (set_pending (delete id (pending s)) (clearTimeout (timeout pr) s)).
Proof.
  intros Hty Hid Hne Hpr. unfold WsTransport.handleMessage, message_outcome.
  rewrite Hid, (truthy_Some _ Hne).
  change (default "" (Some id)) with id.
  destruct Hty as [-> | ->]; cbn [String.eqb Ascii.eqb Bool.eqb andb];
    by rewrite Hpr.
Qed.

Lemma handleMessage_unknown msg id s :
  is_reply msg → msg_id msg = Some id → pending s !! id = None →
  handleMessage msg s = s.
Proof.
  intros Hty Hid Hpr. unfold handleMessage. rewrite Hid.
  change (default "" (Some id)) with id. rewrite Hpr.
  destruct Hty as [-> | ->]; cbn [String.eqb Ascii.eqb Bool.eqb andb];
    by destruct (truthy (Some id)).
Qed.

Lemma core_pending s s' : core s' = core s → pending s' = pending s.
Proof. unfold core. by intros [= -> _ _ _ _ _]. Qed.

Lemma core_settled s s' : core s' = core s → settled s' = settled s.
Proof. unfold core. by intros [= _ _ _ _ -> _]. Qed.

Lemma core_timers s s' : core s' = core s → timers s' = timers s.
Proof. unfold core. by intros [= _ -> _ _ _ _]. Qed.

Lemma core_now s s' : core s' = core s → now s' = now s.
Proof. unfold core. by intros [= _ _ _ _ _ ->]. Qed.

Lemma scheduleReconnect_pending s :
  pending (scheduleReconnect s) = pending s
  ∧ settled (scheduleReconnect s) = settled s
  ∧ now (scheduleReconnect s) = now s.
Proof.
  unfold scheduleReconnect.
  destruct (reconnectTimer s); [done|]. destruct (truthy _); done.
Qed.

Lemma invoke_pending id command args s :
  pending (invoke id command args s).2
  = <[id := mkPending (next_promise s) (next_timer s)]> (pending s).
Proof.
  unfold invoke. cbn [setTimeout].
  match goal with |- context [if ?b then _ else _] => destruct b end; cbn [snd].
  - match goal with |- context [ws_send ?d ?x] =>
      destruct (ws_send d x) as [s'|] eqn:E end; cbn [from_option Datatypes.id]; [|done].
    by rewrite (core_pending _ _ (ws_send_core _ _ _ E)).
  - by rewrite (core_pending _ _ (connect_core _)).
Qed.

(** Only [invoke] adds to the pending table. *)
Lemma pending_absent_step s ev id :
  pending s !! id = None → (∀ command args, ev ≠ EvInvoke id command args) →
  pending (step s ev) !! id = None.
Proof.
  intros Hnone Hev. destruct ev; cbn [WsTransport.step].
  - rewrite invoke_pending. rewrite lookup_insert_ne; [done|].
    intros ->. by eapply Hev.
  - by rewrite (core_pending _ _ (listen_core _ _ _)).
  - by rewrite (core_pending _ _ (unlisten_core _ _ _)).
  - done.
  - done.
  - by rewrite (core_pending _ _ (connect_core _)).
  - destruct (validating s); [|done].
    destruct r; cbn [validateAndConnect]; try done.
    change (pending (scheduleReconnect
                       (setAuthError None (set_validating None s))) !! id
            = None).
    by rewrite (proj1 (scheduleReconnect_pending _)).
  - case_match; [|done].
    by rewrite (core_pending _ _ (onopen_core _)),
      (core_pending _ _ (set_readyState_core _ _)).
  - destruct parsed as [msg|]; [|done]. unfold WsTransport.onmessage, handleMessage.
    repeat case_match; try done;
      try (by rewrite (core_pending _ _ (fan_out_core _ _ _ _)));
      cbn; by apply lookup_delete_None; right.
  - case_match; [|done]. by rewrite (core_pending _ _ (set_readyState_core _ _)).
  - destruct (ws s); [|done]. case_decide; [done|]. unfold onclose.
    rewrite (proj1 (scheduleReconnect_pending _)).
    by rewrite (core_pending _ _ (setConnected_core _ _)),
      (core_pending _ _ (set_readyState_core _ _)).
  - unfold onclose. by rewrite (proj1 (scheduleReconnect_pending _)).
  - done.
  - destruct (timers s !! t) as [[D cb]|]; [|done]. case_bool_decide; [|done].
    destruct cb; cbn [run_callback callback].
    + cbn. by apply lookup_delete_None; right.
    + by rewrite (core_pending _ _ (connect_core _)).
  - repeat case_bool_decide; done.
Qed.

Lemma pending_absent_run evs s id :
  pending s !! id = None →
  Forall (λ ev, ∀ command args, ev ≠ EvInvoke id command args) evs →
  pending (run s evs) !! id = None.
Proof.
  revert s. induction evs as [|ev evs IH]; intros s Hnone Hevs; [done|].
  apply Forall_cons in Hevs as [Hev Hevs]. cbn [WsTransport.run foldl].
  apply IH; [|done]. by apply pending_absent_step.
Qed.

(** C1.  In every state the transport can reach, every promise returned by
    [invoke] has been the subject of at most one [resolve]/[reject] call.
    For a request [id] that is in the pending table, its promise is not
    settled yet; a response or error message for [id] settles it, removes
    [id] from the table and cancels its timer; its expiry timer, when it
    fires, rejects it and removes [id] from the table.  Once [id] is absent
    from the table, it stays absent until [invoke] registers it again, and
    every response or error message bearing it leaves the state as it is. *)
Theorem invoke_settled_at_most_once urlToken stored evs :
  let s := run (init urlToken stored) evs in
  NoDup (settled_promises s)
  ∧ (∀ id pr, pending s !! id = Some pr →
       (promise pr ∉ settled_promises s)
       ∧ (∀ msg, is_reply msg → msg_id msg = Some id → id ≠ "" →
            let s' := handleMessage msg s in
            pending s' !! id = None
            ∧ timers s' = delete (timeout pr) (timers s)
            ∧ settled s' = settled s ++ [(promise pr, message_outcome msg)])
       ∧ (∃ D command,
            timers s !! timeout pr
            = Some (mkTimer D (RequestTimeout id command (promise pr)))
            ∧ let s' := run_callback (RequestTimeout id command (promise pr))
                          (clearTimeout (timeout pr) s) in
              pending s' !! id = None
              ∧ settled s'
                = settled s
                  ++ [(promise pr, Rejected (timed_out_message command))]))
  ∧ (∀ id evs' msg, pending s !! id = None →
       Forall (λ ev, ∀ command args, ev ≠ EvInvoke id command args) evs' →
       is_reply msg → msg_id msg = Some id →
       handleMessage msg (run s evs') = run s evs').
Proof.
  intros s.
  assert (Hwf : wf s) by apply wf_run, wf_init.
  split; [apply Hwf|]. split.
  - intros id pr Hpr.
    destruct (wf_pending_timer _ _ _ _ _ _ Hwf _ _ Hpr) as (command & D & Ht).
    split; [|split].
    + by destruct (wf_timer_promise _ _ _ _ _ _ Hwf _ _ _ _ _ Ht).
    + intros msg Hty Hid Hne s'. subst s'.
      rewrite (handleMessage_reply _ _ _ _ Hty Hid Hne Hpr). cbn.
      by rewrite lookup_delete_eq.
    + exists D, command. split; [done|]. cbn. by rewrite lookup_delete_eq.
  - intros id evs' msg Hnone Hevs Hty Hid.
    apply (handleMessage_unknown _ id); [done..|].
    by apply pending_absent_run.
Qed.

(** ** The expiry timer of a request *)

Lemma invoke_core id command args s :
  core (invoke id command args s).2
  = (<[id := mkPending (next_promise s) (next_timer s)]> (pending s),
     <[next_timer s
       := mkTimer (now s + 60000)
            (RequestTimeout id command (next_promise s))]> (timers s),
     Pos.succ (next_timer s), S (next_promise s), settled s, now s).
Proof.
  unfold invoke. cbn [setTimeout].
  match goal with |- context [if ?b then _ else _] => destruct b end; cbn [snd].
  - match goal with |- context [ws_send ?d ?x] =>
      destruct (ws_send d x) as [s'|] eqn:E end;
      cbn [from_option Datatypes.id]; [|done].
    by rewrite (ws_send_core _ _ _ E).
  - by rewrite connect_core.
Qed.

Lemma scheduleReconnect_core s :
  core (scheduleReconnect s) = core s
  ∨ core (scheduleReconnect s)
    = (pending s,
       <[next_timer s
         := mkTimer (now s + backoff_delay (reconnectAttempt s))
              ReconnectFire]> (timers s),
       Pos.succ (next_timer s), next_promise s, settled s, now s).
Proof.
  unfold scheduleReconnect.
  destruct (reconnectTimer s); [by left|].
  destruct (truthy _); [by left|by right].
Qed.

(** A live timer survives [scheduleReconnect]. *)
Lemma scheduleReconnect_timer_kept s t tm :
  wf s → timers s !! t = Some tm →
  timers (scheduleReconnect s) !! t = Some tm
  ∧ settled (scheduleReconnect s) = settled s.
Proof.
  intros Hwf Ht.
  destruct (scheduleReconnect_core s) as [Hc | Hc].
  - by rewrite (core_timers _ _ Hc), (core_settled _ _ Hc).
  - unfold core in Hc. injection Hc as _ -> _ _ -> _. split; [|done].
    rewrite lookup_insert_ne; [done|].
    intros <-. apply (wf_timer_fresh _ _ _ _ _ _ Hwf) in Ht. lia.
Qed.

(** What one turn of the event loop can do to a request whose expiry timer
    is live: leave the timer live, or settle the promise, either with the
    timed-out rejection or by a response or error message for its id. *)
Lemma armed_step s ev t D id command p :
  wf s → timers s !! t = Some (mkTimer D (RequestTimeout id command p)) →
  timers (step s ev) !! t = Some (mkTimer D (RequestTimeout id command p))
  ∨ (p, Rejected (timed_out_message command)) ∈ settled (step s ev)
  ∨ (∃ msg, ev = EvMessage (Some msg) ∧ is_reply msg ∧ msg_id msg = Some id
            ∧ (p, message_outcome msg) ∈ settled (step s ev)).
Proof.
  intros Hwf Ht.
  assert (Hframe : ∀ s', core s' = core s →
            timers s' !! t = Some (mkTimer D (RequestTimeout id command p))).
  { intros s' Hc. by rewrite (core_timers _ _ Hc). }
  destruct ev; cbn [WsTransport.step]; try (left; done).
  - left. pose proof (invoke_core id0 command0 args s) as Hc.
    unfold core in Hc. injection Hc as _ -> _ _ _ _.
    rewrite lookup_insert_ne; [done|].
    intros <-. apply (wf_timer_fresh _ _ _ _ _ _ Hwf) in Ht. lia.
  - left. apply Hframe, listen_core.
  - left. apply Hframe, unlisten_core.
  - left. apply Hframe, connect_core.
  - left. destruct (validating s); [|done].
    destruct r; cbn [validateAndConnect]; try done.
    by apply (scheduleReconnect_timer_kept
                (setAuthError None (set_validating None s))).
  - left. case_match; [|done]. apply Hframe.
    by rewrite onopen_core, set_readyState_core.
  - destruct parsed as [msg|]; [|by left]. cbn [WsTransport.onmessage].
    destruct (decide (is_reply msg ∧ truthy (msg_id msg) = true)) as [[Hty Hid]|Hno].
    + destruct (msg_id msg) as [id'|] eqn:Eid; [|done].
      assert (Hne : id' ≠ "").
      { intros ->. done. }
      destruct (pending s !! id') as [pr|] eqn:Epr.
      * rewrite (handleMessage_reply _ _ _ _ Hty Eid Hne Epr).
        destruct (wf_pending_timer _ _ _ _ _ _ Hwf _ _ Epr) as (c' & D' & Ht').
        destruct (decide (timeout pr = t)) as [Heq|Hneq].
        -- rewrite Heq, Ht in Ht'. injection Ht' as <- <- <- <-.
           right; right. exists msg. split_and!; try done.
           cbn. apply elem_of_app. right. by apply list_elem_of_singleton.
        -- left. cbn. by rewrite lookup_delete_ne.
      * left. by rewrite (handleMessage_unknown _ _ _ Hty Eid Epr).
    + left. unfold WsTransport.handleMessage, is_reply in *.
      repeat case_match; try done;
        try (by apply Hframe, fan_out_core);
        exfalso; apply Hno;
        repeat match goal with
        | H : _ && _ = true |- _ => apply andb_true_iff in H as [? ?]
        | H : String.eqb _ _ = true |- _ => apply String.eqb_eq in H
        end; auto.
  - left. case_match; [|done]. apply Hframe, set_readyState_core.
  - left. destruct (ws s); [|done]. case_decide; [done|]. unfold onclose.
    apply scheduleReconnect_timer_kept.
    + eapply wf_frame; [|exact Hwf].
      by rewrite setConnected_core, set_readyState_core.
    + apply Hframe. by rewrite setConnected_core, set_readyState_core.
  - left. unfold onclose. by apply scheduleReconnect_timer_kept.
  - destruct (timers s !! t0) as [[D0 cb]|] eqn:E0; [|by left].
    case_bool_decide; [|by left]. cbn [callback].
    destruct (decide (t0 = t)) as [->|Hneq].
    + rewrite Ht in E0. injection E0 as <- <-.
      right; left. cbn. apply elem_of_app. right.
      by apply list_elem_of_singleton.
    + left. destruct cb; cbn [run_callback].
      * cbn. by rewrite lookup_delete_ne.
      * rewrite (core_timers _ _ (connect_core _)). cbn.
        by rewrite lookup_delete_ne.
  - left. repeat case_bool_decide; done.
Qed.

(** The settlement log only grows. *)
Lemma settled_prefix_step s ev : settled s `prefix_of` settled (step s ev).
Proof.
  assert (Hframe : ∀ s', core s' = core s → settled s `prefix_of` settled s').
  { intros s' Hc. by rewrite (core_settled _ _ Hc). }
  destruct ev; cbn [WsTransport.step]; try done.
  - pose proof (invoke_core id command args s) as Hc.
    unfold core in Hc. by injection Hc as _ _ _ _ -> _.
  - apply Hframe, listen_core.
  - apply Hframe, unlisten_core.
  - apply Hframe, connect_core.
  - destruct (validating s); [|done].
    destruct r; cbn [validateAndConnect]; try done.
    change (settled s `prefix_of`
              settled (scheduleReconnect
                         (setAuthError None (set_validating None s)))).
    by rewrite (proj1 (proj2 (scheduleReconnect_pending _))).
  - case_match; [|done]. apply Hframe.
    by rewrite onopen_core, set_readyState_core.
  - destruct parsed as [msg|]; [|done]. unfold WsTransport.onmessage, handleMessage.
    repeat case_match; try done;
      try (by apply Hframe, fan_out_core); cbn; by apply prefix_app_r.
  - case_match; [|done]. apply Hframe, set_readyState_core.
  - destruct (ws s); [|done]. case_decide; [done|]. unfold onclose.
    rewrite (proj1 (proj2 (scheduleReconnect_pending _))).
    apply Hframe. by rewrite setConnected_core, set_readyState_core.
  - unfold onclose.
    by rewrite (proj1 (proj2 (scheduleReconnect_pending _))).
  - destruct (timers s !! t) as [[D cb]|]; [|done]. case_bool_decide; [|done].
    destruct cb; cbn [run_callback callback].
    + cbn. by apply prefix_app_r.
    + by rewrite (core_settled _ _ (connect_core _)).
  - repeat case_bool_decide; done.
Qed.

Lemma settled_prefix_run evs s : settled s `prefix_of` settled (run s evs).
Proof.
  revert s. induction evs as [|ev evs IH]; intros s; [done|].
  cbn [WsTransport.run foldl]. etrans; [apply settled_prefix_step|apply IH].
Qed.

Lemma settled_kept_run evs s x : x ∈ settled s → x ∈ settled (run s evs).
Proof.
  intros Hx. destruct (settled_prefix_run evs s) as [k ->].
  apply elem_of_app. by left.
Qed.

#[global] Instance replies_to_dec id ev : Decision (replies_to id ev).
Proof.
  destruct ev as [| | | | | | | |[msg|]| | | | | |]; unfold replies_to, is_reply;
    apply _.
Defined.

Lemma armed_run evs s t D id command p :
  wf s → timers s !! t = Some (mkTimer D (RequestTimeout id command p)) →
  timers (run s evs) !! t = Some (mkTimer D (RequestTimeout id command p))
  ∨ (p, Rejected (timed_out_message command)) ∈ settled (run s evs)
  ∨ (Exists (replies_to id) evs ∧ p ∈ settled_promises (run s evs)).
Proof.
  revert s. induction evs as [|ev evs IH]; intros s Hwf Ht; [by left|].
  cbn [WsTransport.run foldl].
  destruct (armed_step s ev t D id command p Hwf Ht)
    as [Harmed | [Hout | (msg & -> & Hty & Hid & Hin)]].
  - destruct (IH (step s ev) (wf_step _ _ Hwf) Harmed)
      as [H | [H | [H1 H2]]]; [by left|by right; left|].
    right; right. split; [by apply Exists_cons_tl|done].
  - right; left. by apply settled_kept_run.
  - right; right. split.
    + by apply Exists_cons_hd.
    + apply (list_elem_of_fmap_2 fst _ (p, message_outcome msg)).
      by apply settled_kept_run.
Qed.

(** C2.  Whatever state the transport has reached, connected or not,
    [invoke] starts a timer that is due 60000 ms after the call and that
    rejects the promise of this call with the timed-out error.  From then
    on, whatever happens, the promise is settled once the clock has passed
    that instant; and it is then rejected with the timed-out error when no
    response or error message for its id has arrived since the call. *)
Theorem invoke_settles_within_timeout urlToken stored evs id command args evs' :
  let s0 := run (init urlToken stored) evs in
  let p := (invoke id command args s0).1 in
  let s1 := step s0 (EvInvoke id command args) in
  let s2 := run s1 evs' in
  timers s1 !! next_timer s0
  = Some (mkTimer (now s0 + 60000) (RequestTimeout id command p))
  ∧ (now s0 + 60000 < now s2 → p ∈ settled_promises s2)
  ∧ (now s0 + 60000 < now s2 → ¬ Exists (replies_to id) evs' →
     (p, Rejected (timed_out_message command)) ∈ settled s2).
Proof.
  intros s0 p s1 s2.
  assert (Hwf0 : wf s0) by apply wf_run, wf_init.
  assert (Hwf1 : wf s1) by by apply wf_step.
  assert (Hwf2 : wf s2) by by apply wf_run.
  assert (Hp : p = next_promise s0).
  { subst p. unfold invoke. cbn [setTimeout]. by case_match. }
  assert (Ht : timers s1 !! next_timer s0
               = Some (mkTimer (now s0 + 60000) (RequestTimeout id command p))).
  { subst s1. cbn [WsTransport.step]. pose proof (invoke_core id command args s0) as Hc.
    unfold core in Hc. injection Hc as _ -> _ _ _ _.
    by rewrite lookup_insert_eq, Hp. }
  split; [done|].
  pose proof (armed_run evs' s1 _ _ _ _ _ Hwf1 Ht) as Hrun. fold s2 in Hrun.
  split.
  - intros Hlate. destruct Hrun as [Harmed | [Hout | [_ Hin]]]; [|  |done].
    + apply (wf_deadline _ _ _ _ _ _ Hwf2) in Harmed. simpl in Harmed. lia.
    + by apply (list_elem_of_fmap_2 fst _ (p, Rejected (timed_out_message command))).
  - intros Hlate Hnone. destruct Hrun as [Harmed | [Hout | [Hex _]]]; [|done..].
    apply (wf_deadline _ _ _ _ _ _ Hwf2) in Harmed. simpl in Harmed. lia.
Qed.

(** ** The send queue *)

Lemma set_ws_id s w : ws s = Some w → set_ws (Some w) s = s.
Proof. intros <-. done. Qed.

Lemma flush_open items s w :
  ws s = Some w → readyState w = OPEN →
  flush items s
  = (set_ws (Some (mkWebSocket (ws_token w) OPEN (sent w ++ (data <$> items)))) s,
     true).
Proof.
  revert s w. induction items as [|item rest IH]; intros s w Hws Hopen.
  - cbn. rewrite app_nil_r. destruct w as [tok r out]. simpl in *. subst r.
    by rewrite (set_ws_id _ _ Hws).
  - cbn [flush]. unfold ws_send. rewrite Hws, Hopen.
    erewrite IH; [|done..]. cbn. by rewrite <- app_assoc.
Qed.

Lemma ws_readyState_is_Some r s w :
  ws s = Some w → ws_readyState_is r s = bool_decide (readyState w = r).
Proof. unfold ws_readyState_is. by intros ->. Qed.

Lemma set_readyState_Some r s w :
  ws s = Some w →
  set_readyState r s = set_ws (Some (mkWebSocket (ws_token w) r (sent w))) s.
Proof. unfold set_readyState. by intros ->. Qed.

Lemma onopen_open s w :
  ws s = Some w → readyState w = OPEN →
  onopen s
  = set_queue []
      (set_ws (Some (mkWebSocket (ws_token w) OPEN
                       (sent w ++ (data <$> queue s))))
         (set_reconnectAttempt 0%nat (setConnected true s))).
Proof.
  intros Hws Hopen. unfold onopen. by erewrite flush_open.
Qed.

Lemma connect_queue s : queue (connect s) = queue s.
Proof. unfold connect. repeat case_match; done. Qed.

(** C3.  The [open] event of the socket in [this.ws] writes the queued
    sends to that socket, each once and in queue order, after whatever the
    socket had sent before; it leaves the queue empty, the reconnect
    attempt counter at zero and the transport connected.  The queue is in
    arrival order because [invoke], when the socket is not open, appends
    its frame at the end. *)
Theorem open_flushes_queue_in_order s w :
  ws s = Some w → readyState w = CONNECTING →
  let s' := step s EvOpen in
  ws s' = Some (mkWebSocket (ws_token w) OPEN (sent w ++ (data <$> queue s)))
  ∧ queue s' = []
  ∧ reconnectAttempt s' = 0%nat
  ∧ _connected s' = true
  ∧ (∀ s0 id command args, ws_readyState_is OPEN s0 = false →
       queue (invoke id command args s0).2
       = queue s0 ++ [mkQueued (mkFrame id command args)]).
Proof.
  intros Hws Hconn s'. subst s'. cbn [WsTransport.step].
  rewrite (ws_readyState_is_Some _ _ _ Hws), bool_decide_eq_true_2 by done.
  rewrite (set_readyState_Some _ _ _ Hws).
  erewrite onopen_open; [|done..].
  split_and!; try done.
  intros s0 id command args Hclosed. unfold invoke. cbn [setTimeout].
  match goal with |- context [if ?b then _ else _] =>
    change b with (ws_readyState_is OPEN s0) end.
  rewrite Hclosed. cbn [snd]. by rewrite connect_queue.
Qed.

(** ** Token validation and reconnection *)

Lemma auth_frame s s' : auth s' = auth s → auth_failed s → auth_failed s'.
Proof. unfold auth_failed, auth. by intros [= -> -> -> ->]. Qed.

Lemma auth_failed_connect s :
  auth_failed s → auth_failed (connect s).
Proof.
  intros (Herr & Hloc & Hsto & Hval). unfold connect.
  destruct (_ || _); [done|]. rewrite Hloc, Hsto. cbn.
  by split_and!.
Qed.

Lemma scheduleReconnect_auth_error s :
  truthy (_authError s) = true → scheduleReconnect s = s.
Proof.
  intros H. unfold scheduleReconnect. rewrite H. by destruct (reconnectTimer s).
Qed.

Lemma ws_send_auth d s s' : ws_send d s = Some s' → auth s' = auth s.
Proof. unfold ws_send. repeat case_match; intros [= <-]; done. Qed.

Lemma flush_auth items s : auth (flush items s).1 = auth s.
Proof.
  revert s. induction items as [|item rest IH]; intros s; simpl; [done|].
  destruct (ws_send (data item) s) as [s'|] eqn:E; [|done].
  rewrite IH. by eapply ws_send_auth.
Qed.

Lemma onopen_auth s : auth (onopen s) = auth s.
Proof.
  unfold onopen.
  destruct (flush _ _) as [s' completed] eqn:E.
  assert (Hc : auth s' = auth (set_reconnectAttempt 0%nat (setConnected true s))).
  { change s' with (s', completed).1. rewrite <- E. apply flush_auth. }
  by destruct completed.
Qed.

Lemma fan_out_auth event payload hs s :
  auth (foldl (call_handler event payload) s hs) = auth s.
Proof.
  revert s. induction hs as [|h hs IH]; intros s; simpl; [done|].
  rewrite IH. unfold call_handler. by case_match.
Qed.

Lemma handleMessage_auth msg s : auth (handleMessage msg s) = auth s.
Proof.
  unfold handleMessage. repeat case_match; try done. apply fan_out_auth.
Qed.

Lemma set_readyState_auth r s : auth (set_readyState r s) = auth s.
Proof. unfold set_readyState. by case_match. Qed.

Lemma scheduleReconnect_auth s : auth (scheduleReconnect s) = auth s.
Proof.
  unfold scheduleReconnect.
  destruct (reconnectTimer s); [done|]. by destruct (truthy _).
Qed.

(** A property of the [auth] fields that [connect] and the resumed
    [validateAndConnect] preserve is preserved by every turn: nothing else
    writes these fields. *)
Lemma auth_step (P : State → Prop) :
  (∀ s s', auth s' = auth s → P s → P s') →
  (∀ s, P s → P (connect s)) →
  (∀ s token r, P s → validating s = Some token →
     P (validateAndConnect token r (set_validating None s))) →
  ∀ s ev, P s → P (step s ev).
Proof.
  intros Hframe Hconnect Hresume s ev HP.
  destruct ev; cbn [WsTransport.step]; try done.
  - unfold invoke. cbn [setTimeout].
    match goal with |- context [if ?b then _ else _] => destruct b end;
      cbn [snd].
    + match goal with |- context [ws_send ?d ?x] =>
        destruct (ws_send d x) as [s'|] eqn:E end;
        cbn [from_option Datatypes.id].
      * eapply Hframe; [by eapply ws_send_auth|]. by eapply Hframe; [|exact HP].
      * by eapply Hframe; [|exact HP].
    + apply Hconnect. by eapply Hframe; [|exact HP].
  - unfold listen. apply Hconnect. eapply Hframe; [|exact HP].
    repeat case_match; done.
  - eapply Hframe; [|exact HP]. unfold unlisten. repeat case_match; done.
  - by eapply Hframe; [|exact HP].
  - by eapply Hframe; [|exact HP].
  - by apply Hconnect.
  - destruct (validating s) as [token|] eqn:E; [|done].
    eapply (Hframe (validateAndConnect token r (set_validating None s)));
      [done|]. by apply Hresume.
  - case_match; [|done]. eapply Hframe; [|exact HP].
    by rewrite onopen_auth, set_readyState_auth.
  - destruct parsed; [|done]. eapply Hframe; [|exact HP].
    apply handleMessage_auth.
  - case_match; [|done]. eapply Hframe; [|exact HP]. apply set_readyState_auth.
  - destruct (ws s); [|done]. case_decide; [done|]. unfold onclose.
    eapply Hframe; [|exact HP].
    rewrite scheduleReconnect_auth.
    change (auth (setConnected false (set_readyState CLOSED s)))
      with (auth (set_readyState CLOSED s)). apply set_readyState_auth.
  - eapply Hframe; [|exact HP]. unfold onclose. by rewrite scheduleReconnect_auth.
  - destruct (timers s !! t) as [[D cb]|]; [|done]. case_bool_decide; [|done].
    destruct cb; cbn [run_callback callback].
    + by eapply Hframe; [|exact HP].
    + apply Hconnect. by eapply Hframe; [|exact HP].
  - repeat case_bool_decide; cbn [andb]; try done. by eapply Hframe; [|exact HP].
Qed.

Lemma auth_failed_step s ev : auth_failed s → auth_failed (step s ev).
Proof.
  apply auth_step.
  - apply auth_frame.
  - apply auth_failed_connect.
  - intros s0 token r (_ & _ & _ & Hv) Htok. congruence.
Qed.

Lemma auth_failed_run evs s : auth_failed s → auth_failed (run s evs).
Proof.
  revert s. induction evs as [|ev evs IH]; intros s Hf; [done|].
  cbn [WsTransport.run foldl]. by apply IH, auth_failed_step.
Qed.

Lemma stripped_step s ev : stripped s → stripped (step s ev).
Proof.
  apply auth_step.
  - unfold stripped, auth. by intros s0 s' [= _ -> _ ->].
  - intros s0 Hs. unfold connect. destruct (_ || _); [done|].
    destruct (truthy (location_token s0)) eqn:E; case_match; by right.
  - intros s0 token r _ _. left. destruct r; cbn [validateAndConnect]; try done.
    transitivity
      (auth (scheduleReconnect (setAuthError None (set_validating None s0)))).2;
      [done|]. by rewrite scheduleReconnect_auth.
Qed.

Lemma stripped_run evs s : stripped s → stripped (run s evs).
Proof.
  revert s. induction evs as [|ev evs IH]; intros s Hs; [done|].
  cbn [WsTransport.run foldl]. by apply IH, stripped_step.
Qed.

(** Reconnect timers are created by [scheduleReconnect] alone, which does
    nothing while an auth error is set. *)
Lemma auth_failed_no_new_reconnect s ev t tm :
  wf s → auth_failed s →
  timers (step s ev) !! t = Some tm → callback tm = ReconnectFire →
  timers s !! t = Some tm.
Proof.
  intros Hwf Hf.
  assert (Hframe : ∀ s', core s' = core s →
            timers s' !! t = Some tm → callback tm = ReconnectFire →
            timers s !! t = Some tm).
  { intros s' Hc. by rewrite (core_timers _ _ Hc). }
  destruct ev; cbn [WsTransport.step]; try done.
  - pose proof (invoke_core id command args s) as Hc.
    unfold core in Hc. injection Hc as _ -> _ _ _ _.
    rewrite lookup_insert. case_decide; [|done].
    intros [= <-] Hcb. simpl in Hcb. done.
  - apply Hframe, listen_core.
  - apply Hframe, unlisten_core.
  - apply Hframe, connect_core.
  - destruct (validating s) eqn:E; [|done].
    destruct Hf as (_ & _ & _ & Hv). congruence.
  - case_match; [|done]. apply Hframe.
    by rewrite onopen_core, set_readyState_core.
  - destruct parsed as [msg|]; [|done]. unfold WsTransport.onmessage, handleMessage.
    repeat case_match; try done;
      try (by apply Hframe, fan_out_core); cbn;
      by intros [_ ?]%lookup_delete_Some.
  - case_match; [|done]. apply Hframe, set_readyState_core.
  - destruct (ws s); [|done]. case_decide; [done|]. unfold onclose.
    rewrite scheduleReconnect_auth_error.
    + apply Hframe. by rewrite setConnected_core, set_readyState_core.
    + destruct Hf as [Herr _]. rewrite <- Herr.
      change (truthy (auth (set_readyState CLOSED s)).1.1.1
              = truthy (auth s).1.1.1).
      by rewrite set_readyState_auth.
  - unfold onclose. rewrite scheduleReconnect_auth_error; [done|apply Hf].
  - destruct (timers s !! t0) as [[D cb]|]; [|done]. case_bool_decide; [|done].
    destruct cb; cbn [run_callback callback].
    + cbn. by intros [_ H']%lookup_delete_Some.
    + rewrite (core_timers _ _ (connect_core _)). cbn.
      by intros [_ H']%lookup_delete_Some.
  - repeat case_bool_decide; done.
Qed.

Lemma auth_failed_reconnect_timers_run evs s t tm :
  wf s → auth_failed s →
  timers (run s evs) !! t = Some tm → callback tm = ReconnectFire →
  timers s !! t = Some tm.
Proof.
  revert s. induction evs as [|ev evs IH]; intros s Hwf Hf; [done|].
  cbn [WsTransport.run foldl]. intros Ht Hcb.
  eapply auth_failed_no_new_reconnect; [done..| |done].
  eapply IH; [by apply wf_step|by apply auth_failed_step|done..].
Qed.

(** C4.  When the token check in flight is answered by a response that is
    not [ok], the persisted token is removed and the auth error is set; no
    timer is created and the reconnect timer field is untouched.  From then
    on, whatever happens, the auth error stays set, no token check is
    started, [scheduleReconnect] does nothing, and no reconnect timer is
    created.  In any state, [scheduleReconnect] does nothing while an auth
    error is set. *)
Theorem rejected_token_stops_reconnecting urlToken stored evs token evs' :
  let s := run (init urlToken stored) evs in
  validating s = Some token →
  let s' := step s (EvFetch FetchNotOk) in
  let s'' := run s' evs' in
  storage_token s' = None
  ∧ _authError s' = Some invalid_token_message
  ∧ timers s' = timers s
  ∧ reconnectTimer s' = reconnectTimer s
  ∧ truthy (_authError s'') = true
  ∧ storage_token s'' = None
  ∧ validating s'' = None
  ∧ scheduleReconnect s'' = s''
  ∧ (∀ t tm, timers s'' !! t = Some tm → callback tm = ReconnectFire →
       timers s !! t = Some tm)
  ∧ (∀ s1, truthy (_authError s1) = true → scheduleReconnect s1 = s1).
Proof.
  intros s Hval s' s''.
  assert (Hwf : wf s) by apply wf_run, wf_init.
  assert (Hstripped : stripped s) by (apply stripped_run; by left).
  assert (Hs' : s' = set_connecting false
                       (setAuthError (Some invalid_token_message)
                          (set_storage_token None (set_validating None s)))).
  { subst s'. cbn [WsTransport.step]. by rewrite Hval. }
  assert (Hf : auth_failed s').
  { rewrite Hs'. split_and!; try done.
    destruct Hstripped as [Hnone | Hloc]; [congruence|done]. }
  assert (Hf' : auth_failed s'') by by apply auth_failed_run.
  rewrite Hs'. split_and!; try done; try apply Hf'.
  - apply scheduleReconnect_auth_error, Hf'.
  - intros t tm Ht Hcb.
    assert (Ht' : timers s' !! t = Some tm).
    { apply (auth_failed_reconnect_timers_run evs' s' t tm); try done.
      by apply wf_step. }
    by rewrite Hs' in Ht'.
  - apply scheduleReconnect_auth_error.
Qed.

(** ** Backoff *)

Lemma scheduleReconnect_guarded s :
  reconnectTimer s ≠ None ∨ truthy (_authError s) = true →
  scheduleReconnect s = s.
Proof.
  unfold scheduleReconnect. intros [H | H].
  - by destruct (reconnectTimer s).
  - rewrite H. by destruct (reconnectTimer s).
Qed.

Lemma scheduleReconnect_schedules s :
  wf s → reconnectTimer s = None → truthy (_authError s) = false →
  schedules_backoff s (scheduleReconnect s).
Proof.
  intros Hwf Hnone Herr. unfold scheduleReconnect. rewrite Hnone, Herr.
  split_and!; try done.
  - destruct (timers s !! next_timer s) eqn:E; [|done].
    apply (wf_timer_fresh _ _ _ _ _ _ Hwf) in E. lia.
  - cbn. by rewrite lookup_insert_eq.
Qed.

Lemma connect_attempt s : reconnectAttempt (connect s) = reconnectAttempt s.
Proof. unfold connect. repeat case_match; done. Qed.

Lemma ws_send_attempt d s s' :
  ws_send d s = Some s' → reconnectAttempt s' = reconnectAttempt s.
Proof. unfold ws_send. repeat case_match; intros [= <-]; done. Qed.

Lemma flush_attempt items s :
  reconnectAttempt (flush items s).1 = reconnectAttempt s.
Proof.
  revert s. induction items as [|item rest IH]; intros s; simpl; [done|].
  destruct (ws_send (data item) s) as [s'|] eqn:E; [|done].
  rewrite IH. by eapply ws_send_attempt.
Qed.

Lemma fan_out_attempt event payload hs s :
  reconnectAttempt (foldl (call_handler event payload) s hs)
  = reconnectAttempt s.
Proof.
  revert s. induction hs as [|h hs IH]; intros s; simpl; [done|].
  rewrite IH. unfold call_handler. by case_match.
Qed.

(** The attempt counter changes in two ways only: the [open] event sets it
    to zero, and a scheduled reconnect adds one. *)
Lemma reconnectAttempt_step s ev :
  wf s →
  reconnectAttempt (step s ev) = reconnectAttempt s
  ∨ (ev = EvOpen ∧ reconnectAttempt (step s ev) = 0%nat)
  ∨ schedules_backoff s (step s ev).
Proof.
  intros Hwf.
  assert (Hsched : ∀ s0, core s0 = core s →
            reconnectAttempt s0 = reconnectAttempt s →
            reconnectAttempt (scheduleReconnect s0) = reconnectAttempt s
            ∨ schedules_backoff s (scheduleReconnect s0)).
  { intros s0 Hc Ha.
    destruct (reconnectTimer s0) eqn:E1;
      [left; by rewrite scheduleReconnect_guarded by (left; congruence)|].
    destruct (truthy (_authError s0)) eqn:E2;
      [left; by rewrite scheduleReconnect_guarded by (by right)|].
    right. pose proof (scheduleReconnect_schedules s0) as Hs.
    unfold schedules_backoff in *.
    rewrite (core_timers _ _ Hc), (core_now _ _ Hc), Ha in Hs.
    replace (next_timer s0) with (next_timer s) in Hs
      by (unfold core in Hc; by injection Hc as _ _ -> _ _ _).
    apply Hs; [|done..]. by eapply wf_frame. }
  destruct ev; cbn [WsTransport.step]; try (by left).
  - left. unfold invoke. cbn [setTimeout].
    match goal with |- context [if ?b then _ else _] => destruct b end;
      cbn [snd].
    + match goal with |- context [ws_send ?d ?x] =>
        destruct (ws_send d x) as [s'|] eqn:E end;
        cbn [from_option Datatypes.id]; [|done].
      by rewrite (ws_send_attempt _ _ _ E).
    + by rewrite connect_attempt.
  - left. unfold listen. rewrite connect_attempt. repeat case_match; done.
  - left. unfold unlisten. repeat case_match; done.
  - left. apply connect_attempt.
  - destruct (validating s); [|by left].
    destruct r; cbn [validateAndConnect]; try (by left).
    destruct (Hsched (setAuthError None (set_validating None s)))
      as [H | H]; [done|done|by left|by right; right].
  - case_match; [|by left]. right; left. split; [done|].
    unfold onopen. destruct (flush _ _) as [s' completed] eqn:E.
    assert (Ha : reconnectAttempt s' = 0%nat).
    { change s' with (s', completed).1. rewrite <- E. by rewrite flush_attempt. }
    by destruct completed.
  - left. destruct parsed as [msg|]; [|done]. unfold WsTransport.onmessage, handleMessage.
    repeat case_match; try done. apply fan_out_attempt.
  - left. case_match; [|done]. unfold set_readyState. by case_match.
  - destruct (ws s) as [w|] eqn:Ews; [|by left]. case_decide; [by left|].
    unfold onclose.
    destruct (Hsched (setConnected false (set_readyState CLOSED s)))
      as [H' | H']; [| |by left|by right; right].
    + by rewrite setConnected_core, set_readyState_core.
    + unfold set_readyState. by rewrite Ews.
  - unfold onclose.
    destruct (Hsched (setConnected false s)) as [H' | H'];
      [done|done|by left|by right; right].
  - left. destruct (timers s !! t) as [[D cb]|]; [|done].
    case_bool_decide; [|done].
    destruct cb; cbn [run_callback callback]; [done|].
    by rewrite connect_attempt.
  - left. repeat case_bool_decide; done.
Qed.

(** C5, as the code has it.  When the [fetch] of the token check in flight
    is rejected, the auth error is cleared.  If no reconnect timer is
    pending, one is scheduled, due after
    [min (1000 * 2 ^ attempt) 30000] ms, and the attempt counter is
    incremented; if one is pending, [scheduleReconnect] returns at its
    first guard: no timer is created and the counter is unchanged.  In
    every turn the counter is left as it is, set to zero by the [open]
    event, or incremented together with the scheduling of a reconnect. *)
Theorem network_failure_schedules_backoff urlToken stored evs token :
  let s := run (init urlToken stored) evs in
  validating s = Some token →
  let s' := step s (EvFetch FetchFailed) in
  _authError s' = None
  ∧ (reconnectTimer s = None → schedules_backoff s s')
  ∧ (reconnectTimer s ≠ None →
       timers s' = timers s ∧ reconnectTimer s' = reconnectTimer s
       ∧ reconnectAttempt s' = reconnectAttempt s)
  ∧ backoff_delay (reconnectAttempt s)
    = Z.min (1000 * 2 ^ Z.of_nat (reconnectAttempt s)) 30000
  ∧ (∀ ev, reconnectAttempt (step s ev) = reconnectAttempt s
           ∨ (ev = EvOpen ∧ reconnectAttempt (step s ev) = 0%nat)
           ∨ schedules_backoff s (step s ev)).
Proof.
  intros s Hval s'.
  assert (Hwf : wf s) by apply wf_run, wf_init.
  assert (Hs' : s' = set_connecting false
                       (scheduleReconnect
                          (setAuthError None (set_validating None s)))).
  { subst s'. cbn [WsTransport.step]. by rewrite Hval. }
  rewrite Hs'. split_and!.
  - transitivity
      (auth (scheduleReconnect
               (setAuthError None (set_validating None s)))).1.1.1; [done|].
    by rewrite scheduleReconnect_auth.
  - intros Hnone.
    by apply (scheduleReconnect_schedules
                (setAuthError None (set_validating None s))).
  - intros Hsome.
    rewrite (scheduleReconnect_guarded
               (setAuthError None (set_validating None s))) by by left.
    done.
  - done.
  - intros ev. by apply reconnectAttempt_step.
Qed.

(** C6.  The [close] event, of the current socket or of one that has been
    replaced, settles no promise: the pending table and the settlement log
    are as they were, and every timer that was live is still live, so each
    outstanding request still has its own expiry timer. *)
Theorem close_rejects_no_pending_request urlToken stored evs ev :
  let s := run (init urlToken stored) evs in
  ev = EvClose ∨ ev = EvStaleClose →
  pending (step s ev) = pending s
  ∧ settled (step s ev) = settled s
  ∧ (∀ t tm, timers s !! t = Some tm → timers (step s ev) !! t = Some tm)
  ∧ (∀ id pr, pending s !! id = Some pr →
       ∃ D command,
         timers (step s ev) !! timeout pr
         = Some (mkTimer D (RequestTimeout id command (promise pr)))).
Proof.
  intros s Hev.
  assert (Hwf : wf s) by apply wf_run, wf_init.
  assert (Hclose : ∀ s0, core s0 = core s →
            pending (onclose s0) = pending s
            ∧ settled (onclose s0) = settled s
            ∧ (∀ t tm, timers s !! t = Some tm →
                 timers (onclose s0) !! t = Some tm)).
  { intros s0 Hc. unfold onclose.
    destruct (scheduleReconnect_pending (setConnected false s0))
      as (-> & -> & _).
    split_and!; [by apply core_pending|by apply core_settled|].
    intros t tm Ht. apply scheduleReconnect_timer_kept.
    - by eapply wf_frame.
    - rewrite <- (core_timers _ _ Hc) in Ht. exact Ht. }
  assert (Hgoal : pending (step s ev) = pending s
                  ∧ settled (step s ev) = settled s
                  ∧ (∀ t tm, timers s !! t = Some tm →
                       timers (step s ev) !! t = Some tm)).
  { destruct Hev as [-> | ->]; cbn [WsTransport.step]; [|by apply Hclose].
    destruct (ws s); [|done]. case_decide; [done|].
    apply Hclose, set_readyState_core. }
  destruct Hgoal as (Hp & Hs & Ht). split_and!; try done.
  intros id pr Hpr.
  destruct (wf_pending_timer _ _ _ _ _ _ Hwf _ _ Hpr) as (command & D & Hlive).
  exists D, command. by apply Ht.
Qed.

(** ** The listener map *)

Lemma set_delete_idemp h hs : set_delete h (set_delete h hs) = set_delete h hs.
Proof. unfold set_delete. apply list_filter_filter_l. by intros. Qed.

Lemma set_add_nonempty h hs : set_add h hs ≠ [].
Proof.
  unfold set_add. case_decide as Hin.
  - intros ->. by apply elem_of_nil in Hin.
  - by destruct hs.
Qed.

Lemma connect_listeners s : listeners (connect s) = listeners s.
Proof. unfold connect. repeat case_match; done. Qed.

Lemma ws_send_listeners d s s' :
  ws_send d s = Some s' → listeners s' = listeners s.
Proof. unfold ws_send. repeat case_match; intros [= <-]; done. Qed.

Lemma flush_listeners items s : listeners (flush items s).1 = listeners s.
Proof.
  revert s. induction items as [|item rest IH]; intros s; simpl; [done|].
  destruct (ws_send (data item) s) as [s'|] eqn:E; [|done].
  rewrite IH. by eapply ws_send_listeners.
Qed.

Lemma fan_out_listeners event payload hs s :
  listeners (foldl (call_handler event payload) s hs) = listeners s.
Proof.
  revert s. induction hs as [|h hs IH]; intros s; simpl; [done|].
  rewrite IH. unfold call_handler. by case_match.
Qed.

Lemma scheduleReconnect_listeners s :
  listeners (scheduleReconnect s) = listeners s.
Proof.
  unfold scheduleReconnect.
  destruct (reconnectTimer s); [done|]. by destruct (truthy _).
Qed.

(** Only [listen] and the closures it returns write the listener map. *)
Lemma listeners_step s ev :
  (∀ event h, ev ≠ EvListen event h) → (∀ event h, ev ≠ EvUnlisten event h) →
  listeners (step s ev) = listeners s.
Proof.
  intros Hl Hu. destruct ev; cbn [WsTransport.step]; try done.
  - unfold invoke. cbn [setTimeout].
    match goal with |- context [if ?b then _ else _] => destruct b end;
      cbn [snd].
    + match goal with |- context [ws_send ?d ?x] =>
        destruct (ws_send d x) as [s'|] eqn:E end;
        cbn [from_option Datatypes.id]; [|done].
      by rewrite (ws_send_listeners _ _ _ E).
    + by rewrite connect_listeners.
  - by destruct (Hl event h).
  - by destruct (Hu event h).
  - apply connect_listeners.
  - destruct (validating s); [|done].
    destruct r; cbn [validateAndConnect]; try done.
    apply (scheduleReconnect_listeners
             (setAuthError None (set_validating None s))).
  - case_match; [|done]. unfold onopen.
    destruct (flush _ _) as [s' completed] eqn:E.
    assert (Ha : listeners s' = listeners s).
    { change s' with (s', completed).1. rewrite <- E, flush_listeners.
      unfold set_readyState. by case_match. }
    by destruct completed.
  - destruct parsed as [msg|]; [|done]. unfold WsTransport.onmessage, handleMessage.
    repeat case_match; try done. apply fan_out_listeners.
  - case_match; [|done]. unfold set_readyState. by case_match.
  - destruct (ws s) as [w|] eqn:Ews; [|done]. case_decide; [done|].
    unfold onclose. rewrite scheduleReconnect_listeners.
    unfold set_readyState. by rewrite Ews.
  - unfold onclose. by rewrite scheduleReconnect_listeners.
  - destruct (timers s !! t) as [[D cb]|]; [|done]. case_bool_decide; [|done].
    destruct cb; cbn [run_callback callback]; [done|].
    by rewrite connect_listeners.
  - repeat case_bool_decide; done.
Qed.

Lemma listen_listeners event h s :
  listeners (listen event h s)
  = <[event := set_add h (default [] (listeners s !! event))]> (listeners s).
Proof.
  unfold listen. rewrite connect_listeners.
  destruct (listeners s !! event) as [hs|] eqn:E; cbn.
  - by rewrite E.
  - rewrite lookup_insert_eq. cbn. by rewrite insert_insert_eq.
Qed.

Lemma unlisten_listeners event h s :
  listeners (unlisten event h s)
  = match listeners s !! event with
    | Some hs =>
        if decide (set_delete h hs = []) then delete event (listeners s)
        else <[event := set_delete h hs]> (listeners s)
    | None => listeners s
    end.
Proof.
  unfold unlisten. destruct (listeners s !! event) as [hs|] eqn:E; cbn.
  - rewrite lookup_insert_eq. case_decide as Hd.
    + rewrite Hd. cbn. by rewrite delete_insert_eq.
    + by destruct (set_delete h hs).
  - by rewrite E.
Qed.

Lemma no_empty_sets_step s ev : no_empty_sets s → no_empty_sets (step s ev).
Proof.
  intros Hs.
  assert (Hother : (∀ event h, ev ≠ EvListen event h) →
                   (∀ event h, ev ≠ EvUnlisten event h) →
                   no_empty_sets (step s ev)).
  { intros Hl Hu. unfold no_empty_sets. by rewrite listeners_step. }
  destruct ev as [| e h | e h | | | | | | | | | | | |];
    try (by apply Hother); clear Hother; cbn [WsTransport.step].
  - intros event hs. rewrite listen_listeners, lookup_insert.
    case_decide; [|by apply Hs]. intros [= <-]. apply set_add_nonempty.
  - intros event hs. rewrite unlisten_listeners.
    destruct (listeners s !! e) as [hs0|] eqn:E; [|by apply Hs].
    case_decide as Hd.
    + intros [_ H]%lookup_delete_Some. by eapply Hs.
    + rewrite lookup_insert. case_decide; [|by apply Hs]. by intros [= <-].
Qed.

Lemma no_empty_sets_run evs s : no_empty_sets s → no_empty_sets (run s evs).
Proof.
  revert s. induction evs as [|ev evs IH]; intros s Hs; [done|].
  cbn [WsTransport.run foldl]. by apply IH, no_empty_sets_step.
Qed.

(** C7.  The closure returned by [listen event h] is a total function of
    the state (nothing in it can throw), and running it a second time
    changes nothing.  When it removes the last handler of [event], the
    event name leaves the map; otherwise the name keeps the remaining
    handlers.  No state the transport can reach maps an event name to an
    empty set. *)
Theorem unlisten_idempotent event h :
  (∀ s, unlisten event h (unlisten event h s) = unlisten event h s)
  ∧ (∀ s hs, listeners s !! event = Some hs →
       listeners (unlisten event h s) !! event
       = if decide (set_delete h hs = []) then None
         else Some (set_delete h hs))
  ∧ (∀ urlToken stored evs, no_empty_sets (run (init urlToken stored) evs)).
Proof.
  split_and!.
  - intros s.
    assert (Hl : listeners (unlisten event h (unlisten event h s))
                 = listeners (unlisten event h s)).
    { rewrite (unlisten_listeners event h (unlisten event h s)).
      rewrite unlisten_listeners.
      destruct (listeners s !! event) as [hs|] eqn:E; [|by rewrite E].
      case_decide as Hd.
      - by rewrite lookup_delete_eq.
      - rewrite lookup_insert_eq, set_delete_idemp.
        rewrite decide_False by done. by rewrite insert_insert_eq. }
    assert (Hshape : ∀ s0, ∃ m, unlisten event h s0 = set_listeners m s0).
    { intros s0. unfold unlisten. repeat case_match; eauto.
      all: by exists (listeners s0). }
    destruct (Hshape s) as [m Hm].
    destruct (Hshape (unlisten event h s)) as [m' Hm'].
    rewrite Hm' in Hl |- *. rewrite Hm in Hl |- *. cbn in Hl. by subst m'.
  - intros s hs Hhs. rewrite unlisten_listeners, Hhs. case_decide.
    + apply lookup_delete_eq.
    + apply lookup_insert_eq.
  - intros urlToken stored evs. apply no_empty_sets_run.
    intros event' hs Hl.
    change ((∅ : gmap string (list Handler)) !! event' = Some hs) in Hl.
    by rewrite lookup_empty in Hl.
Qed.

(** ** Event fan-out *)

Lemma fan_out_delivered event payload hs s :
  let s' := foldl (call_handler event payload) s hs in
  delivered s' = delivered s ++ ((λ h, (h, payload)) <$> hs)
  ∧ console s'
    = console s
      ++ ((λ _, handler_error_line event)
            <$> filter (λ h, handler_throws h payload) hs).
Proof.
  revert s. induction hs as [|h hs IH]; intros s; cbn [foldl].
  - cbn. by rewrite !app_nil_r.
  - destruct (IH (call_handler event payload s h)) as [Hd Hc].
    cbn zeta. rewrite Hd, Hc. unfold call_handler. rewrite filter_cons.
    destruct (handler_throws h payload) eqn:E; cbn.
    + by rewrite <- !app_assoc.
    + by rewrite <- !app_assoc.
Qed.

(** C8.  An event message whose name has handlers calls every one of them
    with the payload, once and in the order of the set, whichever of them
    throw; each throw is reported on the console and nothing else.  No
    other handler is called, and the listener map and the correlation
    fields are as they were. *)
Theorem fan_out_isolates_throwing_handlers msg event hs s :
  msg_type msg = "event" → msg_event msg = Some event → event ≠ "" →
  listeners s !! event = Some hs →
  let s' := handleMessage msg s in
  delivered s' = delivered s ++ ((λ h, (h, msg_payload msg)) <$> hs)
  ∧ (∀ h, h ∈ hs → (h, msg_payload msg) ∈ delivered s')
  ∧ (∀ h, h ∉ hs → (h, msg_payload msg) ∈ delivered s' →
       (h, msg_payload msg) ∈ delivered s)
  ∧ console s'
    = console s
      ++ ((λ _, handler_error_line event)
            <$> filter (λ h, handler_throws h (msg_payload msg)) hs)
  ∧ listeners s' = listeners s
  ∧ core s' = core s.
Proof.
  intros Hty Hev Hne Hhs s'.
  assert (Hs' : s' = foldl (call_handler event (msg_payload msg)) s hs).
  { subst s'. unfold handleMessage. rewrite Hty, Hev, (truthy_Some _ Hne).
    change (default "" (Some event)) with event.
    cbn [String.eqb Ascii.eqb Bool.eqb andb]. by rewrite Hhs. }
  destruct (fan_out_delivered event (msg_payload msg) hs s) as [Hd Hc].
  rewrite Hs'. split_and!.
  - exact Hd.
  - intros h Hin. rewrite Hd. apply elem_of_app. right.
    by apply (list_elem_of_fmap_2 (λ h, (h, msg_payload msg))).
  - intros h Hnotin. rewrite Hd.
    intros [Hin | Hin]%elem_of_app; [done|].
    apply list_elem_of_fmap_1 in Hin as (h' & [= ->] & Hin). done.
  - exact Hc.
  - apply fan_out_listeners.
  - apply fan_out_core.
Qed.

End Handlers.

(** ** The statements at the runs of [WsTransport] *)

Lemma invoke_settled_at_most_once_witness :
  let s := run quiet (init None (Some "tok")) one_request in
  let s' := handleMessage quiet (response_for "r1" "42") s in
  pending s !! "r1" = Some (mkPending 0 1)
  ∧ pending s' !! "r1" = None
  ∧ timers s' = delete 1%positive (timers s)
  ∧ settled s' = [(0%nat, Resolved (Some "42"))]
  ∧ handleMessage quiet (error_for "r1" "late") s' = s'.
Proof.
  intros s s'.
  assert (Hpr : pending s !! "r1" = Some (mkPending 0 1)) by reflexivity.
  destruct (invoke_settled_at_most_once quiet None (Some "tok") one_request)
    as (_ & Hsettle & _).
  destruct (Hsettle "r1" (mkPending 0 1) Hpr) as (_ & Hmsg & _).
  destruct (Hmsg (response_for "r1" "42") (or_introl eq_refl) eq_refl
              ltac:(discriminate)) as (H1 & H2 & H3).
  destruct (invoke_settled_at_most_once quiet None (Some "tok")
              (one_request ++ [EvMessage (Some (response_for "r1" "42"))]))
    as (_ & _ & Hlate).
  split_and!; [exact Hpr|exact H1|exact H2|exact H3|].
  exact (Hlate "r1" [] (error_for "r1" "late") H1 (Forall_nil_2 _)
           (or_intror eq_refl) eq_refl).
Defined.

Lemma invoke_settles_within_timeout_witness :
  let s0 := init None None in
  let s2 := run quiet (step quiet s0 (EvInvoke "r1" "get_data" "{}"))
              sixty_seconds in
  _connected s0 = false
  ∧ now s0 + 60000 < now s2
  ∧ ¬ Exists (replies_to "r1") sixty_seconds
  ∧ (0%nat, Rejected "Command 'get_data' timed out after 60s") ∈ settled s2.
Proof.
  intros s0 s2.
  assert (Hlate : now s0 + 60000 < now s2) by (vm_compute; reflexivity).
  assert (Hquiet : ¬ Exists (replies_to "r1") sixty_seconds).
  { apply (bool_decide_eq_false_1 (Exists (replies_to "r1") sixty_seconds)).
    vm_compute. reflexivity. }
  destruct (invoke_settles_within_timeout quiet None None []
              "r1" "get_data" "{}" sixty_seconds) as (_ & _ & Hout).
  split_and!; [reflexivity|exact Hlate|exact Hquiet|].
  exact (Hout Hlate Hquiet).
Defined.

Lemma open_flushes_queue_in_order_witness :
  let s := run quiet (init None (Some "tok")) two_queued in
  let s' := step quiet s EvOpen in
  ws s = Some (mkWebSocket "tok" CONNECTING [])
  ∧ queue s = [mkQueued (mkFrame "r1" "get_data" "{}");
               mkQueued (mkFrame "r2" "get_data" "{}")]
  ∧ ws s' = Some (mkWebSocket "tok" OPEN
                    [mkFrame "r1" "get_data" "{}";
                     mkFrame "r2" "get_data" "{}"])
  ∧ queue s' = []
  ∧ reconnectAttempt s' = 0%nat.
Proof.
  intros s s'.
  assert (Hws : ws s = Some (mkWebSocket "tok" CONNECTING [])) by reflexivity.
  destruct (open_flushes_queue_in_order quiet s _ Hws eq_refl)
    as (H1 & H2 & H3 & _).
  split_and!; [exact Hws|reflexivity|exact H1|exact H2|exact H3].
Defined.

Lemma rejected_token_stops_reconnecting_witness :
  let s := run quiet (init None (Some "tok")) checking in
  let s' := step quiet s (EvFetch FetchNotOk) in
  let s'' := run quiet s' [EvStaleClose; EvInvoke "r1" "get_data" "{}"] in
  validating s = Some "tok"
  ∧ storage_token s' = None
  ∧ _authError s' = Some invalid_token_message
  ∧ truthy (_authError s'') = true
  ∧ scheduleReconnect s'' = s''.
Proof.
  intros s s' s''.
  assert (Hval : validating s = Some "tok") by reflexivity.
  destruct (rejected_token_stops_reconnecting quiet None (Some "tok") checking
              "tok" [EvStaleClose; EvInvoke "r1" "get_data" "{}"] Hval)
    as (H1 & H2 & _ & _ & H5 & _ & _ & H8 & _).
  split_and!; [exact Hval|exact H1|exact H2|exact H5|exact H8].
Defined.

Lemma network_failure_schedules_backoff_witness :
  let s := run quiet (init None (Some "tok")) checking in
  let s' := step quiet s (EvFetch FetchFailed) in
  validating s = Some "tok"
  ∧ reconnectTimer s = None
  ∧ _authError s' = None
  ∧ schedules_backoff s s'.
Proof.
  intros s s'.
  assert (Hval : validating s = Some "tok") by reflexivity.
  assert (Hnone : reconnectTimer s = None) by reflexivity.
  destruct (network_failure_schedules_backoff quiet None (Some "tok") checking
              "tok" Hval) as (H1 & H2 & _).
  split_and!; [exact Hval|exact Hnone|exact H1|exact (H2 Hnone)].
Defined.

(** C5 as stated fails here: the token check fails at the network level
    with the attempt counter at 1, and no reconnect is scheduled with the
    delay of that attempt (2000 ms), or with any delay: the timers and the
    counter are unchanged, because the reconnect of the earlier close is
    still pending. *)
Lemma network_failure_with_pending_reconnect :
  let s := run quiet (init None (Some "tok")) dropped_then_invoked in
  let s' := step quiet s (EvFetch FetchFailed) in
  validating s = Some "tok"
  ∧ reconnectAttempt s = 1%nat
  ∧ backoff_delay (reconnectAttempt s) = 2000
  ∧ timers s' = timers s
  ∧ reconnectAttempt s' = reconnectAttempt s
  ∧ ¬ schedules_backoff s s'
  ∧ ¬ ∃ t D, timers s' !! t = Some (mkTimer D ReconnectFire)
             ∧ D - now s = backoff_delay (reconnectAttempt s).
Proof.
  intros s s'.
  assert (Hsame : timers s' = timers s) by (vm_compute; reflexivity).
  split_and!; try (vm_compute; reflexivity).
  - intros (_ & _ & _ & Hatt). vm_compute in Hatt. discriminate.
  - intros (t & D & Ht & HD). rewrite Hsame in Ht.
    assert (Hlive : timers s
                    = <[1%positive := mkTimer 1000 ReconnectFire]>
                        (<[2%positive
                           := mkTimer 60000
                                (RequestTimeout "r1" "get_data" 0)]> ∅)).
    { vm_compute. reflexivity. }
    rewrite Hlive in Ht.
    apply lookup_insert_Some in Ht as [[_ [= <-]] | [_ Ht]].
    + vm_compute in HD. discriminate.
    + apply lookup_insert_Some in Ht as [[_ [=]] | [_ Ht]].
      by rewrite lookup_empty in Ht.
Qed.

Lemma close_rejects_no_pending_request_witness :
  let s := run quiet (init None (Some "tok"))
             [EvInvoke "r1" "get_data" "{}"; EvFetch FetchOk; EvOpen] in
  pending s !! "r1" = Some (mkPending 0 1)
  ∧ pending (step quiet s EvClose) = pending s
  ∧ settled (step quiet s EvClose) = [].
Proof.
  intros s.
  destruct (close_rejects_no_pending_request quiet None (Some "tok")
              [EvInvoke "r1" "get_data" "{}"; EvFetch FetchOk; EvOpen]
              EvClose (or_introl eq_refl)) as (H1 & H2 & _).
  split_and!; [reflexivity|exact H1|exact H2].
Defined.

Lemma unlisten_idempotent_witness :
  let s := run quiet (init None None) [EvListen "chat:done" 7%nat] in
  listeners s !! "chat:done" = Some [7%nat]
  ∧ listeners (unlisten "chat:done" 7 s) !! "chat:done" = None
  ∧ unlisten "chat:done" 7 (unlisten "chat:done" 7 s)
    = unlisten "chat:done" 7 s.
Proof.
  intros s.
  assert (Hl : listeners s !! "chat:done" = Some [7%nat]) by reflexivity.
  destruct (unlisten_idempotent quiet "chat:done" 7%nat) as (H1 & H2 & _).
  split_and!; [exact Hl|exact (H2 s [7%nat] Hl)|exact (H1 s)].
Defined.

Lemma fan_out_isolates_throwing_handlers_witness :
  let s := run first_throws (init None None)
             [EvListen "chat:chunk" 1%nat; EvListen "chat:chunk" 2%nat;
              EvListen "chat:done" 3%nat] in
  let s' := handleMessage first_throws (event_named "chat:chunk" "hi") s in
  listeners s !! "chat:chunk" = Some [1%nat; 2%nat]
  ∧ first_throws 1%nat (Some "hi") = true
  ∧ delivered s' = [(1%nat, Some "hi"); (2%nat, Some "hi")]
  ∧ console s' = ["[WsTransport] Error in 'chat:chunk' handler:"].
Proof.
  intros s s'.
  assert (Hl : listeners s !! "chat:chunk" = Some [1%nat; 2%nat])
    by reflexivity.
  destruct (fan_out_isolates_throwing_handlers first_throws
              (event_named "chat:chunk" "hi") "chat:chunk" [1%nat; 2%nat] s
              eq_refl eq_refl ltac:(discriminate) Hl)
    as (H1 & _ & _ & H4 & _).
  split_and!; [exact Hl|reflexivity|exact H1|exact H4].
Defined.

End WsTransportFacts.

(** * The preloader: proofs *)

Module PreloadFacts.

Import Preload.

(** ** The accessor never sees the data *)

Lemma promise_then_results r s : results (promise_then r s) = results s.
Proof. unfold promise_then. repeat case_match; done. Qed.

Lemma run_reactions_length jobs s :
  length (results (foldl run_reaction s jobs)) = length (results s).
Proof.
  revert s. induction jobs as [|[[var] v] jobs IH]; intros s; [done|].
  cbn [foldl]. rewrite IH. cbn. by rewrite length_insert.
Qed.

(** C10.  [getPreloadedData] returns [null] in every state.  In
    particular, when the preload has succeeded ([hasPreloadedData] answers
    [true] and the promise is fulfilled with the snapshot [d]) the call
    returns [null] all the same: its variable [result] is still [null] when
    it is read, and holds [d] only after the microtask queue has run. *)
Theorem getPreloadedData_returns_null :
  (∀ s, (getPreloadedData s).1 = None)
  ∧ (∀ s p d,
       initialDataResolved s = true → initialDataPromise s = Some p →
       fulfilled p = Some d →
       let var := length (results s) in
       let s' := (getPreloadedData s).2 in
       hasPreloadedData s = true
       ∧ (getPreloadedData s).1 = None
       ∧ results s' !! var = Some None
       ∧ results (drain s') !! var = Some d).
Proof.
  assert (Hnull : ∀ s, (getPreloadedData s).1 = None).
  { intros s. unfold getPreloadedData. case_match; [done|]. cbn [fst].
    rewrite promise_then_results. cbn.
    by rewrite lookup_app_r, Nat.sub_diag by lia. }
  split; [exact Hnull|].
  intros s p d Hres Hp Hd var s'.
  assert (Hs' : s' = set_microtasks (microtasks s ++ [(AssignResult var, d)])
                       (set_results (results s ++ [None]) s)).
  { subst s' var. destruct s as [pr rs native lt st ft res mt].
    cbn in Hres, Hp. subst pr rs. destruct p as [fv rx]. cbn in Hd. subst fv.
    reflexivity. }
  split_and!; [done|apply Hnull| |].
  - rewrite Hs'. cbn. subst var. by rewrite lookup_app_r, Nat.sub_diag by lia.
  - rewrite Hs'. unfold drain. cbn. rewrite foldl_app. cbn.
    apply list_lookup_insert_eq. rewrite run_reactions_length. cbn.
    rewrite length_app. cbn. subst var. lia.
Qed.

Lemma getPreloadedData_returns_null_witness :
  hasPreloadedData preloaded = true
  ∧ initialDataPromise preloaded = Some (mkPromise (Some (Some snapshot)) [])
  ∧ (getPreloadedData preloaded).1 = None
  ∧ results (drain (getPreloadedData preloaded).2) !! 0%nat
    = Some (Some snapshot).
Proof.
  destruct getPreloadedData_returns_null as [_ H].
  destruct (H preloaded (mkPromise (Some (Some snapshot)) []) (Some snapshot)
              eq_refl eq_refl eq_refl) as (H1 & H2 & _ & H4).
  split_and!; [exact H1|reflexivity|exact H2|exact H4].
Defined.

End PreloadFacts.

(** * The query cache: proofs *)

Module AppFacts.

Import App.

(** ** Code that calls [setQueryData] *)

Lemma calls_all_ret {A : Type} (P : QueryKey → Prop) (a : A) :
  calls_all P (mret a).
Proof. apply Forall_nil_2. Qed.

Lemma calls_all_throw {A : Type} (P : QueryKey → Prop) :
  calls_all P (@throw A).
Proof. apply Forall_nil_2. Qed.

Lemma calls_all_call (P : QueryKey → Prop) key value :
  P key → calls_all P (call_setQueryData key value).
Proof. intros H. by apply Forall_singleton. Qed.

Lemma calls_all_bind {A B : Type} (P : QueryKey → Prop)
    (m : Run A) (f : A → Run B) :
  calls_all P m → (∀ a, calls_all P (f a)) → calls_all P (m ≫= f).
Proof.
  intros Hm Hf. unfold calls_all, mbind, Run_bind.
  destruct m as [l [a|]]; cbn; [|done].
  apply Forall_app. split; [done|apply Hf].
Qed.

Lemma calls_all_bind_value {A B : Type} (P : QueryKey → Prop)
    (m : Run A) (f : A → Run B) :
  calls_all P m → (∀ a, m.2 = Some a → calls_all P (f a)) →
  calls_all P (m ≫= f).
Proof.
  intros Hm Hf. unfold calls_all, mbind, Run_bind.
  destruct m as [l [a|]]; cbn; [|done].
  apply Forall_app. split; [done|by apply Hf].
Qed.

Lemma calls_all_for_each {A : Type} (P : QueryKey → Prop)
    (xs : list A) (body : A → Run unit) :
  (∀ x, calls_all P (body x)) → calls_all P (for_each xs body).
Proof.
  intros Hbody. induction xs as [|x xs IH]; cbn [for_each].
  - apply calls_all_ret.
  - by apply calls_all_bind.
Qed.

Lemma calls_all_if_truthy (P : QueryKey → Prop) v (body : Json → Run unit) :
  (∀ x, calls_all P (body x)) → calls_all P (if_truthy v body).
Proof.
  intros Hbody. unfold if_truthy. destruct v as [x|]; [|apply calls_all_ret].
  destruct (truthy_value (Some x)); [apply Hbody|apply calls_all_ret].
Qed.

Lemma calls_all_if_truthy_value (P : QueryKey → Prop) v
    (body : Json → Run unit) :
  (truthy_value v = true → ∀ x, calls_all P (body x)) →
  calls_all P (if_truthy v body).
Proof.
  intros Hbody. unfold if_truthy. destruct v as [x|]; [|apply calls_all_ret].
  destruct (truthy_value (Some x)); [by apply Hbody|apply calls_all_ret].
Qed.

Lemma calls_all_member (P : QueryKey → Prop) name v :
  calls_all P (member name v).
Proof. destruct v; apply Forall_nil_2. Qed.

Lemma calls_all_entries (P : QueryKey → Prop) v : calls_all P (entries v).
Proof. destruct v; apply Forall_nil_2. Qed.

Lemma calls_all_values (P : QueryKey → Prop) v : calls_all P (values v).
Proof.
  apply calls_all_bind; [apply calls_all_entries|].
  intros es. apply calls_all_ret.
Qed.

Lemma calls_all_iterate (P : QueryKey → Prop) v : calls_all P (iterate v).
Proof. destruct v as [[]|]; apply Forall_nil_2. Qed.

Lemma calls_all_session_flags (P : QueryKey → Prop) session :
  calls_all P (session_flags session).
Proof.
  unfold session_flags.
  repeat (apply calls_all_bind; [apply calls_all_member|intros ?]).
  apply calls_all_ret.
Qed.

Lemma calls_all_worktree_path (P : QueryKey → Prop) wt :
  calls_all P (worktree_path wt).
Proof.
  unfold worktree_path.
  apply calls_all_bind; [apply calls_all_member|intros id].
  destruct (truthy_value id); [|apply calls_all_ret].
  apply calls_all_bind; [apply calls_all_member|intros ?].
  apply calls_all_ret.
Qed.

(** ** Calls carried out on a cache *)

Lemma last_call_snoc k calls kv :
  last_call k (calls ++ [kv])
  = if decide (kv.1 = k) then Some kv.2 else last_call k calls.
Proof. unfold last_call. by rewrite foldl_app. Qed.

Lemma last_call_is_Some k calls :
  is_Some (last_call k calls) ↔ k ∈ calls.*1.
Proof.
  induction calls as [|kv calls IH] using rev_ind.
  - cbn. split; [by intros [? ?]|by intros ?%elem_of_nil].
  - rewrite last_call_snoc, fmap_app, elem_of_app. cbn.
    rewrite list_elem_of_singleton. case_decide as Hk.
    + split; [by right|by eexists].
    + rewrite IH. split; [by left|]. intros [?|?]; [done|congruence].
Qed.

Lemma setQueryData_observed key value cache k :
  observed (setQueryData key value cache) k = observed cache k
  ∧ in_flight (setQueryData key value cache) k = in_flight cache k.
Proof.
  unfold observed, in_flight, setQueryData.
  destruct (decide (key = k)) as [->|Hne].
  - rewrite lookup_insert_eq. by destruct (cache !! k).
  - by rewrite lookup_insert_ne.
Qed.

(** The entry of a key after the calls: the value of the last call for
    the key, unmarked, with the observers and the fetch that the entry had
    before; or the entry as it was, when no call is for the key. *)
Lemma perform_lookup calls cache k :
  perform calls cache !! k
  = match last_call k calls with
    | Some v => Some (mkQuery (Some v) false (observed cache k)
                        (in_flight cache k))
    | None => cache !! k
    end.
Proof.
  induction calls as [|kv calls IH] using rev_ind; [done|].
  unfold perform in *. rewrite foldl_app, last_call_snoc. cbn [foldl].
  set (c := foldl (λ c kv, setQueryData kv.1 kv.2 c) cache calls) in *.
  assert (Hobs : observed c k = observed cache k
                 ∧ in_flight c k = in_flight cache k).
  { unfold observed, in_flight. rewrite IH.
    by destruct (last_call k calls). }
  case_decide as Hk.
  - subst k. unfold setQueryData. rewrite lookup_insert_eq.
    destruct Hobs as [Ho Hf]. unfold observed, in_flight in Ho, Hf.
    unfold observed, in_flight.
    destruct (c !! kv.1) as [q|]; cbn in Ho, Hf; by rewrite <- Ho, <- Hf.
  - unfold setQueryData. by rewrite lookup_insert_ne.
Qed.

Lemma perform_other calls cache k :
  k ∉ calls.*1 → perform calls cache !! k = cache !! k.
Proof.
  intros Hk. rewrite perform_lookup.
  destruct (last_call k calls) as [v|] eqn:E; [|done].
  destruct Hk. apply last_call_is_Some. by eexists.
Qed.

Lemma perform_fresh calls cache k :
  k ∈ calls.*1 → fresh (perform calls cache) k.
Proof.
  intros [v Hv]%last_call_is_Some. unfold fresh.
  rewrite perform_lookup, Hv. eexists. split; [done|]. split; [by eexists|done].
Qed.

(** ** Invalidation goes by the first segment of the key *)

Lemma invalidateQueries_lookup accepts cache k :
  invalidateQueries accepts cache !! k
  = (λ q, if accepts k then invalidated q else q) <$> cache !! k.
Proof.
  unfold invalidateQueries. rewrite map_lookup_imap.
  by destruct (cache !! k).
Qed.

Lemma predicate_false_iff k : predicate k = false ↔ head k ∈ preloaded_roots.
Proof.
  unfold predicate, preloaded_roots. rewrite !elem_of_cons. split.
  - intros H. repeat case_bool_decide; try discriminate; tauto.
  - intros [H|[H|[H|[H|H]]]]; [..|by apply elem_of_nil in H];
      rewrite H; reflexivity.
Qed.

Section KeyBuilders.

Variable projects_list : QueryKey.
Variable projects_worktrees : string → QueryKey.
Variable chat_sessions : string → QueryKey.
Variable chat_session : string → QueryKey.

#[local] Abbreviation seedCache :=
  (App.seedCache projects_list projects_worktrees chat_sessions chat_session).
#[local] Abbreviation on_preloaded :=
  (App.on_preloaded projects_list projects_worktrees chat_sessions
     chat_session).
#[local] Abbreviation seed_calls :=
  (App.seed_calls projects_list projects_worktrees chat_sessions
     chat_session).
#[local] Abbreviation seeded_keys :=
  (App.seeded_keys projects_list projects_worktrees chat_sessions
     chat_session).

(** ** What the preloader writes *)

(** [seedCache] calls [setQueryData] with the keys of the four builders,
    and with [['preferences']] and [['ui-state']] when the answer has a
    truthy value for them, whatever it is given and wherever it throws. *)
Lemma seedCache_calls_all (P : QueryKey → Prop) data :
  P projects_list → (∀ projectId, P (projects_worktrees projectId)) →
  (∀ worktreeId, P (chat_sessions worktreeId)) →
  (∀ sessionId, P (chat_session sessionId)) →
  (∀ v, (member "preferences" data).2 = Some v → truthy_value v = true →
        P ["preferences"]) →
  (∀ v, (member "uiState" data).2 = Some v → truthy_value v = true →
        P ["ui-state"]) →
  calls_all P (seedCache data).
Proof.
  intros Hpl Hpw Hcs Hc Hpref Hui. unfold App.seedCache.
  apply calls_all_bind; [apply calls_all_member|intros projects].
  apply calls_all_bind;
    [apply calls_all_if_truthy; intros ?; by apply calls_all_call|intros _].
  apply calls_all_bind; [apply calls_all_member|intros worktreesByProject].
  apply calls_all_bind; [|intros _].
  { apply calls_all_if_truthy. intros wbp.
    apply calls_all_bind; [apply calls_all_entries|intros es].
    apply calls_all_for_each. intros [projectId worktrees].
    by apply calls_all_call. }
  apply calls_all_bind; [apply calls_all_member|intros sessionsByWorktree].
  apply calls_all_bind; [|intros _].
  { apply calls_all_if_truthy. intros sbw.
    apply calls_all_bind; [apply calls_all_entries|intros es].
    apply calls_all_bind; [|intros _].
    { apply calls_all_for_each. intros [worktreeId sessionsData].
      apply calls_all_bind; [by apply calls_all_call|intros _].
      apply calls_all_bind; [apply calls_all_member|intros sessions].
      apply calls_all_bind; [apply calls_all_iterate|intros ss].
      apply calls_all_for_each, calls_all_session_flags. }
    apply calls_all_bind; [apply calls_all_member|intros wbp].
    apply calls_all_if_truthy. intros wbp'.
    apply calls_all_bind; [apply calls_all_values|intros vs].
    apply calls_all_for_each. intros worktrees.
    apply calls_all_bind; [apply calls_all_iterate|intros wts].
    apply calls_all_for_each, calls_all_worktree_path. }
  apply calls_all_bind; [apply calls_all_member|intros activeSessions].
  apply calls_all_bind; [|intros _].
  { apply calls_all_if_truthy. intros sessions.
    apply calls_all_bind; [apply calls_all_entries|intros es].
    apply calls_all_for_each. intros [sessionId session].
    by apply calls_all_call. }
  apply calls_all_bind_value; [apply calls_all_member|].
  intros preferences Hpreferences.
  apply calls_all_bind; [|intros _].
  { apply calls_all_if_truthy_value. intros Htruthy ?.
    apply calls_all_call. by eapply Hpref. }
  apply calls_all_bind_value; [apply calls_all_member|].
  intros uiState HuiState.
  apply calls_all_if_truthy_value. intros Htruthy ?.
  apply calls_all_call. by eapply Hui.
Qed.

Hypothesis projects_list_root : head projects_list = Some "projects".
Hypothesis projects_worktrees_root :
  ∀ projectId, head (projects_worktrees projectId) = Some "projects".
Hypothesis chat_sessions_root :
  ∀ worktreeId, head (chat_sessions worktreeId) = Some "chat".
Hypothesis chat_session_root :
  ∀ sessionId, head (chat_session sessionId) = Some "chat".

Lemma seeded_keys_root native data k :
  k ∈ seeded_keys native data → head k ∈ preloaded_roots.
Proof.
  unfold App.seeded_keys, App.seed_calls.
  destruct native; [by intros ?%elem_of_nil|].
  destruct data as [d|]; [|by intros ?%elem_of_nil].
  destruct (truthy_value (Some d)); [|by intros ?%elem_of_nil].
  intros (kv & -> & Hin)%list_elem_of_fmap.
  assert (Hall : calls_all (λ k, head k ∈ preloaded_roots) (seedCache d)).
  { apply seedCache_calls_all; unfold preloaded_roots;
      intros; rewrite ?projects_list_root, ?projects_worktrees_root,
                ?chat_sessions_root, ?chat_session_root, !elem_of_cons;
      cbn; auto 6. }
  unfold calls_all in Hall. rewrite Forall_forall in Hall. by apply Hall.
Qed.

(** C9, as the code has it.  In browser mode, when the socket connects,
    the pass marks invalid exactly the entries whose key does not start
    with ['projects'], ['preferences'], ['ui-state'] or ['chat'], and
    starts the refetch of those of them that are active; when such a
    refetch ends with data, the entry holds them, unmarked.  With project
    and chat keys that start with ['projects'] and ['chat'], every entry
    that the preloader has written, up to where [seedCache] has thrown if
    it has, is among those left alone, and is as [setQueryData] has left
    it; a key that the preloader has not written is left alone too when
    it starts with one of the four. *)
Theorem invalidation_goes_by_key_root data cache k :
  let seeded := on_preloaded false data cache in
  let after := on_ws_connected false true seeded in
  after !! k = (λ q, if predicate k then invalidated q else q) <$> seeded !! k
  ∧ (predicate k = false ↔ head k ∈ preloaded_roots)
  ∧ (k ∈ seeded_keys false data →
       predicate k = false ∧ fresh seeded k ∧ after !! k = seeded !! k)
  ∧ (k ∉ seeded_keys false data → seeded !! k = cache !! k)
  ∧ (∀ q value,
       predicate k = true → seeded !! k = Some q → isActive q = true →
       fetched k (Some value) after !! k
       = Some (mkQuery (Some value) false true false)).
Proof.
  intros seeded after.
  assert (Hafter : after !! k
            = (λ q, if predicate k then invalidated q else q)
                <$> seeded !! k) by apply invalidateQueries_lookup.
  split_and!; [exact Hafter|apply predicate_false_iff| | |].
  - intros Hin.
    assert (Hp : predicate k = false)
      by by eapply predicate_false_iff, seeded_keys_root.
    split_and!; [done|by apply perform_fresh|].
    rewrite Hafter, Hp. by destruct (seeded !! k).
  - intros Hnotin. by apply perform_other.
  - intros q value Hp Hq Hact. unfold fetched.
    rewrite Hafter, Hq, Hp. cbn. rewrite Hact. cbn.
    by rewrite lookup_insert_eq.
Qed.

End KeyBuilders.

(** ** Scenarios *)

(** C9 as stated fails here, whatever the project and chat keys are: the
    preloader writes the entry of [chatQueryKeys.sessions('w1')] and not
    the entry with the counts, and the pass cannot mark the second without
    marking the first, since both keys start with the same segment. *)
Lemma with_counts_entry_refutes_exactness :
  ¬ ∃ projects_list projects_worktrees chat_sessions chat_session,
      let data := Some sessions_of_w1 in
      let seeded :=
        on_preloaded projects_list projects_worktrees chat_sessions
          chat_session false data
          {[ with_counts chat_sessions
             := mkQuery (Some no_sessions) false true false ]} in
      let after := on_ws_connected false true seeded in
      ∀ k, is_Some (seeded !! k) →
        (isInvalidated <$> after !! k = Some true
         ↔ k ∉ seeded_keys projects_list projects_worktrees chat_sessions
                 chat_session false data).
Proof.
  intros (pl & pw & cs & c1 & H). cbv zeta in H.
  assert (Hcalls : seed_calls pl pw cs c1 false (Some sessions_of_w1)
                   = [(cs "w1", no_sessions)]) by reflexivity.
  unfold seeded_keys, on_preloaded in H. rewrite Hcalls in H. cbn [fmap list_fmap fst] in H.
  assert (Hne : with_counts cs ∉ [cs "w1"]).
  { intros Heq%list_elem_of_singleton. apply (f_equal length) in Heq.
    unfold with_counts in Heq. rewrite length_app in Heq. simpl in Heq. lia. }
  set (cache := {[ with_counts cs := mkQuery (Some no_sessions) false true false ]}
         : gmap (list string) Query) in *.
  set (seeded := perform [(cs "w1", no_sessions)] cache) in *.
  assert (Hafter : ∀ k,
            on_ws_connected false true seeded !! k
            = (λ q, if predicate k then invalidated q else q)
                <$> seeded !! k)
    by (intros k; apply invalidateQueries_lookup).
  (* the entry with the counts is not seeded, so the claim has it marked *)
  assert (Hextra : seeded !! with_counts cs
                   = Some (mkQuery (Some no_sessions) false true false)).
  { subst seeded. rewrite perform_other by done. apply lookup_singleton_eq. }
  assert (Hmarked : predicate (with_counts cs) = true).
  { pose proof (H (with_counts cs)) as Hk.
    rewrite Hafter, Hextra in Hk. cbn in Hk.
    destruct (predicate (with_counts cs)); [done|].
    cbn in Hk. by apply Hk in Hne; [|eauto]. }
  (* the seeded entry is fresh, so the claim has it left alone *)
  destruct (perform_fresh [(cs "w1", no_sessions)] cache (cs "w1"))
    as (q & Hq & _ & Hfresh); [by apply list_elem_of_singleton|].
  fold seeded in Hq.
  assert (Hkept : predicate (cs "w1") = false).
  { pose proof (H (cs "w1")) as Hk.
    rewrite Hafter, Hq in Hk. cbn in Hk.
    destruct (predicate (cs "w1")); [|done].
    cbn in Hk. destruct (Hk ltac:(eauto)) as [Hk1 _].
    destruct Hk1; [done|]. by apply list_elem_of_singleton. }
  apply predicate_false_iff in Hkept.
  assert (Hhead : head (with_counts cs) = head (cs "w1")).
  { unfold with_counts. destruct (cs "w1"); [|done].
    cbn in Hkept. unfold preloaded_roots in Hkept.
    rewrite !elem_of_cons in Hkept.
    destruct Hkept as [?|[?|[?|[?|?%elem_of_nil]]]]; done. }
  rewrite <- Hhead in Hkept. apply predicate_false_iff in Hkept. congruence.
Qed.

Lemma invalidation_goes_by_key_root_witness :
  let seeded :=
    on_preloaded sample_projects_list sample_projects_worktrees
      sample_chat_sessions sample_chat_session false (Some sample_snapshot)
      {[ ["claude-cli"; "skills"] := mkQuery (Some (JArray [])) false true false ]} in
  let after := on_ws_connected false true seeded in
  after !! ["chat"; "sessions"; "w1"]
  = Some (mkQuery (Some no_sessions) false false false)
  ∧ after !! ["claude-cli"; "skills"]
    = Some (mkQuery (Some (JArray [])) true true true)
  ∧ fetched ["claude-cli"; "skills"] (Some (JArray [JString "commit"])) after
    !! ["claude-cli"; "skills"]
    = Some (mkQuery (Some (JArray [JString "commit"])) false true false).
Proof.
  intros seeded after.
  destruct (invalidation_goes_by_key_root sample_projects_list
              sample_projects_worktrees sample_chat_sessions
              sample_chat_session eq_refl (λ _, eq_refl) (λ _, eq_refl)
              (λ _, eq_refl) (Some sample_snapshot)
              {[ ["claude-cli"; "skills"]
                 := mkQuery (Some (JArray [])) false true false ]}
              ["chat"; "sessions"; "w1"]) as (_ & _ & Hseeded & _).
  destruct (invalidation_goes_by_key_root sample_projects_list
              sample_projects_worktrees sample_chat_sessions
              sample_chat_session eq_refl (λ _, eq_refl) (λ _, eq_refl)
              (λ _, eq_refl) (Some sample_snapshot)
              {[ ["claude-cli"; "skills"]
                 := mkQuery (Some (JArray [])) false true false ]}
              ["claude-cli"; "skills"]) as (Hother & _ & _ & _ & Hfetched).
  assert (Hin : ["chat"; "sessions"; "w1"]
                ∈ seeded_keys sample_projects_list sample_projects_worktrees
                    sample_chat_sessions sample_chat_session false
                    (Some sample_snapshot)).
  { apply (bool_decide_unpack _). vm_compute. exact I. }
  destruct (Hseeded Hin) as (_ & _ & Hkept).
  split_and!.
  - etrans; [exact Hkept|]. vm_compute. reflexivity.
  - etrans; [exact Hother|]. vm_compute. reflexivity.
  - apply (Hfetched (mkQuery (Some (JArray [])) false true false));
      vm_compute; reflexivity.
Defined.

End AppFacts.

(** * The transport: further properties *)

Module WsTransportLaws.

Import WsTransport WsTransportFacts.

Section Handlers.

Variable handler_throws : Handler → option JsonValue → bool.

#[local] Abbreviation call_handler :=
  (WsTransport.call_handler handler_throws).
#[local] Abbreviation handleMessage :=
  (WsTransport.handleMessage handler_throws).
#[local] Abbreviation onmessage := (WsTransport.onmessage handler_throws).
#[local] Abbreviation step := (WsTransport.step handler_throws).
#[local] Abbreviation run := (WsTransport.run handler_throws).

(** ** Every turn is a sequence of writes *)

Lemma connect_turns s : rtc turn s (connect s).
Proof.
  unfold connect.
  destruct (_connecting s) eqn:E1; [done|].
  destruct (ws_readyState_is OPEN s) eqn:E2; [done|].
  destruct (ws_readyState_is CONNECTING s) eqn:E3; [done|].
  cbn [orb]. assert (Hmay : may_connect s) by done.
  destruct (location_token s) as [u|] eqn:Eloc; cbn [truthy].
  - destruct (String.eqb u "") eqn:Eu; cbn [negb].
    + destruct (storage_token s) as [t|] eqn:Esto; cbn [truthy].
      * destruct (String.eqb t "") eqn:Et; cbn.
        -- apply rtc_once, turn_no_token; try done.
           ++ by rewrite Eloc; cbn; rewrite Eu.
           ++ by rewrite Esto; cbn; rewrite Et.
        -- rewrite Et. apply rtc_once.
           apply (turn_check_stored s t); try done.
           ++ by rewrite Eloc; cbn; rewrite Eu.
           ++ by apply String.eqb_neq.
      * cbn. apply rtc_once, turn_no_token; try done.
        -- by rewrite Eloc; cbn; rewrite Eu.
        -- by rewrite Esto.
    + cbn. rewrite Eu. apply rtc_once.
      apply (turn_check_url s u); try done. by apply String.eqb_neq.
  - destruct (storage_token s) as [t|] eqn:Esto; cbn [truthy].
    + destruct (String.eqb t "") eqn:Et; cbn.
      * apply rtc_once, turn_no_token; try done.
        -- by rewrite Eloc.
        -- by rewrite Esto; cbn; rewrite Et.
      * rewrite Et. apply rtc_once.
        apply (turn_check_stored s t); try done.
        -- by rewrite Eloc.
        -- by apply String.eqb_neq.
    + cbn. apply rtc_once, turn_no_token; try done.
      -- by rewrite Eloc.
      -- by rewrite Esto.
Qed.

Lemma scheduleReconnect_turns s : rtc turn s (scheduleReconnect s).
Proof.
  unfold scheduleReconnect.
  destruct (reconnectTimer s) eqn:E1; [done|].
  destruct (truthy (_authError s)) eqn:E2; [done|].
  by apply rtc_once, turn_schedule.
Qed.

Lemma ws_send_open d s w :
  ws s = Some w → readyState w = OPEN →
  ws_send d s
  = Some (set_ws (Some (mkWebSocket (ws_token w) OPEN (sent w ++ [d]))) s).
Proof. unfold ws_send. by intros -> ->. Qed.

Lemma invoke_turns id command args s :
  rtc turn s (invoke id command args s).2.
Proof.
  unfold invoke. cbn [setTimeout].
  match goal with |- context [if ?b then _ else _] =>
    change b with (ws_readyState_is OPEN s) end.
  eapply rtc_l; [apply (turn_register s id command)|].
  destruct (ws_readyState_is OPEN s) eqn:E; cbn [snd].
  - unfold ws_readyState_is in E. destruct (ws s) as [w|] eqn:Ews; [|done].
    apply bool_decide_eq_true in E.
    erewrite (ws_send_open _ _ w); [|done..]. cbn [from_option Datatypes.id].
    by apply rtc_once, (turn_send _ _ w).
  - eapply rtc_l; [|apply connect_turns]. by apply turn_enqueue.
Qed.

Lemma fan_out_shape event payload hs s :
  ∃ dl cl,
    foldl (call_handler event payload) s hs
    = set_console cl (set_delivered dl s).
Proof.
  revert s. induction hs as [|h hs IH]; intros s; cbn [foldl].
  - by exists (delivered s), (console s).
  - destruct (IH (call_handler event payload s h)) as (dl & cl & ->).
    unfold WsTransport.call_handler. destruct (handler_throws h payload);
      by eexists _, _.
Qed.

Lemma handleMessage_turns msg s : rtc turn s (handleMessage msg s).
Proof.
  unfold WsTransport.handleMessage.
  repeat case_match; try done;
    try (apply rtc_once; by eapply (turn_reply s)).
  destruct (fan_out_shape (default "" (msg_event msg)) (msg_payload msg)
              l s) as (dl & cl & ->).
  apply rtc_once, turn_fan_out.
Qed.

Lemma listen_turns event h s : rtc turn s (listen event h s).
Proof.
  unfold listen. eapply rtc_l; [|apply connect_turns].
  destruct (listeners s !! event) as [hs|] eqn:E; cbn.
  - rewrite E. apply turn_listeners.
  - rewrite lookup_insert_eq.
    exact (turn_listeners s (<[event := set_add h []]>
                               (<[event := []]> (listeners s)))).
Qed.

Lemma unlisten_turns event h s : rtc turn s (unlisten event h s).
Proof.
  unfold unlisten. destruct (listeners s !! event) as [hs|] eqn:E; cbn.
  - rewrite lookup_insert_eq.
    destruct (set_delete h hs) as [|h' hs'].
    + apply rtc_once.
      exact (turn_listeners s (delete event
                                 (<[event := []]> (listeners s)))).
    + apply rtc_once, turn_listeners.
  - by rewrite E.
Qed.

Lemma set_connecting_scheduleReconnect v s :
  set_connecting v (scheduleReconnect s)
  = scheduleReconnect (set_connecting v s).
Proof.
  unfold scheduleReconnect.
  change (reconnectTimer (set_connecting v s)) with (reconnectTimer s).
  change (_authError (set_connecting v s)) with (_authError s).
  destruct (reconnectTimer s); [done|]. by destruct (truthy (_authError s)).
Qed.

Lemma step_turns s ev :
  (∃ l, step s ev = set_subscribers l s) ∨ rtc turn s (step s ev).
Proof.
  destruct ev; cbn [WsTransport.step];
    [right|right|right|left|left|right|right|right|right|right|right|right
    |right|right|right].
  - apply invoke_turns.
  - apply listen_turns.
  - apply unlisten_turns.
  - by eexists.
  - by eexists.
  - apply connect_turns.
  - destruct (validating s) as [token|] eqn:E; [|done].
    destruct r; cbn [validateAndConnect].
    + by apply rtc_once, (turn_validated s token).
    + by apply rtc_once, (turn_rejected s token).
    + rewrite set_connecting_scheduleReconnect.
      eapply rtc_l; [by apply (turn_unreachable s token)|].
      apply scheduleReconnect_turns.
  - unfold ws_readyState_is.
    destruct (ws s) as [w|] eqn:Ews; [|done].
    case_bool_decide as Hc; [|done].
    rewrite (set_readyState_Some _ _ _ Ews).
    rewrite (onopen_open _ (mkWebSocket (ws_token w) OPEN (sent w))) by done.
    by apply rtc_once, (turn_open s w).
  - destruct parsed; [apply handleMessage_turns|done].
  - unfold ws_readyState_is.
    destruct (ws s) as [w|] eqn:Ews; [|done].
    case_bool_decide as Hc; [|done].
    rewrite (set_readyState_Some _ _ _ Ews).
    by apply rtc_once, (turn_closing s w).
  - destruct (ws s) as [w|] eqn:Ews; [|done]. case_decide as Hc; [done|].
    unfold onclose. rewrite (set_readyState_Some _ _ _ Ews).
    eapply rtc_l; [by apply (turn_closed s w)|]. apply scheduleReconnect_turns.
  - unfold onclose. eapply rtc_l; [apply turn_stale_close|].
    apply scheduleReconnect_turns.
  - done.
  - destruct (timers s !! t) as [[D cb]|] eqn:E; [|done].
    case_bool_decide as Hdue; [|done]. cbn in Hdue.
    destruct cb as [id command p|]; cbn [run_callback callback].
    + by apply rtc_once, (turn_expire s t D).
    + eapply rtc_l; [by apply (turn_reconnect s t D)|]. apply connect_turns.
  - repeat case_bool_decide; cbn [andb]; try done.
    by apply rtc_once, turn_tick.
Qed.

(** The writes keep the correlation invariant. *)
Lemma turn_wf s s' : turn s s' → wf s → wf s'.
Proof.
  intros Hturn Hwf. destruct Hturn; try exact Hwf.
  - by apply WF_invoke.
  - apply WF_setTimeout_reconnect; [done|apply backoff_delay_nonneg].
  - destruct (wf_pending_timer _ _ _ _ _ _ Hwf _ _ ltac:(eassumption))
      as (cmd & D & Ht).
    eapply WF_settle; [exact Hwf|exact Ht].
  - eapply WF_settle; [exact Hwf|eassumption].
  - eapply WF_retire_reconnect; [exact Hwf|eassumption].
  - by apply WF_tick.
Qed.

(** A property that the writes keep, where the correlation invariant
    holds, and that does not read the subscriber set, is an invariant of
    the states the transport can reach. *)
Lemma turns_ind (P : State → Prop) s s' :
  (∀ s s', turn s s' → wf s → P s → P s') →
  rtc turn s s' → wf s → P s → P s'.
Proof.
  intros Hstep Hrtc. induction Hrtc as [|s1 s2 s3 H12 _ IH]; [done|].
  intros Hwf HP. apply IH; [by eapply turn_wf|by eapply Hstep].
Qed.

Lemma reachable_ind (P : State → Prop) urlToken stored evs :
  P (init urlToken stored) →
  (∀ s l, P s → P (set_subscribers l s)) →
  (∀ s s', turn s s' → wf s → P s → P s') →
  P (run (init urlToken stored) evs).
Proof.
  intros Hinit Hsub Hstep.
  assert (H : ∀ evs s, wf s → P s → P (run s evs)).
  { clear evs. induction evs as [|ev evs IH]; intros s Hwf HP; [done|].
    cbn [WsTransport.run foldl]. apply IH; [by apply wf_step|].
    destruct (step_turns s ev) as [[l ->]|Hturns]; [by apply Hsub|].
    by apply (turns_ind P s). }
  apply H; [apply wf_init|done].
Qed.

(** ** Reconnects *)

Lemma backoff_delay_le attempt : backoff_delay attempt ≤ 30000.
Proof. unfold backoff_delay. lia. Qed.

Lemma reconnect_pending_turn s s' :
  turn s s' → wf s →
  (∀ t, reconnect_pending s t ↔ reconnectTimer s = Some t) →
  ∀ t, reconnect_pending s' t ↔ reconnectTimer s' = Some t.
Proof.
  intros Hturn Hwf HP. destruct Hturn; try exact HP; intros t0;
    unfold reconnect_pending in *; cbn.
  - (* register *)
    rewrite <- HP. split; intros [D' Ht]; exists D'.
    + apply lookup_insert_Some in Ht as [[_ ?]|[_ ?]]; done.
    + rewrite lookup_insert_ne; [done|]. intros <-.
      apply (wf_timer_fresh _ _ _ _ _ _ Hwf) in Ht. lia.
  - (* schedule *)
    split.
    + intros [D' [[-> _]|[Hne Ht]]%lookup_insert_Some]; [done|].
      assert (reconnectTimer s = Some t0) as Hsome by (apply HP; eauto).
      congruence.
    + intros [= <-]. rewrite lookup_insert_eq. eauto.
  - (* reply *)
    rewrite <- HP.
    destruct (wf_pending_timer _ _ _ _ _ _ Hwf _ _ ltac:(eassumption))
      as (cmd & D0 & Hpr).
    split; intros [D' Ht]; exists D'.
    + by apply lookup_delete_Some in Ht as [_ ?].
    + rewrite lookup_delete_ne; [done|]. intros <-. congruence.
  - (* expiry *)
    rewrite <- HP. split; intros [D' Ht]; exists D'.
    + by apply lookup_delete_Some in Ht as [_ ?].
    + rewrite lookup_delete_ne; [done|]. intros <-. congruence.
  - (* the reconnect fires *)
    split; [|done]. intros [D' [Hne Ht]%lookup_delete_Some].
    assert (reconnectTimer s = Some t) as H1 by (apply HP; eauto).
    assert (reconnectTimer s = Some t0) as H2 by (apply HP; eauto).
    congruence.
Qed.

(** X1.  At every moment the reconnects that are scheduled and have not
    fired are exactly the one whose handle is in [reconnectTimer]: there is
    never a second one, and the handle never outlives its timer. *)
Theorem at_most_one_reconnect_scheduled urlToken stored evs t :
  let s := run (init urlToken stored) evs in
  reconnect_pending s t ↔ reconnectTimer s = Some t.
Proof.
  cbn zeta. revert t.
  apply (reachable_ind
           (λ s, ∀ t, reconnect_pending s t ↔ reconnectTimer s = Some t)).
  - intros t. cbn. split; [intros [D H]|]; done.
  - done.
  - apply reconnect_pending_turn.
Qed.

Lemma horizon_turn s s' :
  turn s s' → wf s →
  map_Forall (λ _ tm, deadline tm ≤ now s + horizon (callback tm)) (timers s) →
  map_Forall (λ _ tm, deadline tm ≤ now s' + horizon (callback tm)) (timers s').
Proof.
  intros Hturn Hwf HP. destruct Hturn; try exact HP; cbn.
  - apply map_Forall_insert_2; [apply Z.le_refl|done].
  - apply map_Forall_insert_2; [|done].
    apply Z.add_le_mono_l, backoff_delay_le.
  - by apply map_Forall_delete.
  - by apply map_Forall_delete.
  - by apply map_Forall_delete.
  - intros t tm Ht. specialize (HP t tm Ht). cbn in HP.
    etrans; [exact HP|]. apply Z.add_le_mono_r.
    rewrite <- (Z.add_0_r (now s)) at 1. by apply Z.add_le_mono_l.
Qed.

(** X2.  No timer of the transport is set further ahead than its kind
    allows: a request is given up at most 60 seconds from now, and a
    reconnect is at most 30 seconds away, whatever the attempt counter. *)
Theorem timers_within_horizon urlToken stored evs t tm :
  let s := run (init urlToken stored) evs in
  timers s !! t = Some tm → deadline tm ≤ now s + horizon (callback tm).
Proof.
  cbn zeta. revert t tm.
  apply (reachable_ind
           (λ s, map_Forall
                   (λ _ tm, deadline tm ≤ now s + horizon (callback tm))
                   (timers s))).
  - cbn. apply map_Forall_empty.
  - done.
  - apply horizon_turn.
Qed.

(** ** The token check and the socket *)

Lemma token_inv_turn s s' : turn s s' → wf s → token_inv s → token_inv s'.
Proof.
  intros Hturn _ [Hc Hv Hs Hl].
  destruct Hturn; try (by split).
  - (* send *)
    split; try done.
    + intros token Htok. destruct (Hv token Htok) as (? & ? & Hlive).
      unfold live, ws_readyState_is in Hlive. rewrite H in Hlive.
      rewrite H0 in Hlive. done.
    + intros w' [= <-]. exact (Hs w H).
    + intros w' [= <-] _. apply (Hl w H).
      unfold live, ws_readyState_is. rewrite H, H0. done.
  - (* URL token *)
    destruct H as (Hc0 & Ho & Hcg).
    split; cbn.
    + split; [eauto|done].
    + intros ? [= <-]. split_and!; try done.
      unfold live. change (ws_readyState_is ?r (set_validating _ _))
        with (ws_readyState_is r s). by rewrite Ho, Hcg.
    + done.
    + intros w Hw Hlive. exfalso. revert Hlive. unfold live.
      change (ws_readyState_is ?r (set_validating _ _))
        with (ws_readyState_is r s). by rewrite Ho, Hcg.
  - (* stored token *)
    destruct H as (Hc0 & Ho & Hcg).
    split; cbn.
    + split; [eauto|done].
    + intros ? [= <-]. split_and!; try done.
      unfold live. change (ws_readyState_is ?r (set_validating _ _))
        with (ws_readyState_is r s). by rewrite Ho, Hcg.
    + done.
    + intros w Hw Hlive. exfalso. revert Hlive. unfold live.
      change (ws_readyState_is ?r (set_validating _ _))
        with (ws_readyState_is r s). by rewrite Ho, Hcg.
  - (* rejected *)
    destruct (Hv token H) as (Hne & Hsto & Hlive).
    split; cbn.
    + split; [done|]. by intros [? ?].
    + done.
    + done.
    + intros w Hw Hlive'. exfalso. revert Hlive'. unfold live.
      change (ws_readyState_is ?r (set_connecting _ _))
        with (ws_readyState_is r s). fold (live s). by rewrite Hlive.
  - (* unreachable *)
    destruct (Hv token H) as (Hne & Hsto & Hlive).
    split; cbn.
    + split; [done|]. by intros [? ?].
    + done.
    + done.
    + intros w Hw Hlive'. exfalso. revert Hlive'. unfold live.
      change (ws_readyState_is ?r (set_connecting _ _))
        with (ws_readyState_is r s). fold (live s). by rewrite Hlive.
  - (* validated *)
    destruct (Hv token H) as (Hne & Hsto & Hlive).
    split; cbn.
    + split; [done|]. by intros [? ?].
    + done.
    + by intros w [= <-].
    + by intros w [= <-] _.
  - (* open *)
    assert (Hlive : live s = true).
    { unfold live, ws_readyState_is. rewrite H, H0. done. }
    split; cbn.
    + done.
    + intros token Htok. destruct (Hv token Htok) as (? & ? & Hl').
      congruence.
    + intros w' [= <-]. exact (Hs w H).
    + intros w' [= <-] _. exact (Hl w H Hlive).
  - (* closing *)
    assert (Hlive : live s = true).
    { unfold live, ws_readyState_is. rewrite H, H0. done. }
    split; cbn.
    + done.
    + intros token Htok. destruct (Hv token Htok) as (? & ? & Hl').
      congruence.
    + intros w' [= <-]. exact (Hs w H).
    + by intros w' [= <-] ?.
  - (* closed *)
    split; cbn.
    + done.
    + intros token Htok. destruct (Hv token Htok) as (? & ? & Hl').
      done.
    + intros w' [= <-]. exact (Hs w H).
    + by intros w' [= <-] ?.
Qed.

Lemma token_inv_run urlToken stored evs :
  token_inv (run (init urlToken stored) evs).
Proof.
  apply (reachable_ind token_inv); [| |apply token_inv_turn].
  - split; cbn; try done.
  - intros s l [? ? ? ?]. by split.
Qed.

(** X3.  The [_connecting] flag is set exactly while a call of
    [validateAndConnect] is waiting for the answer of [/api/auth]: the
    flag cannot stay set after the check has ended, however it ended. *)
Theorem connecting_flag_tracks_token_check urlToken stored evs :
  let s := run (init urlToken stored) evs in
  _connecting s = true ↔ is_Some (validating s).
Proof. apply token_inv_run. Qed.

(** X4.  A token is only checked when it is not empty and has been
    persisted, and never while the socket is open or connecting. *)
Theorem checked_token_is_persisted urlToken stored evs token :
  let s := run (init urlToken stored) evs in
  validating s = Some token →
  token ≠ "" ∧ storage_token s = Some token ∧ live s = false.
Proof. cbn zeta. apply token_inv_run. Qed.

(** X5.  A socket is never created without a token, and as long as it is
    open or connecting its token is the persisted one. *)
Theorem socket_token_is_persisted urlToken stored evs w :
  let s := run (init urlToken stored) evs in
  ws s = Some w →
  ws_token w ≠ "" ∧ (live s = true → storage_token s = Some (ws_token w)).
Proof.
  cbn zeta. intros Hw.
  destruct (token_inv_run urlToken stored evs) as [_ _ Hs Hl].
  split; [by apply Hs|]. by apply Hl.
Qed.

(** ** The queue and the flags *)

Lemma queue_turn s s' :
  turn s s' → wf s →
  (ws_readyState_is OPEN s = true → queue s = []) →
  ws_readyState_is OPEN s' = true → queue s' = [].
Proof.
  intros Hturn _ HP. destruct Hturn; try exact HP; try done; cbn.
  - intros _. apply HP. unfold ws_readyState_is. rewrite H, H0. done.
  - change (ws_readyState_is OPEN (set_queue ?q s))
      with (ws_readyState_is OPEN s). congruence.
Qed.

(** X6.  While the socket is open the queue is empty: a request waits in
    the queue only when it could not be written. *)
Theorem open_socket_has_empty_queue urlToken stored evs :
  let s := run (init urlToken stored) evs in
  ws_readyState_is OPEN s = true → queue s = [].
Proof.
  cbn zeta.
  apply (reachable_ind (λ s, ws_readyState_is OPEN s = true → queue s = []));
    [done|done|apply queue_turn].
Qed.

Lemma mirror_turn s s' :
  turn s s' → wf s →
  env_wsConnected s = _connected s → env_wsConnected s' = _connected s'.
Proof. intros Hturn _ HP. by destruct Hturn. Qed.

(** X7.  In a browser, what [hasBackend()] answers is what the connection
    hook shows: the flag of environment.ts and the [_connected] field of
    the transport are written together and never differ.  In the native
    application [hasBackend()] is true whatever the transport does. *)
Theorem hasBackend_mirrors_connection urlToken stored evs :
  let s := run (init urlToken stored) evs in
  hasBackend false s = getSnapshot s ∧ hasBackend true s = true.
Proof.
  cbn zeta. split; [|done]. unfold hasBackend, getSnapshot.
  by apply (reachable_ind (λ s, env_wsConnected s = _connected s));
    [| |apply mirror_turn].
Qed.

(** ** Replies *)

Lemma handleMessage_reply_empty msg s :
  is_reply msg → msg_id msg = Some "" → handleMessage msg s = s.
Proof.
  intros Hty Hid. unfold WsTransport.handleMessage. rewrite Hid.
  by destruct Hty as [-> | ->].
Qed.

(** X8.  A reply touches the request it names and no other: the entry of
    any other pending request, its timer and its promise are as they
    were, so the promise is still unsettled. *)
Theorem reply_leaves_other_requests urlToken stored evs msg id id' pr' :
  let s := run (init urlToken stored) evs in
  let s' := step s (EvMessage (Some msg)) in
  is_reply msg → msg_id msg = Some id → id ≠ id' →
  pending s !! id' = Some pr' →
  pending s' !! id' = Some pr'
  ∧ timers s' !! timeout pr' = timers s !! timeout pr'
  ∧ promise pr' ∉ settled_promises s'.
Proof.
  intros s s' Hty Hid Hne Hpr'. subst s'. cbn [WsTransport.step onmessage].
  assert (Hwf : wf s) by apply wf_run, wf_init.
  destruct (wf_pending_timer _ _ _ _ _ _ Hwf _ _ Hpr') as (cmd' & D' & Ht').
  destruct (wf_timer_promise _ _ _ _ _ _ Hwf _ _ _ _ _ Ht') as [_ Hfresh].
  assert (Hsame : handleMessage msg s = s →
    pending (handleMessage msg s) !! id' = Some pr'
    ∧ timers (handleMessage msg s) !! timeout pr' = timers s !! timeout pr'
    ∧ promise pr' ∉ settled_promises (handleMessage msg s)).
  { intros ->. done. }
  destruct (pending s !! id) as [pr|] eqn:Hpr;
    [|by apply Hsame, (handleMessage_unknown _ _ id)].
  destruct (decide (id = "")) as [->|Hid'];
    [by apply Hsame, handleMessage_reply_empty|].
  rewrite (handleMessage_reply _ _ id pr) by done.
  destruct (wf_pending_timer _ _ _ _ _ _ Hwf _ _ Hpr) as (cmd & D & Ht).
  unfold settled_promises. cbn. split_and!.
  - by rewrite lookup_delete_ne.
  - rewrite lookup_delete_ne; [done|]. intros Heq. rewrite Heq in Ht.
    congruence.
  - rewrite fmap_app. cbn. intros [Hin|Hin%list_elem_of_singleton]%elem_of_app;
      [done|].
    rewrite Hin in Ht'.
    pose proof (wf_timer_inj _ _ _ _ _ _ Hwf _ _ _ _ _ _ _ _ _ Ht Ht') as Heq.
    rewrite Heq in Ht. congruence.
Qed.

(** ** Listeners *)

Lemma set_add_NoDup h hs : NoDup hs → NoDup (set_add h hs).
Proof.
  intros Hnd. unfold set_add. case_decide; [done|].
  apply NoDup_app. split_and!; [done| |apply NoDup_singleton].
  by intros x Hx ->%list_elem_of_singleton.
Qed.

Lemma sets_nodup_step s ev : sets_nodup s → sets_nodup (step s ev).
Proof.
  intros Hs.
  destruct ev;
    try (intros e hs; rewrite listeners_step by done; by apply Hs).
  - cbn [WsTransport.step]. intros e hs. rewrite listen_listeners.
    intros [[<- <-]|[_ H]]%lookup_insert_Some; [|by eapply Hs].
    apply set_add_NoDup.
    destruct (listeners s !! event) as [hs0|] eqn:E; cbn;
      [by eapply Hs|apply NoDup_nil_2].
  - cbn [WsTransport.step]. intros e hs. rewrite unlisten_listeners.
    destruct (listeners s !! event) as [hs0|] eqn:E; [|by apply Hs].
    case_decide.
    + intros [_ H']%lookup_delete_Some. by eapply Hs.
    + intros [[<- <-]|[_ H']]%lookup_insert_Some; [|by eapply Hs].
      apply NoDup_filter. by eapply Hs.
Qed.

Lemma sets_nodup_run urlToken stored evs :
  sets_nodup (run (init urlToken stored) evs).
Proof.
  assert (H : ∀ evs s, sets_nodup s → sets_nodup (run s evs)).
  { clear evs. induction evs as [|ev evs IH]; intros s Hs; [done|].
    cbn [WsTransport.run foldl]. by apply IH, sets_nodup_step. }
  apply H. by intros e hs.
Qed.

(** What an event message delivers: the payload to the handlers of the
    event, in the order of the set. *)
Lemma event_delivered event msg s :
  is_event event msg →
  delivered (handleMessage msg s)
  = delivered s
    ++ ((λ h, (h, msg_payload msg))
          <$> (if truthy (Some event)
               then default [] (listeners s !! event) else [])).
Proof.
  intros [Hty Hev]. unfold WsTransport.handleMessage. rewrite Hty, Hev.
  cbn [String.eqb Ascii.eqb Bool.eqb andb].
  change (default "" (Some event)) with event.
  destruct (truthy (Some event)); [|by rewrite app_nil_r].
  destruct (listeners s !! event) as [hs|]; cbn [from_option Datatypes.id];
    [|by rewrite app_nil_r].
  apply fan_out_delivered.
Qed.

(** X9.  An event message calls a handler at most once, however often
    the handler was registered for the event: what it delivers is its
    payload, to a list of handlers without repetition. *)
Theorem event_calls_each_handler_once urlToken stored evs event msg :
  let s := run (init urlToken stored) evs in
  is_event event msg →
  ∃ hs, NoDup hs
        ∧ delivered (step s (EvMessage (Some msg)))
          = delivered s ++ ((λ h, (h, msg_payload msg)) <$> hs).
Proof.
  intros s Hev. cbn [WsTransport.step onmessage].
  rewrite (event_delivered event) by done.
  eexists. split; [|done].
  destruct (truthy (Some event)); [|apply NoDup_nil_2].
  destruct (listeners s !! event) as [hs|] eqn:E; cbn;
    [|apply NoDup_nil_2].
  by eapply (sets_nodup_run urlToken stored evs).
Qed.

Lemma unregistered_step event h s ev :
  ev ≠ EvListen event h →
  unregistered event h s → unregistered event h (step s ev).
Proof.
  intros Hev Hs. unfold unregistered in *.
  destruct ev; try (by rewrite listeners_step by done).
  - cbn [WsTransport.step]. rewrite listen_listeners.
    destruct (decide (event0 = event)) as [->|Hne].
    + rewrite lookup_insert_eq. cbn. unfold set_add. case_decide; [done|].
      intros [?|Heq%list_elem_of_singleton]%elem_of_app; [done|].
      apply Hev. by rewrite Heq.
    + by rewrite lookup_insert_ne.
  - cbn [WsTransport.step]. rewrite unlisten_listeners.
    destruct (listeners s !! event0) as [hs0|] eqn:E; [|done].
    destruct (decide (event0 = event)) as [->|Hne].
    + rewrite E in Hs. cbn in Hs. case_decide.
      * rewrite lookup_delete_eq. cbn. apply not_elem_of_nil.
      * rewrite lookup_insert_eq. cbn. unfold set_delete.
        by intros [_ ?]%list_elem_of_filter.
    + case_decide; [by rewrite lookup_delete_ne|by rewrite lookup_insert_ne].
Qed.

Lemma unregistered_unlisten event h s :
  unregistered event h (unlisten event h s).
Proof.
  unfold unregistered. rewrite unlisten_listeners.
  destruct (listeners s !! event) as [hs|] eqn:E.
  - case_decide.
    + rewrite lookup_delete_eq. apply not_elem_of_nil.
    + rewrite lookup_insert_eq. cbn. unfold set_delete.
      intros [? _]%list_elem_of_filter. done.
  - rewrite E. apply not_elem_of_nil.
Qed.

(** X10.  Once the closure returned by [listen event h] has run, an
    event message for [event] does not call [h], whatever has happened in
    between, until [h] is registered for [event] again. *)
Theorem unlisten_stops_delivery s event h evs msg :
  let s1 := run (unlisten event h s) evs in
  Forall (λ ev, ev ≠ EvListen event h) evs →
  is_event event msg →
  ∃ hs, (h ∉ hs)
        ∧ delivered (step s1 (EvMessage (Some msg)))
          = delivered s1 ++ ((λ h', (h', msg_payload msg)) <$> hs).
Proof.
  intros s1 Hevs Hev. cbn [WsTransport.step onmessage].
  rewrite (event_delivered event) by done.
  eexists. split; [|done].
  destruct (truthy (Some event)); [|apply not_elem_of_nil].
  subst s1. generalize (unregistered_unlisten event h s).
  generalize (unlisten event h s). clear s.
  induction evs as [|ev evs IH]; intros s Hs; [done|].
  apply Forall_cons in Hevs as [Hev1 Hevs]. cbn [WsTransport.run foldl].
  apply IH; [done|]. by apply unregistered_step.
Qed.

Lemma set_delete_absent h hs : h ∉ hs → set_delete h hs = hs.
Proof.
  unfold set_delete. induction hs as [|h' hs IH]; [done|].
  intros [Hne Hin]%not_elem_of_cons.
  rewrite filter_cons_True by done. by rewrite IH.
Qed.

Lemma set_delete_added h hs : h ∉ hs → set_delete h (hs ++ [h]) = hs.
Proof.
  intros Hin. unfold set_delete. rewrite filter_app.
  fold (set_delete h hs). rewrite set_delete_absent by done.
  rewrite filter_cons_False by naive_solver. apply app_nil_r.
Qed.

(** X11.  Registering a handler a second time leaves the listener map as
    it is, and the closure returned by [listen] undoes the registration:
    when [h] was not registered for [event], the map after [listen] and
    the closure is the map before. *)
Theorem listen_then_unlisten_restores urlToken stored evs event h :
  let s := run (init urlToken stored) evs in
  listeners (listen event h (listen event h s)) = listeners (listen event h s)
  ∧ (unregistered event h s →
     listeners (unlisten event h (listen event h s)) = listeners s).
Proof.
  intros s. split.
  - rewrite !listen_listeners, lookup_insert_eq. cbn.
    rewrite insert_insert_eq. f_equal. unfold set_add at 1.
    case_decide as Hin; [done|]. exfalso. apply Hin. unfold set_add.
    case_decide; [done|]. apply elem_of_app. right. by left.
  - intros Hun. unfold unregistered in Hun.
    assert (Hne : no_empty_sets s) by (apply no_empty_sets_run; by intros e hs).
    rewrite unlisten_listeners, listen_listeners, lookup_insert_eq.
    assert (Hadd : set_add h (default [] (listeners s !! event))
                   = default [] (listeners s !! event) ++ [h]).
    { unfold set_add. by rewrite decide_False. }
    rewrite Hadd, set_delete_added by done.
    destruct (listeners s !! event) as [hs|] eqn:E; cbn.
    + rewrite decide_False by (by eapply Hne).
      rewrite insert_insert_eq. by apply insert_id.
    + rewrite decide_True by done. rewrite delete_insert_eq.
      by apply delete_id.
Qed.

(** ** The hooks *)

Lemma turn_subscribers_kept s s' : turn s s' → _subscribers s' = _subscribers s.
Proof. by destruct 1. Qed.

Lemma turn_announced s s' :
  turn s s' →
  (notified s' = notified s ∧ snapshots s' = snapshots s)
  ∨ notified s' = notified s ++ _subscribers s.
Proof. destruct 1; first [by left|by right]. Qed.

Lemma turns_announced s s' :
  rtc turn s s' → announced s s' ∧ _subscribers s' = _subscribers s.
Proof.
  induction 1 as [s|s1 s2 s3 H12 _ [(n & Hn & Hch) Hsub]].
  - split; [|done]. exists 0%nat. cbn. by rewrite app_nil_r.
  - pose proof (turn_subscribers_kept _ _ H12) as Hsub12.
    split; [|congruence]. rewrite Hsub12 in Hn.
    destruct (turn_announced _ _ H12) as [[Hsame Hsnap]|Hgrow].
    + exists n. split; [congruence|]. intros Hne. apply Hch. congruence.
    + exists (S n). split; [|done]. rewrite Hn, Hgrow. cbn.
      by rewrite (assoc_L (++)).
Qed.

(** X12.  Whatever a turn of the event loop does, a change of what the
    connection hook or the auth-error hook shows is announced: between
    the state before and the state after, every subscriber has been
    called, the same number of times and at least once. *)
Theorem snapshot_changes_are_announced s ev : announced s (step s ev).
Proof.
  destruct (step_turns s ev) as [[l ->]|Hturns].
  - exists 0%nat. cbn. by rewrite app_nil_r.
  - by apply turns_announced.
Qed.

(** ** The queue between opens *)

Lemma scheduleReconnect_queue s : queue (scheduleReconnect s) = queue s.
Proof.
  unfold scheduleReconnect.
  destruct (reconnectTimer s); [done|]. by destruct (truthy _).
Qed.

Lemma fan_out_queue event payload hs s :
  queue (foldl (call_handler event payload) s hs) = queue s.
Proof.
  revert s. induction hs as [|h hs IH]; intros s; simpl; [done|].
  rewrite IH. unfold WsTransport.call_handler. by case_match.
Qed.

Lemma invoke_queue id command args s :
  queue (invoke id command args s).2
  = if ws_readyState_is OPEN s then queue s
    else queue s ++ [mkQueued (mkFrame id command args)].
Proof.
  unfold invoke. cbn [setTimeout].
  match goal with |- context [if ?b then _ else _] =>
    change b with (ws_readyState_is OPEN s) end.
  destruct (ws_readyState_is OPEN s) eqn:E; cbn [snd].
  - unfold ws_readyState_is in E. destruct (ws s) as [w|] eqn:Ews; [|done].
    apply bool_decide_eq_true in E.
    erewrite (ws_send_open _ _ w); [|done..]. done.
  - by rewrite connect_queue.
Qed.

Lemma queue_step s ev :
  ev ≠ EvOpen → queue s `prefix_of` queue (step s ev).
Proof.
  intros Hev. destruct ev; cbn [WsTransport.step]; try done.
  - rewrite invoke_queue. destruct (ws_readyState_is OPEN s); [done|].
    by apply prefix_app_r.
  - unfold listen. rewrite connect_queue. by repeat case_match.
  - unfold unlisten. by repeat case_match.
  - rewrite connect_queue. done.
  - destruct (validating s); [|done]. unfold validateAndConnect.
    destruct r; cbn; try done. by rewrite scheduleReconnect_queue.
  - destruct parsed as [msg|]; [|done]. cbn [onmessage].
    unfold WsTransport.handleMessage. repeat case_match; try done.
    by rewrite fan_out_queue.
  - unfold ws_readyState_is. repeat case_match; try done.
    all: unfold set_readyState; by repeat case_match.
  - repeat case_match; try done. unfold onclose.
    rewrite scheduleReconnect_queue. cbn. unfold set_readyState.
    by repeat case_match.
  - unfold onclose. by rewrite scheduleReconnect_queue.
  - destruct (timers s !! t) as [[D cb]|]; [|done].
    case_bool_decide; [|done].
    destruct cb; cbn [run_callback callback]; [done|].
    by rewrite connect_queue.
  - by repeat case_match.
Qed.

(** X13.  Nothing but the open handler takes a request out of the queue:
    over any events other than the open of the socket (a close, a
    rejected token, the timeout of the request itself) the queue keeps
    its entries in their order and only grows at its end. *)
Theorem queued_requests_wait_for_open s evs :
  Forall (λ ev, ev ≠ EvOpen) evs → queue s `prefix_of` queue (run s evs).
Proof.
  revert s. induction evs as [|ev evs IH]; intros s Hevs; [done|].
  apply Forall_cons in Hevs as [Hev Hevs]. cbn [WsTransport.run foldl].
  etrans; [by apply queue_step|]. by apply IH.
Qed.

End Handlers.

(** ** The statements at runs of [WsTransport] *)

Lemma timers_within_horizon_witness :
  let s := run quiet (init None (Some "tok")) dropped_then_invoked in
  timers s !! 1%positive = Some (mkTimer 1000 ReconnectFire)
  ∧ 1000 ≤ now s + 30000.
Proof.
  intros s.
  assert (Ht : timers s !! 1%positive = Some (mkTimer 1000 ReconnectFire))
    by reflexivity.
  split; [exact Ht|].
  exact (timers_within_horizon quiet None (Some "tok") dropped_then_invoked
           1%positive _ Ht).
Defined.

Lemma checked_token_is_persisted_witness :
  let s := run quiet (init (Some "url") (Some "old")) checking in
  validating s = Some "url"
  ∧ "url" ≠ "" ∧ storage_token s = Some "url" ∧ live s = false.
Proof.
  intros s. assert (Hv : validating s = Some "url") by reflexivity.
  split; [exact Hv|].
  exact (checked_token_is_persisted quiet (Some "url") (Some "old") checking
           "url" Hv).
Defined.

Lemma socket_token_is_persisted_witness :
  let s := run quiet (init None (Some "tok")) [EvConnect; EvFetch FetchOk] in
  ws s = Some (mkWebSocket "tok" CONNECTING [])
  ∧ live s = true
  ∧ "tok" ≠ ""
  ∧ storage_token s = Some "tok".
Proof.
  intros s.
  assert (Hw : ws s = Some (mkWebSocket "tok" CONNECTING [])) by reflexivity.
  assert (Hl : live s = true) by reflexivity.
  destruct (socket_token_is_persisted quiet None (Some "tok")
              [EvConnect; EvFetch FetchOk] _ Hw) as [H1 H2].
  split_and!; [exact Hw|exact Hl|exact H1|exact (H2 Hl)].
Defined.

Lemma open_socket_has_empty_queue_witness :
  let s := run quiet (init None (Some "tok"))
             [EvInvoke "r1" "get_data" "{}"; EvFetch FetchOk; EvOpen] in
  ws_readyState_is OPEN s = true ∧ queue s = [].
Proof.
  intros s. assert (Ho : ws_readyState_is OPEN s = true) by reflexivity.
  split; [exact Ho|].
  exact (open_socket_has_empty_queue quiet None (Some "tok")
           [EvInvoke "r1" "get_data" "{}"; EvFetch FetchOk; EvOpen] Ho).
Defined.

Lemma reply_leaves_other_requests_witness :
  let s := run quiet (init None (Some "tok"))
             [EvInvoke "r1" "get_data" "{}"; EvInvoke "r2" "get_data" "{}"] in
  let s' := step quiet s (EvMessage (Some (response_for "r1" "42"))) in
  pending s !! "r2" = Some (mkPending 1 2)
  ∧ pending s' !! "r2" = Some (mkPending 1 2)
  ∧ timers s' !! 2%positive = timers s !! 2%positive
  ∧ 1%nat ∉ settled_promises s'.
Proof.
  intros s s'.
  assert (Hp : pending s !! "r2" = Some (mkPending 1 2)) by reflexivity.
  split; [exact Hp|].
  exact (reply_leaves_other_requests quiet None (Some "tok")
           [EvInvoke "r1" "get_data" "{}"; EvInvoke "r2" "get_data" "{}"]
           (response_for "r1" "42") "r1" "r2" (mkPending 1 2)
           (or_introl eq_refl) eq_refl ltac:(discriminate) Hp).
Defined.

Lemma event_calls_each_handler_once_witness :
  let s := run quiet (init None None)
             [EvListen "chat:chunk" 1%nat; EvListen "chat:chunk" 1%nat] in
  let msg := event_named "chat:chunk" "x" in
  is_event "chat:chunk" msg
  ∧ ∃ hs, NoDup hs
          ∧ delivered (step quiet s (EvMessage (Some msg)))
            = delivered s ++ ((λ h, (h, msg_payload msg)) <$> hs).
Proof.
  intros s msg.
  assert (Hev : is_event "chat:chunk" msg) by (split; reflexivity).
  split; [exact Hev|].
  exact (event_calls_each_handler_once quiet None None
           [EvListen "chat:chunk" 1%nat; EvListen "chat:chunk" 1%nat]
           "chat:chunk" msg Hev).
Defined.

Lemma unlisten_stops_delivery_witness :
  let s := run quiet (init None None) [EvListen "chat:done" 7%nat] in
  let evs := [EvListen "chat:done" 8%nat; EvListen "chat:chunk" 7%nat] in
  let msg := event_named "chat:done" "x" in
  let s1 := run quiet (unlisten "chat:done" 7%nat s) evs in
  Forall (λ ev, ev ≠ EvListen "chat:done" 7%nat) evs
  ∧ is_event "chat:done" msg
  ∧ ∃ hs, (7%nat ∉ hs)
          ∧ delivered (step quiet s1 (EvMessage (Some msg)))
            = delivered s1 ++ ((λ h', (h', msg_payload msg)) <$> hs).
Proof.
  intros s evs msg s1.
  assert (Hevs : Forall (λ ev, ev ≠ EvListen "chat:done" 7%nat) evs)
    by (repeat constructor; discriminate).
  assert (Hev : is_event "chat:done" msg) by (split; reflexivity).
  split_and!; [exact Hevs|exact Hev|].
  exact (unlisten_stops_delivery quiet s "chat:done" 7%nat evs msg Hevs Hev).
Defined.

Lemma listen_then_unlisten_restores_witness :
  let s := run quiet (init None None) [EvListen "chat:chunk" 1%nat] in
  unregistered "chat:done" 7%nat s
  ∧ listeners (listen "chat:done" 7%nat (listen "chat:done" 7%nat s))
    = listeners (listen "chat:done" 7%nat s)
  ∧ listeners (unlisten "chat:done" 7%nat (listen "chat:done" 7%nat s))
    = listeners s.
Proof.
  intros s.
  assert (Hun : unregistered "chat:done" 7%nat s) by apply not_elem_of_nil.
  destruct (listen_then_unlisten_restores quiet None None
              [EvListen "chat:chunk" 1%nat] "chat:done" 7%nat) as [H1 H2].
  split_and!; [exact Hun|exact H1|exact (H2 Hun)].
Defined.

Lemma queued_requests_wait_for_open_witness :
  let s := run quiet (init None None) [EvInvoke "r1" "get_data" "{}"] in
  Forall (λ ev, ev ≠ EvOpen) sixty_seconds
  ∧ queue s = [mkQueued (mkFrame "r1" "get_data" "{}")]
  ∧ pending (run quiet s sixty_seconds) !! "r1" = None
  ∧ queue s `prefix_of` queue (run quiet s sixty_seconds).
Proof.
  intros s.
  assert (Hevs : Forall (λ ev, ev ≠ EvOpen) sixty_seconds)
    by (repeat constructor; discriminate).
  split_and!; [exact Hevs|reflexivity|reflexivity|].
  exact (queued_requests_wait_for_open quiet s sixty_seconds Hevs).
Defined.

End WsTransportLaws.


(** * The preloader: further properties *)

Module PreloadLaws.

Import Preload PreloadFacts.

Lemma consistent_init native urlToken stored :
  consistent (init native urlToken stored).
Proof. split; [done|]. intros _. by left. Qed.

Lemma env_step s ev :
  isNativeApp (step s ev) = isNativeApp s
  ∧ location_token (step s ev) = location_token s
  ∧ storage_token (step s ev) = storage_token s.
Proof.
  destruct ev; cbn [step].
  - unfold preloadInitialData. by repeat case_match.
  - unfold resume, fulfil. by repeat case_match.
  - unfold getPreloadedData, promise_then. by repeat case_match.
  - unfold drain.
    assert (H : ∀ jobs s0,
      isNativeApp (foldl run_reaction s0 jobs) = isNativeApp s0
      ∧ location_token (foldl run_reaction s0 jobs) = location_token s0
      ∧ storage_token (foldl run_reaction s0 jobs) = storage_token s0).
    { induction jobs as [|[[var] v] jobs IH]; intros s0; [done|].
      cbn [foldl]. destruct (IH (run_reaction s0 (AssignResult var, v)))
        as (-> & -> & ->). done. }
    destruct (H (microtasks s) (set_microtasks [] s)) as (-> & -> & ->).
    done.
Qed.

Lemma drain_fields s :
  initialDataPromise (drain s) = initialDataPromise s
  ∧ initialDataResolved (drain s) = initialDataResolved s
  ∧ fetching (drain s) = fetching s.
Proof.
  unfold drain.
  assert (H : ∀ jobs s0,
    initialDataPromise (foldl run_reaction s0 jobs) = initialDataPromise s0
    ∧ initialDataResolved (foldl run_reaction s0 jobs)
      = initialDataResolved s0
    ∧ fetching (foldl run_reaction s0 jobs) = fetching s0).
  { induction jobs as [|[[var] v] jobs IH]; intros s0; [done|].
    cbn [foldl]. destruct (IH (run_reaction s0 (AssignResult var, v)))
      as (-> & -> & ->). done. }
  destruct (H (microtasks s) (set_microtasks [] s)) as (-> & -> & ->). done.
Qed.

Lemma consistent_ext s s' :
  initialDataPromise s' = initialDataPromise s →
  initialDataResolved s' = initialDataResolved s →
  fetching s' = fetching s →
  isNativeApp s' = isNativeApp s →
  location_token s' = location_token s →
  storage_token s' = storage_token s →
  consistent s → consistent s'.
Proof.
  destruct s, s'. cbn. intros -> -> -> -> -> -> [Hp Ho]. by split.
Qed.

Lemma consistent_step s ev : consistent s → consistent (step s ev).
Proof.
  intros Hs. pose proof Hs as [Hp Ho]. destruct ev; cbn [step].
  - unfold preloadInitialData.
    destruct s as [pr rs native lt st ft res mt]. cbn in Hp, Ho |- *.
    destruct native; [exact Hs|]. destruct pr as [p|]; [exact Hs|].
    assert (Hf : ft = false).
    { destruct ft; [|done]. by destruct (Hp eq_refl). }
    destruct (Ho Hf) as [[_ Hr]|(v & [=] & _)].
    unfold no_token in *. cbn in Hp, Ho |- *.
    destruct (truthy lt) eqn:E1; [|destruct (truthy st) eqn:E2].
    + destruct lt as [u|]; [|done]. cbn in E1 |- *.
      apply negb_true_iff in E1. rewrite E1.
      split; cbn; [|done]. intros _. split_and!; try done.
      intros [H1 H2]. cbn in H1. by rewrite E1 in H1.
    + destruct st as [u|]; [|done]. cbn in E2 |- *.
      apply negb_true_iff in E2. rewrite E2.
      split; cbn; [|done]. intros _. split_and!; try done.
      intros [H1 H2]. cbn in H2. by rewrite E2 in H2.
    + cbn. split; cbn; [congruence|]. intros _. right. eexists.
      split; [done|]. congruence.
  - destruct s as [pr rs native lt st ft res mt].
    unfold resume. cbn in Hp, Ho |- *. destruct ft; [|exact Hs].
    destruct (Hp eq_refl) as (-> & -> & -> & Htok).
    destruct r; cbn; (split; cbn; [done|]); intros _; right; eexists;
      (split; [done|]); done.
  - destruct s as [pr rs native lt st ft res mt].
    unfold getPreloadedData. cbn in Hp, Ho |- *.
    destruct rs; cbn [negb orb]; [|exact Hs].
    case_bool_decide as Hsome; cbn [negb snd]; [|exact Hs].
    assert (Hf : ft = false).
    { destruct ft; [|done]. by destruct (Hp eq_refl) as (_ & ? & _). }
    destruct (Ho Hf) as [[_ [=]]|(v & -> & Henv)].
    cbn. split; cbn; [congruence|]. intros _. right. by eexists.
  - destruct (drain_fields s) as (H1 & H2 & H3).
    destruct (env_step s EvDrain) as (H4 & H5 & H6).
    by apply (consistent_ext s).
Qed.

Lemma consistent_run native urlToken stored evs :
  consistent (run (init native urlToken stored) evs).
Proof.
  assert (H : ∀ evs s, consistent s → consistent (run s evs)).
  { clear evs. induction evs as [|ev evs IH]; intros s Hs; [done|].
    cbn [run foldl]. by apply IH, consistent_step. }
  apply H, consistent_init.
Qed.

Lemma env_run s evs :
  isNativeApp (run s evs) = isNativeApp s
  ∧ location_token (run s evs) = location_token s
  ∧ storage_token (run s evs) = storage_token s.
Proof.
  revert s. induction evs as [|ev evs IH]; intros s; [done|].
  cbn [run foldl]. destruct (IH (step s ev)) as (H1 & H2 & H3).
  destruct (env_step s ev) as (H4 & H5 & H6).
  split_and!; etrans; done.
Qed.

(** X14.  When [hasPreloadedData()] answers true, the fetch is over and
    the promise is fulfilled with nothing waiting on it, and the page is a
    browser page that had a token.  So in the native application, and on
    a page without a token, [hasPreloadedData()] is never true. *)
Theorem hasPreloadedData_means_fulfilled native urlToken stored evs :
  let s := run (init native urlToken stored) evs in
  hasPreloadedData s = true →
  fetching s = false
  ∧ (∃ v, initialDataPromise s = Some (mkPromise (Some v) []))
  ∧ native = false
  ∧ (truthy urlToken = true ∨ truthy stored = true).
Proof.
  intros s Hr. unfold hasPreloadedData in Hr.
  destruct (consistent_run native urlToken stored evs) as [Hp Ho].
  fold s in Hp, Ho.
  destruct (env_run (init native urlToken stored) evs) as (Hn & Hl & Hst).
  fold s in Hn, Hl, Hst. cbn in Hn, Hl, Hst.
  assert (Hf : fetching s = false).
  { destruct (fetching s); [|done].
    destruct (Hp eq_refl) as (_ & ? & _). congruence. }
  destruct (Ho Hf) as [[_ ?]|(v & Hpr & Henv)]; [congruence|].
  destruct (Henv Hr) as [Hnat Htok].
  split_and!; [done|by eexists|congruence|].
  unfold no_token in Htok. rewrite Hl, Hst in Htok.
  destruct (truthy urlToken); [by left|]. destruct (truthy stored); [by right|].
  by destruct Htok.
Qed.

Lemma promise_kept s ev :
  is_Some (initialDataPromise s) → is_Some (initialDataPromise (step s ev)).
Proof.
  intros [p Hp]. destruct ev; cbn [step].
  - destruct s as [pr rs native lt st ft res mt]. cbn in Hp. subst pr.
    unfold preloadInitialData. cbn. by destruct native.
  - destruct s as [pr rs native lt st ft res mt]. cbn in Hp. subst pr.
    unfold resume, fulfil. cbn. destruct ft; [|by eexists].
    destruct r; by eexists.
  - destruct s as [pr rs native lt st ft res mt]. cbn in Hp. subst pr.
    unfold getPreloadedData, promise_then. cbn. case_match; [by eexists|].
    cbn. destruct (fulfilled p); by eexists.
  - destruct (drain_fields s) as (-> & _). by eexists.
Qed.

Lemma promise_none_kept s ev :
  ev ≠ EvPreload → initialDataPromise s = None →
  initialDataPromise (step s ev) = None.
Proof.
  intros Hev Hp. destruct s as [pr rs nat lt st ft res mt]. cbn in Hp.
  subst pr. destruct ev; [done| | |].
  - cbn. unfold resume, fulfil. cbn. destruct ft; [|done]. by destruct r.
  - cbn. unfold getPreloadedData. cbn. by rewrite orb_true_r.
  - destruct (drain_fields (mkState None rs nat lt st ft res mt))
      as (H & _). exact H.
Qed.

Lemma preloadInitialData_fetch_state s :
  (preloadInitialData_fetch s).1 = preloadInitialData s.
Proof.
  unfold preloadInitialData_fetch, preloadInitialData.
  by repeat case_match.
Qed.

Lemma step_fetch_state s ev : (step_fetch s ev).1 = step s ev.
Proof. destruct ev; cbn; [apply preloadInitialData_fetch_state|done..]. Qed.

Lemma run_fetch_snoc s evs ev :
  run_fetch s (evs ++ [ev])
  = ((step_fetch (run_fetch s evs).1 ev).1,
     (run_fetch s evs).2 ++ (step_fetch (run_fetch s evs).1 ev).2).
Proof. unfold run_fetch. by rewrite foldl_app. Qed.

Lemma run_fetch_state s evs : (run_fetch s evs).1 = run s evs.
Proof.
  induction evs as [|ev evs IH] using rev_ind; [done|].
  rewrite run_fetch_snoc. cbn [fst]. rewrite step_fetch_state, IH.
  unfold run. by rewrite foldl_app.
Qed.

(** What a call of [preloadInitialData] sends, by the state it is made
    in. *)
Lemma preloadInitialData_fetch_requests s :
  (preloadInitialData_fetch s).2
  = if isNativeApp s then []
    else if bool_decide (is_Some (initialDataPromise s)) then []
    else if String.eqb (page_token (location_token s) (storage_token s)) ""
    then []
    else [page_token (location_token s) (storage_token s)].
Proof.
  unfold preloadInitialData_fetch, page_token.
  destruct (isNativeApp s); [done|].
  destruct (initialDataPromise s) as [p|]; [by rewrite bool_decide_eq_true_2|].
  rewrite bool_decide_eq_false_2 by by intros [? ?].
  by repeat case_match.
Qed.

(** The promise exists on a browser page only, and then the request has
    been sent if the page has a token; before, nothing has been sent. *)
Lemma requests_run native urlToken stored evs :
  let s := run (init native urlToken stored) evs in
  let requests := (run_fetch (init native urlToken stored) evs).2 in
  let token := page_token urlToken stored in
  match initialDataPromise s with
  | None => requests = []
  | Some _ =>
      native = false
      ∧ requests = (if String.eqb token "" then [] else [token])
  end.
Proof.
  cbn zeta. induction evs as [|ev evs IH] using rev_ind; [done|].
  rewrite run_fetch_snoc. cbn [snd]. rewrite run_fetch_state.
  unfold run in *. rewrite foldl_app. cbn [foldl].
  fold (run (init native urlToken stored) evs) in *.
  set (s := run (init native urlToken stored) evs) in *.
  destruct (env_run (init native urlToken stored) evs) as (Hn & Hl & Hst).
  fold s in Hn, Hl, Hst. cbn in Hn, Hl, Hst.
  destruct (initialDataPromise s) as [p|] eqn:Hp.
  - destruct IH as [-> IH].
    destruct (promise_kept s ev) as [p' ->]; [by eexists|].
    split; [done|]. rewrite IH.
    destruct ev; cbn [step_fetch snd]; rewrite ?app_nil_r; try done.
    rewrite preloadInitialData_fetch_requests, Hn.
    rewrite bool_decide_eq_true_2 by by eexists. by rewrite app_nil_r.
  - rewrite IH. cbn [app].
    destruct ev; cbn [step_fetch snd].
    + rewrite preloadInitialData_fetch_requests.
      cbn [step]. unfold preloadInitialData.
      destruct s as [pr rs nat lt st ft res mt]. cbn in Hp, Hn, Hl, Hst |- *.
      subst pr nat lt st. destruct native; [done|].
      rewrite bool_decide_eq_false_2 by by intros [? ?].
      fold (page_token urlToken stored).
      by destruct (String.eqb (page_token urlToken stored) "").
    + by rewrite (promise_none_kept s (EvResume r)).
    + by rewrite (promise_none_kept s EvGet).
    + by rewrite (promise_none_kept s EvDrain).
Qed.

(** X15.  The initial data is requested at most once per page load.
    Over any calls of the functions of the module, in any order, the
    preloader calls [fetch] for [/api/init] once, with the token of the
    page, if [preloadInitialData] has been called on a browser page that
    has a token, and not at all otherwise: a later call finds the promise
    and sends nothing, whether the first request is still running, has
    failed or has succeeded. *)
Theorem initial_data_fetched_at_most_once native urlToken stored evs :
  let s := run (init native urlToken stored) evs in
  let requests := (run_fetch (init native urlToken stored) evs).2 in
  let token := page_token urlToken stored in
  (run_fetch (init native urlToken stored) evs).1 = s
  ∧ (requests = []
     ∨ requests = [token] ∧ native = false ∧ token ≠ "")
  ∧ (requests = [token]
     ↔ is_Some (initialDataPromise s) ∧ token ≠ "").
Proof.
  intros s requests token.
  pose proof (requests_run native urlToken stored evs) as H.
  cbn zeta in H. fold s requests token in H.
  split; [apply run_fetch_state|].
  destruct (initialDataPromise s) as [p|].
  - destruct H as [Hn H].
    destruct (String.eqb token "") eqn:Htok.
    + apply String.eqb_eq in Htok. split; [by left|].
      rewrite H. split; [done|]. by intros [_ ?].
    + apply String.eqb_neq in Htok. split; [by right|].
      split; [by split; [eexists|]|done].
  - split; [by left|]. rewrite H. split; [done|]. by intros [[? ?] _].
Qed.

(** X16.  In the native application, and on a page that has no token,
    the preloader never sends a request, and no call changes what
    [hasPreloadedData()] answers: it stays false. *)
Theorem preload_needs_browser_and_token native urlToken stored evs :
  let s := run (init native urlToken stored) evs in
  native = true ∨ (truthy urlToken = false ∧ truthy stored = false) →
  fetching s = false ∧ hasPreloadedData s = false.
Proof.
  intros s Hcase.
  destruct (consistent_run native urlToken stored evs) as [Hp Ho].
  fold s in Hp, Ho.
  destruct (env_run (init native urlToken stored) evs) as (Hn & Hl & Hst).
  fold s in Hn, Hl, Hst. cbn in Hn, Hl, Hst.
  assert (Hf : fetching s = false).
  { destruct (fetching s); [|done].
    destruct (Hp eq_refl) as (_ & _ & Hnat & Htok).
    destruct Hcase as [->|[H1 H2]]; [congruence|].
    destruct Htok. unfold no_token. by rewrite Hl, Hst. }
  split; [done|]. unfold hasPreloadedData.
  destruct (initialDataResolved s) eqn:Hr; [|done].
  destruct (Ho Hf) as [[_ ?]|(v & _ & Henv)]; [done|].
  destruct (Henv eq_refl) as [Hnat Htok].
  destruct Hcase as [->|[H1 H2]]; [congruence|].
  destruct Htok. unfold no_token. by rewrite Hl, Hst.
Qed.

(** ** The statements at runs of the preloader *)

Lemma hasPreloadedData_means_fulfilled_witness :
  let s := run (init false None (Some "tok"))
             [EvPreload; EvResume (InitOk (Some snapshot))] in
  hasPreloadedData s = true
  ∧ fetching s = false
  ∧ (∃ v, initialDataPromise s = Some (mkPromise (Some v) []))
  ∧ false = false
  ∧ (truthy None = true ∨ truthy (Some "tok") = true).
Proof.
  intros s. assert (Hr : hasPreloadedData s = true) by reflexivity.
  split; [exact Hr|].
  exact (hasPreloadedData_means_fulfilled false None (Some "tok")
           [EvPreload; EvResume (InitOk (Some snapshot))] Hr).
Defined.

Lemma initial_data_fetched_at_most_once_witness :
  let evs := [EvPreload; EvPreload; EvResume InitFailed; EvPreload; EvGet] in
  let s := run (init false (Some "url") (Some "old")) evs in
  let requests := (run_fetch (init false (Some "url") (Some "old")) evs).2 in
  is_Some (initialDataPromise s)
  ∧ page_token (Some "url") (Some "old") ≠ ""
  ∧ requests = ["url"].
Proof.
  intros evs s requests.
  assert (Hp : is_Some (initialDataPromise s)) by (eexists; reflexivity).
  assert (Htok : page_token (Some "url") (Some "old") ≠ "") by discriminate.
  destruct (initial_data_fetched_at_most_once false (Some "url") (Some "old")
              evs) as (_ & _ & Hiff).
  split_and!; [exact Hp|exact Htok|].
  exact (proj2 Hiff (conj Hp Htok)).
Defined.

Lemma preload_needs_browser_and_token_witness :
  let s := run (init false None (Some "")) [EvPreload; EvGet] in
  (truthy None = false ∧ truthy (Some "") = false)
  ∧ fetching s = false ∧ hasPreloadedData s = false.
Proof.
  intros s.
  assert (Hno : truthy None = false ∧ truthy (Some "") = false)
    by (split; reflexivity).
  split; [exact Hno|].
  exact (preload_needs_browser_and_token false None (Some "")
           [EvPreload; EvGet] (or_intror Hno)).
Defined.

End PreloadLaws.


(** * The application shell: further properties *)

Module AppLaws.

Import App AppFacts.

Section KeyBuilders.

Variable projects_list : QueryKey.
Variable projects_worktrees : string → QueryKey.
Variable chat_sessions : string → QueryKey.
Variable chat_session : string → QueryKey.

#[local] Abbreviation on_preloaded :=
  (App.on_preloaded projects_list projects_worktrees chat_sessions
     chat_session).
#[local] Abbreviation seed_calls :=
  (App.seed_calls projects_list projects_worktrees chat_sessions
     chat_session).
#[local] Abbreviation seeded_keys :=
  (App.seeded_keys projects_list projects_worktrees chat_sessions
     chat_session).



(** ** Where [seedCache] can throw *)

Lemma throws_bind {A B : Type} (P : QueryKey → Prop)
    (m : Run A) (f : A → Run B) :
  (m ≫= f).2 = None →
  calls_all P m →
  (∀ a, m.2 = Some a → (f a).2 = None → calls_all P (f a)) →
  calls_all P (m ≫= f).
Proof.
  intros Hthrown Hm Hf. unfold calls_all, mbind, Run_bind in *.
  destruct m as [l [a|]]; cbn in *; [|done].
  apply Forall_app. split; [done|by apply Hf].
Qed.

Lemma total_bind {A B : Type} (m : Run A) (f : A → Run B) :
  is_Some m.2 → (∀ a, m.2 = Some a → is_Some (f a).2) →
  is_Some (m ≫= f).2.
Proof.
  intros [a Ha] Hf. unfold mbind, Run_bind. rewrite Ha. by apply Hf.
Qed.

Lemma total_member name v : v ≠ JNull → is_Some (member name v).2.
Proof. by destruct v; [done|eexists..]. Qed.

Lemma member_not_null name v r : (member name v).2 = Some r → v ≠ JNull.
Proof. by destruct v. Qed.

Lemma truthy_not_null x : truthy_value (Some x) = true → x ≠ JNull.
Proof. by destruct x. Qed.

Lemma total_entries v : v ≠ JNull → is_Some (entries v).2.
Proof. by destruct v; [done|eexists..]. Qed.

Lemma total_for_each {A : Type} (xs : list A) (body : A → Run unit) :
  (∀ x, is_Some (body x).2) → is_Some (for_each xs body).2.
Proof.
  intros Hbody. induction xs as [|x xs IH]; cbn [for_each]; [by eexists|].
  by apply total_bind.
Qed.

Lemma total_if_truthy v (body : Json → Run unit) :
  (∀ x, truthy_value (Some x) = true → is_Some (body x).2) →
  is_Some (if_truthy v body).2.
Proof.
  intros Hbody. unfold if_truthy. destruct v as [x|]; [|by eexists].
  destruct (truthy_value (Some x)) eqn:E; [by apply Hbody|by eexists].
Qed.

(** X23.  When [seedCache] throws, it has not reached the active
    sessions, the preferences or the UI state: every call of
    [setQueryData] it has made is for the project list, the worktrees of
    a project or the sessions of a worktree.  (It throws in its block for
    [sessionsByWorktree]: on an entry whose [sessions] cannot be iterated
    over or hold a [null], or on a project whose worktrees cannot.) *)
Theorem seedCache_throw_stops_seeding data :
  let run := App.seedCache projects_list projects_worktrees chat_sessions
               chat_session data in
  run.2 = None →
  Forall (λ kv, App.early_key projects_list projects_worktrees chat_sessions
                  kv.1) run.1.
Proof.
  cbn zeta. unfold App.seedCache.
  set (P := App.early_key projects_list projects_worktrees chat_sessions).
  assert (Hpl : P projects_list) by by left.
  assert (Hpw : ∀ p, P (projects_worktrees p)) by (right; left; by eexists).
  assert (Hcs : ∀ w, P (chat_sessions w)) by (right; right; by eexists).
  intros Hthrown.
  match goal with H : ?m.2 = None |- _ =>
    enough (Hall : calls_all P m) by exact Hall end.
  apply throws_bind; [done|apply calls_all_member|].
  clear Hthrown. intros projects Hdata Hthrown.
  apply member_not_null in Hdata.
  apply throws_bind;
    [done|apply calls_all_if_truthy; intros ?; by apply calls_all_call|].
  clear Hthrown. intros _ _ Hthrown.
  apply throws_bind; [done|apply calls_all_member|].
  clear Hthrown. intros wbp _ Hthrown.
  apply throws_bind; [done| |].
  { apply calls_all_if_truthy. intros ?.
    apply calls_all_bind; [apply calls_all_entries|intros es].
    apply calls_all_for_each. intros [projectId worktrees].
    by apply calls_all_call. }
  clear Hthrown. intros _ _ Hthrown.
  apply throws_bind; [done|apply calls_all_member|].
  clear Hthrown. intros sbw _ Hthrown.
  apply throws_bind; [done| |].
  { apply calls_all_if_truthy. intros ?.
    apply calls_all_bind; [apply calls_all_entries|intros es].
    apply calls_all_bind; [|intros _].
    { apply calls_all_for_each. intros [worktreeId sessionsData].
      apply calls_all_bind; [by apply calls_all_call|intros _].
      apply calls_all_bind; [apply calls_all_member|intros sessions].
      apply calls_all_bind; [apply calls_all_iterate|intros ss].
      apply calls_all_for_each, calls_all_session_flags. }
    apply calls_all_bind; [apply calls_all_member|intros ?].
    apply calls_all_if_truthy. intros ?.
    apply calls_all_bind; [apply calls_all_values|intros vs].
    apply calls_all_for_each. intros worktrees.
    apply calls_all_bind; [apply calls_all_iterate|intros wts].
    apply calls_all_for_each, calls_all_worktree_path. }
  clear Hthrown. intros _ _ Hthrown.
  (* from here on nothing throws *)
  exfalso. revert Hthrown.
  match goal with |- ?m.2 = None → False =>
    enough (H : is_Some m.2) by (destruct H as [? ->]; done) end.
  apply total_bind; [by apply total_member|intros activeSessions _].
  apply total_bind; [|intros _ _].
  { apply total_if_truthy. intros x Hx%truthy_not_null.
    apply total_bind; [by apply total_entries|intros es _].
    apply total_for_each. intros [sessionId session]. by eexists. }
  apply total_bind; [by apply total_member|intros preferences _].
  apply total_bind; [|intros _ _].
  { apply total_if_truthy. intros x _. by eexists. }
  apply total_bind; [by apply total_member|intros uiState _].
  apply total_if_truthy. intros x _. by eexists.
Qed.

Hypothesis projects_list_root : head projects_list = Some "projects".
Hypothesis projects_worktrees_root :
  ∀ projectId, head (projects_worktrees projectId) = Some "projects".
Hypothesis chat_sessions_root :
  ∀ worktreeId, head (chat_sessions worktreeId) = Some "chat".
Hypothesis chat_session_root :
  ∀ sessionId, head (chat_session sessionId) = Some "chat".

(** X24.  A field of the answer that is falsy is not seeded: when the
    answer is an object whose [preferences] are missing, [null], [false],
    0 or the empty string, no entry is written under [['preferences']],
    and likewise for [uiState] and [['ui-state']]. *)
Theorem falsy_fields_are_not_seeded members :
  let data := Some (JObject members) in
  (truthy_value (lookup_member "preferences" members) = false →
   ["preferences"] ∉ seeded_keys false data)
  ∧ (truthy_value (lookup_member "uiState" members) = false →
     ["ui-state"] ∉ seeded_keys false data).
Proof.
  cbn zeta. unfold App.seeded_keys, App.seed_calls. cbn [truthy_value].
  assert (Hnot : ∀ key : QueryKey,
            key ≠ projects_list → (∀ p, key ≠ projects_worktrees p) →
            (∀ w, key ≠ chat_sessions w) → (∀ s, key ≠ chat_session s) →
            (truthy_value (lookup_member "preferences" members) = true →
             key ≠ ["preferences"]) →
            (truthy_value (lookup_member "uiState" members) = true →
             key ≠ ["ui-state"]) →
            key ∉ (App.seedCache projects_list projects_worktrees
                     chat_sessions chat_session (JObject members)).1.*1).
  { intros key H1 H2 H3 H4 H5 H6 (kv & -> & Hin)%list_elem_of_fmap.
    assert (Hall : calls_all (λ k, kv.1 ≠ k)
                     (App.seedCache projects_list projects_worktrees
                        chat_sessions chat_session (JObject members))).
    { apply seedCache_calls_all; try done.
      - intros v [= <-]. exact H5.
      - intros v [= <-]. exact H6. }
    unfold calls_all in Hall. rewrite Forall_forall in Hall.
    by apply (Hall kv). }
  assert (Hroot : ∀ (key : QueryKey) root,
            head key = Some root → ∀ k, head k ≠ Some root → k ≠ key)
    by (intros key root Hk k Hne ->; done).
  split; intros Hfalsy; apply Hnot;
    try (by intros; eapply Hroot; [eauto|by cbn]);
    rewrite ?Hfalsy; done.
Qed.

(** X19.  With project and chat keys that start with ['projects'] and
    ['chat'], the two effects of the shell do not race: the cache is the
    same, marks and started refetches included, whether the answer of the
    preloader is seeded before the pass of the connecting socket or after
    it. *)
Theorem seeding_and_invalidation_commute data native wsConnected cache :
  on_preloaded native data (on_ws_connected native wsConnected cache)
  = on_ws_connected native wsConnected (on_preloaded native data cache).
Proof.
  unfold on_ws_connected. destruct (negb native && wsConnected) eqn:Hrun;
    [|done].
  destruct native; [done|].
  unfold App.on_preloaded. apply map_eq. intros k.
  rewrite invalidateQueries_lookup, !perform_lookup.
  destruct (last_call k (seed_calls false data)) as [v|] eqn:Hv.
  - assert (Hin : k ∈ seeded_keys false data).
    { apply last_call_is_Some. by eexists. }
    assert (Hp : predicate k = false).
    { apply predicate_false_iff.
      by apply (seeded_keys_root projects_list projects_worktrees
                  chat_sessions chat_session projects_list_root
                  projects_worktrees_root chat_sessions_root
                  chat_session_root false data). }
    unfold observed, in_flight. rewrite invalidateQueries_lookup, Hp. cbn.
    by destruct (cache !! k).
  - by rewrite invalidateQueries_lookup.
Qed.

End KeyBuilders.

(** ** The statements at a cache *)

Lemma seedCache_throw_stops_seeding_witness :
  let run := App.seedCache sample_projects_list sample_projects_worktrees
               sample_chat_sessions sample_chat_session broken_snapshot in
  run.2 = None
  ∧ lookup_member "preferences"
      [("projects", JArray []);
       ("sessionsByWorktree",
        JObject [("w1", JObject []); ("w2", no_sessions)]);
       ("preferences", JObject [("theme", JString "dark")])]
    = Some (JObject [("theme", JString "dark")])
  ∧ run.1 = [(["projects"; "list"], JArray []);
             (["chat"; "sessions"; "w1"], JObject [])]
  ∧ Forall (λ kv, App.early_key sample_projects_list
                    sample_projects_worktrees sample_chat_sessions kv.1)
      run.1.
Proof.
  intros run.
  assert (Hthrown : run.2 = None) by reflexivity.
  split_and!; [exact Hthrown|reflexivity|reflexivity|].
  exact (seedCache_throw_stops_seeding sample_projects_list
           sample_projects_worktrees sample_chat_sessions sample_chat_session
           broken_snapshot Hthrown).
Defined.

Lemma falsy_fields_are_not_seeded_witness :
  let members := [("projects", JArray []); ("preferences", JNumber 0 1)] in
  truthy_value (lookup_member "preferences" members) = false
  ∧ truthy_value (lookup_member "uiState" members) = false
  ∧ (["preferences"]
     ∉ App.seeded_keys sample_projects_list sample_projects_worktrees
         sample_chat_sessions sample_chat_session false
         (Some (JObject members)))
  ∧ (["ui-state"]
     ∉ App.seeded_keys sample_projects_list sample_projects_worktrees
         sample_chat_sessions sample_chat_session false
         (Some (JObject members))).
Proof.
  intros members.
  assert (H1 : truthy_value (lookup_member "preferences" members) = false)
    by reflexivity.
  assert (H2 : truthy_value (lookup_member "uiState" members) = false)
    by reflexivity.
  destruct (falsy_fields_are_not_seeded sample_projects_list
              sample_projects_worktrees sample_chat_sessions
              sample_chat_session eq_refl (λ _, eq_refl) (λ _, eq_refl)
              (λ _, eq_refl) members) as [Hp Hu].
  split_and!; [exact H1|exact H2|exact (Hp H1)|exact (Hu H2)].
Defined.

Lemma seeding_and_invalidation_commute_witness :
  let cache : gmap (list string) Query :=
    {[ ["files"; "a"] := mkQuery (Some (JString "1")) false true false ]} in
  App.on_preloaded sample_projects_list sample_projects_worktrees
    sample_chat_sessions sample_chat_session false (Some broken_snapshot)
    (on_ws_connected false true cache)
  = on_ws_connected false true
      (App.on_preloaded sample_projects_list sample_projects_worktrees
         sample_chat_sessions sample_chat_session false (Some broken_snapshot)
         cache).
Proof.
  intros cache.
  exact (seeding_and_invalidation_commute sample_projects_list
           sample_projects_worktrees sample_chat_sessions sample_chat_session
           eq_refl (λ _, eq_refl) (λ _, eq_refl) (λ _, eq_refl)
           (Some broken_snapshot) false true cache).
Defined.

End AppLaws.


(** * Keybindings: properties *)

Module PreferencesLaws.

Import Preferences.

Lemma migrateKeybindings_Some stored :
  migrateKeybindings (Some stored)
  = if decide (stored !! "toggle_left_sidebar" = Some "mod+1")
    then <["toggle_left_sidebar" := "mod+b"]> stored
    else stored.
Proof.
  unfold migrateKeybindings, MIGRATED_KEYBINDINGS. cbn [foldl migrate_entry].
  by case_decide.
Qed.

(** X20.  Migration rewrites one binding and nothing else: afterwards
    [toggle_left_sidebar] is never the old default [mod+1] (stored
    preferences that had it get [mod+b]), every other action has the
    binding that was stored, no action is added or removed, and migrating
    again changes nothing. *)
Theorem migration_replaces_only_old_default stored :
  let migrated := migrateKeybindings (Some stored) in
  migrated !! "toggle_left_sidebar" ≠ Some "mod+1"
  ∧ (stored !! "toggle_left_sidebar" = Some "mod+1" →
     migrated !! "toggle_left_sidebar" = Some "mod+b")
  ∧ (∀ action, action ≠ "toggle_left_sidebar" →
               migrated !! action = stored !! action)
  ∧ (stored !! "toggle_left_sidebar" ≠ Some "mod+1" → migrated = stored)
  ∧ dom migrated = dom stored
  ∧ migrateKeybindings (Some migrated) = migrated.
Proof.
  intros migrated. subst migrated. rewrite !migrateKeybindings_Some.
  case_decide as Hold.
  - rewrite lookup_insert_eq. rewrite decide_False by done.
    split_and!; try done.
    + intros action Hne. by rewrite lookup_insert_ne.
    + apply dom_insert_lookup_L. by eexists.
  - by rewrite decide_False.
Qed.

(** X21.  The keybindings that [usePreferences] hands out bind every
    action that has a default, and a stored binding wins over the
    default: an action keeps what the migrated preferences say, and gets
    the default only when they say nothing about it.  Without stored
    keybindings they are the defaults. *)
Theorem loaded_keybindings_cover_defaults stored action :
  (is_Some (DEFAULT_KEYBINDINGS !! action) →
   is_Some (loaded_keybindings stored !! action))
  ∧ (∀ shortcut,
       migrateKeybindings stored !! action = Some shortcut →
       loaded_keybindings stored !! action = Some shortcut)
  ∧ (migrateKeybindings stored !! action = None →
     loaded_keybindings stored !! action = DEFAULT_KEYBINDINGS !! action)
  ∧ loaded_keybindings None = DEFAULT_KEYBINDINGS.
Proof.
  unfold loaded_keybindings. split_and!.
  - intros [v Hv]. rewrite lookup_union.
    destruct (migrateKeybindings stored !! action); rewrite Hv; by eexists.
  - intros shortcut Hs. by apply lookup_union_Some_l.
  - intros Hnone. by apply lookup_union_r.
  - cbn. apply (idemp_L (∪)).
Qed.

(** ** The statements at stored preferences *)

Lemma migration_replaces_only_old_default_witness :
  let stored : gmap string string :=
    {[ "toggle_left_sidebar" := "mod+1"; "new_session" := "mod+k" ]} in
  let migrated := migrateKeybindings (Some stored) in
  stored !! "toggle_left_sidebar" = Some "mod+1"
  ∧ migrated !! "toggle_left_sidebar" = Some "mod+b"
  ∧ migrated !! "new_session" = stored !! "new_session"
  ∧ migrateKeybindings (Some migrated) = migrated.
Proof.
  intros stored migrated.
  assert (Hold : stored !! "toggle_left_sidebar" = Some "mod+1")
    by reflexivity.
  destruct (migration_replaces_only_old_default stored)
    as (_ & H1 & H2 & _ & _ & H3).
  split_and!; [exact Hold|exact (H1 Hold)| |exact H3].
  exact (H2 "new_session" ltac:(discriminate)).
Defined.

Lemma loaded_keybindings_cover_defaults_witness :
  let stored : option (gmap string string) :=
    Some {[ "new_session" := "mod+k" ]} in
  migrateKeybindings stored !! "new_session" = Some "mod+k"
  ∧ is_Some (DEFAULT_KEYBINDINGS !! "new_session")
  ∧ is_Some (loaded_keybindings stored !! "new_session")
  ∧ loaded_keybindings stored !! "new_session" = Some "mod+k"
  ∧ migrateKeybindings stored !! "approve_plan" = None
  ∧ loaded_keybindings stored !! "approve_plan"
    = DEFAULT_KEYBINDINGS !! "approve_plan".
Proof.
  intros stored.
  assert (Hs : migrateKeybindings stored !! "new_session" = Some "mod+k")
    by reflexivity.
  assert (Hd : is_Some (DEFAULT_KEYBINDINGS !! "new_session"))
    by (eexists; reflexivity).
  assert (Hn : migrateKeybindings stored !! "approve_plan" = None)
    by reflexivity.
  destruct (loaded_keybindings_cover_defaults stored "new_session")
    as (H1 & H2 & _).
  destruct (loaded_keybindings_cover_defaults stored "approve_plan")
    as (_ & _ & H3 & _).
  split_and!; [exact Hs|exact Hd|exact (H1 Hd)|exact (H2 _ Hs)|exact Hn|].
  exact (H3 Hn).
Defined.

End PreferencesLaws.

(** * File source URLs: properties *)

Module FileSrcLaws.

Import Stdlib.Strings.Ascii.
Import FileSrc.

Lemma hex_digit_inj m n :
  (m < 16)%N → (n < 16)%N → hex_digit m = hex_digit n → m = n.
Proof.
  intros Hm Hn H. apply (f_equal N_of_ascii) in H. unfold hex_digit in H.
  destruct (N.ltb_spec m 10), (N.ltb_spec n 10);
    rewrite !N_ascii_embedding in H by lia; lia.
Qed.

Lemma escape_inj c1 c2 : escape c1 = escape c2 → c1 = c2.
Proof.
  unfold escape. intros [= H1 H2].
  pose proof (N_ascii_bounded c1) as B1.
  pose proof (N_ascii_bounded c2) as B2.
  apply hex_digit_inj in H1; [|apply N.Div0.div_lt_upper_bound; lia..].
  apply hex_digit_inj in H2; [|by apply N.mod_lt..].
  rewrite <- (ascii_N_embedding c1), <- (ascii_N_embedding c2). f_equal.
  rewrite (N.div_mod (N_of_ascii c1) 16), (N.div_mod (N_of_ascii c2) 16)
    by done. congruence.
Qed.

Lemma append_inj_r (p a b : string) : p +:+ a = p +:+ b → a = b.
Proof. induction p as [|c p IH]; cbn; [done|]. intros [= H]. by apply IH. Qed.

Lemma encodeURIComponent_inj s1 s2 :
  encodeURIComponent s1 = encodeURIComponent s2 → s1 = s2.
Proof.
  revert s2. induction s1 as [|c1 s1 IH]; intros [|c2 s2]; cbn.
  - done.
  - destruct (unreserved c2); discriminate.
  - destruct (unreserved c1); discriminate.
  - destruct (unreserved c1) eqn:E1, (unreserved c2) eqn:E2; cbn.
    + intros [= -> H]. f_equal. by apply IH.
    + intros [= -> _]. discriminate.
    + intros [= <- _]. discriminate.
    + intros [= H1 H2 H]. f_equal; [|by apply IH].
      apply escape_inj. unfold escape. by rewrite H1, H2.
Qed.

(** X22.  In the browser [convertFileSrc] hands the path back as it is.
    In the native application two paths that differ get URLs that differ:
    the path is one escaped segment after an origin that depends on the
    protocol and on the platform only. *)
Theorem convertFileSrc_keeps_paths_apart native windows protocol p1 p2 :
  convertFileSrc false windows p1 protocol = p1
  ∧ (convertFileSrc native windows p1 protocol
     = convertFileSrc native windows p2 protocol → p1 = p2).
Proof.
  split; [done|]. unfold convertFileSrc. destruct native; cbn [negb]; [|done].
  destruct windows; intros H.
  - by apply append_inj_r, append_inj_r, append_inj_r,
      encodeURIComponent_inj in H.
  - by apply append_inj_r, append_inj_r, encodeURIComponent_inj in H.
Qed.

(** ** The statement at two paths *)

Lemma convertFileSrc_keeps_paths_apart_witness :
  convertFileSrc true false "/tmp/a b.png" None
  = "asset://localhost/%2Ftmp%2Fa%20b.png"
  ∧ convertFileSrc false false "/tmp/a b.png" None = "/tmp/a b.png"
  ∧ "/tmp/a b.png" = "/tmp/a b.png".
Proof.
  destruct (convertFileSrc_keeps_paths_apart true false None
              "/tmp/a b.png" "/tmp/a b.png") as [H1 H2].
  split_and!; [reflexivity|exact H1|exact (H2 eq_refl)].
Defined.

End FileSrcLaws.
